(** * ChessCoin: the stake escrow and match resolution engine

    A shallow embedding of the wallet module ([ensureTx], [holdStake],
    [resolveMatch]) and of the event handlers and timer callbacks of the
    backend server that drive it, together with the properties of the
    ledger, the escrow and the settlement of wagers.

    Modelling conventions.
    - The Prisma tables are finite maps keyed by their primary key
      ([Balance] by [userId], [Match] by [id], [Escrow] by [matchId]); the
      ledger [TxLedger] is a list in insertion order, because duplicates and
      entry counts matter.  The [User] table is a list of rows, searched by
      a non-key column.
    - Amounts are mathematical integers ([Z]): the columns are SQL
      [INTEGER]s, whose range is not modelled, and Prisma rejects a number
      that is not an integer when the row is written.  Row ids of ledger entries
      ([randomUUID()]) and the timestamps [createdAt] / [updatedAt] are left
      out: no modelled code reads them.
    - A database transaction is a computation in an error monad over the
      database; [transaction] runs it and restores the initial database
      when the body throws.
    - The constraints of the migrations that the modelled writes can hit
      are checked by the write primitives: the unique index
      [TxLedger_user_type_ref_uq] on [(userId, type, ref)] (SQL [NULL]s are
      pairwise distinct), the unique index [Match_lichessGameId_key], the
      primary keys, and the foreign key of [Escrow.matchId].  A [Balance]
      row references a [User] row, so "the account has a balance row" also
      stands for "the account exists".
    - JavaScript truthiness of a [string | null] value is [truthy]: neither
      null nor the empty string.
    - The columns [source], [pgn] and [createdAt] of [Match] are left out:
      the modelled code writes [source] with a constant and reads none of
      them.
    - A stream event handler and a timer callback are each one step on the
      server state (the database and the two in-memory registries); what
      the outside world supplies to a step (the fetched game summary, the
      clock, the id of a created row, the answer of the game server) is an
      argument of the step.  An exception inside a handler is caught there,
      as in the source: the step ends with the writes made so far outside
      of a transaction. *)

From Stdlib Require Import ZArith String List Ascii.
From stdpp Require Import gmap strings list fin_maps pretty.

Local Open Scope string_scope.
Local Open Scope list_scope.
Local Open Scope Z_scope.

(** ** Data model (prisma/migrations/20250831155806_init) *)

Inductive TxType := gain | spend | stake_hold | stake_release | refund.
Inductive Result := W | L | D | abort.
Inductive EscrowStatus := held | resolved | refunded.
Inductive Color := white | black.

#[global] Instance TxType_eq_dec : EqDecision TxType.
Proof. solve_decision. Defined.
#[global] Instance Result_eq_dec : EqDecision Result.
Proof. solve_decision. Defined.
#[global] Instance EscrowStatus_eq_dec : EqDecision EscrowStatus.
Proof. solve_decision. Defined.
#[global] Instance Color_eq_dec : EqDecision Color.
Proof. solve_decision. Defined.

Record User := mkUser {
  u_id : string;
  lichessUsername : option string
}.

Record TxLedger := mkTx {
  tx_userId : string;
  tx_type : TxType;
  tx_amount : Z;
  tx_ref : option string
}.

Record Match := mkMatch {
  lichessGameId : option string;
  whiteId : option string;
  blackId : option string;
  stakeCC : Z;
  result : option Result
}.

Record Escrow := mkEscrow {
  whiteHold : Z;
  blackHold : Z;
  status : EscrowStatus
}.

#[global] Instance TxLedger_eq_dec : EqDecision TxLedger.
Proof. solve_decision. Defined.
#[global] Instance Match_eq_dec : EqDecision Match.
Proof. solve_decision. Defined.
#[global] Instance Escrow_eq_dec : EqDecision Escrow.
Proof. solve_decision. Defined.

Record Db := mkDb {
  user : list User;
  balance : gmap string Z;
  txLedger : list TxLedger;
  matches : gmap string Match;
  escrow : gmap string Escrow
}.

Definition set_balance (f : gmap string Z → gmap string Z) (db : Db) : Db :=
  mkDb (user db) (f (balance db)) (txLedger db) (matches db) (escrow db).
Definition set_txLedger (f : list TxLedger → list TxLedger) (db : Db) : Db :=
  mkDb (user db) (balance db) (f (txLedger db)) (matches db) (escrow db).
Definition set_matches (f : gmap string Match → gmap string Match) (db : Db) : Db :=
  mkDb (user db) (balance db) (txLedger db) (f (matches db)) (escrow db).
Definition set_escrow (f : gmap string Escrow → gmap string Escrow) (db : Db) : Db :=
  mkDb (user db) (balance db) (txLedger db) (matches db) (f (escrow db)).

(** JavaScript truthiness of a [string | null | undefined] value. *)
Definition truthy (o : option string) : bool :=
  match o with
  | Some s => negb (String.eqb s "")
  | None => false
  end.

(** ** Errors and transactions *)

Inductive Error :=
  | INSUFFICIENT_FUNDS
  | MATCH_NOT_FOUND
  | WINNER_REQUIRED
  | RecordNotFound        (* Prisma P2025: update of a missing row *)
  | UniqueConstraint      (* Prisma P2002 *)
  | ForeignKeyConstraint. (* Prisma P2003 *)

#[global] Instance Error_eq_dec : EqDecision Error.
Proof. solve_decision. Defined.

(** A computation inside [prisma.$transaction]: it reads and writes the
    database and may throw. *)
Definition Tx (A : Type) : Type := Db → Error + (A * Db).

Definition ret {A} (a : A) : Tx A := λ db, inr (a, db).
Definition throw {A} (e : Error) : Tx A := λ _, inl e.
Definition bind {A B} (c : Tx A) (k : A → Tx B) : Tx B :=
  λ db, match c db with
        | inl e => inl e
        | inr (a, db') => k a db'
        end.

Notation "'let*' x ':=' c 'in' k" := (bind c (λ x, k))
  (at level 10, x name, c at level 100, k at level 200).
Notation "c ;;; k" := (bind c (λ _, k))
  (at level 100, k at level 200, right associativity).

Definition when (b : bool) (c : Tx unit) : Tx unit := if b then c else ret tt.

(** [prisma.$transaction(body)]: all or nothing. *)
Definition transaction {A} (body : Tx A) (db : Db) : (Error + A) * Db :=
  match body db with
  | inl e => (inl e, db)
  | inr (a, db') => (inr a, db')
  end.

(** ** Table primitives *)

Definition same_key (userId : string) (type : TxType) (ref : string)
    (e : TxLedger) : bool :=
  String.eqb (tx_userId e) userId
  && bool_decide (tx_type e = type)
  && bool_decide (tx_ref e = Some ref).

(** [tx.txLedger.findFirst({ where: { userId, type, ref } })] *)
Definition txLedger_findFirst (userId : string) (type : TxType) (ref : string)
    : Tx (option TxLedger) :=
  λ db, inr (List.find (same_key userId type ref) (txLedger db), db).

(** [tx.txLedger.create]: the unique index on [(userId, type, ref)] rejects
    a second row with the same key when [ref] is not [NULL]. *)
Definition txLedger_create (e : TxLedger) : Tx TxLedger :=
  λ db,
    match tx_ref e with
    | Some r =>
        if existsb (same_key (tx_userId e) (tx_type e) r) (txLedger db)
        then inl UniqueConstraint
        else inr (e, set_txLedger (λ l, l ++ [e]) db)
    | None => inr (e, set_txLedger (λ l, l ++ [e]) db)
    end.

(** [tx.balance.findUnique({ where: { userId } })] *)
Definition balance_findUnique (userId : string) : Tx (option Z) :=
  λ db, inr (balance db !! userId, db).

(** [tx.balance.update({ where: { userId }, data: { chessCC: { increment } } })];
    with [amount = 0] only [updatedAt] is written. *)
Definition balance_update (userId : string) (amount : Z) : Tx unit :=
  λ db,
    match balance db !! userId with
    | None => inl RecordNotFound
    | Some b =>
        if amount =? 0 then inr (tt, db)
        else inr (tt, set_balance (insert userId (b + amount)) db)
    end.

Definition match_findUnique (id : string) : Tx (option Match) :=
  λ db, inr (matches db !! id, db).

(** Does another match than [id] carry the external game id [gid]? *)
Definition gid_taken (id gid : string) (ms : gmap string Match) : bool :=
  existsb (λ kv : string * Match,
             negb (String.eqb kv.1 id)
             && bool_decide (lichessGameId kv.2 = Some gid))
          (map_to_list ms).

(** The write of the row [id] of [Match] with the new content [m']: the row
    must exist and the unique index on [lichessGameId] must accept it. *)
Definition match_check_update (id : string) (m' : Match) : Tx unit :=
  λ db,
    match matches db !! id with
    | None => inl RecordNotFound
    | Some _ =>
        match lichessGameId m' with
        | Some gid =>
            if gid_taken id gid (matches db) then inl UniqueConstraint
            else inr (tt, set_matches (insert id m') db)
        | None => inr (tt, set_matches (insert id m') db)
        end
    end.

(** [match.update({ where: { id }, data: { lichessGameId, result } })] *)
Definition match_update_link_result (id gid : string) (r : Result) : Tx unit :=
  λ db,
    match matches db !! id with
    | None => inl RecordNotFound
    | Some m =>
        match_check_update id
          (mkMatch (Some gid) (whiteId m) (blackId m) (stakeCC m) (Some r)) db
    end.

Definition escrow_findUnique (matchId : string) : Tx (option Escrow) :=
  λ db, inr (escrow db !! matchId, db).

(** [tx.escrow.create]: [matchId] is the primary key and references [Match]. *)
Definition escrow_create (matchId : string) (e : Escrow) : Tx unit :=
  λ db,
    match escrow db !! matchId with
    | Some _ => inl UniqueConstraint
    | None =>
        match matches db !! matchId with
        | None => inl ForeignKeyConstraint
        | Some _ => inr (tt, set_escrow (insert matchId e) db)
        end
    end.

Definition escrow_update (matchId : string) (f : Escrow → Escrow) : Tx unit :=
  λ db,
    match escrow db !! matchId with
    | None => inl RecordNotFound
    | Some e => inr (tt, set_escrow (insert matchId (f e)) db)
    end.

Definition with_holds (w b : Z) (e : Escrow) : Escrow := mkEscrow w b (status e).
Definition with_status (s : EscrowStatus) (e : Escrow) : Escrow :=
  mkEscrow (whiteHold e) (blackHold e) s.

(** ** The wallet module ([wallet.ts]: src/unnamed/part_001) *)

(** [ensureTx(tx, { userId, type, amount, ref })] *)
Definition ensureTx (userId : string) (type : TxType) (amount : Z)
    (ref : option string) : Tx TxLedger :=
  let* existing := (match ref with
                    | Some r =>
                        if truthy ref then txLedger_findFirst userId type r
                        else ret None
                    | None => ret None
                    end) in
  match existing with
  | Some e => ret e
  | None =>
      let* created := txLedger_create (mkTx userId type amount ref) in
      balance_update userId amount ;;;
      ret created
  end.

Record HoldArgs := mkHoldArgs {
  h_matchId : string;
  whoUserId : string;
  whoColor : Color;
  stake : Z
}.

(** The body of the transaction of [holdStake]. *)
Definition holdStake_body (args : HoldArgs) : Tx unit :=
  let* bal := balance_findUnique (whoUserId args) in
  match bal with
  | None => throw INSUFFICIENT_FUNDS
  | Some chessCC =>
      if chessCC <? stake args then throw INSUFFICIENT_FUNDS
      else
        ensureTx (whoUserId args) stake_hold (- stake args)
                 (Some (h_matchId args)) ;;;
        let* esc := escrow_findUnique (h_matchId args) in
        let w := if bool_decide (whoColor args = white) then stake args else 0 in
        let b := if bool_decide (whoColor args = black) then stake args else 0 in
        match esc with
        | None => escrow_create (h_matchId args) (mkEscrow w b held)
        | Some e =>
            escrow_update (h_matchId args)
              (with_holds (whiteHold e + w) (blackHold e + b))
        end
  end.

(** [holdStake(args)] *)
Definition holdStake (args : HoldArgs) (db : Db) : (Error + unit) * Db :=
  if stake args <=? 0 then (inr tt, db)
  else transaction (holdStake_body args) db.

Record ResolveArgs := mkResolveArgs {
  r_matchId : string;
  r_lichessGameId : string;
  r_result : Result;
  winnerUserId : option string;
  whiteUserId : option string;
  blackUserId : option string
}.

(** The string of a value that has been tested truthy. *)
Definition the (o : option string) : string := default "" o.

(** The body of the transaction of [resolveMatch]. *)
Definition resolveMatch_body (args : ResolveArgs) : Tx unit :=
  let* m := match_findUnique (r_matchId args) in
  match m with
  | None => throw MATCH_NOT_FOUND
  | Some m =>
      if bool_decide (is_Some (result m)) then ret tt
      else
        let* esc := escrow_findUnique (r_matchId args) in
        let stakeWhite := from_option whiteHold 0 esc in
        let stakeBlack := from_option blackHold 0 esc in
        match_update_link_result (r_matchId args) (r_lichessGameId args)
                                 (r_result args) ;;;
        if bool_decide (esc = None) || ((stakeWhite =? 0) && (stakeBlack =? 0))
        then ret tt
        else
          match r_result args with
          | D | abort =>
              when (truthy (whiteUserId args) && (0 <? stakeWhite))
                (ensureTx (the (whiteUserId args)) refund stakeWhite
                          (Some (r_lichessGameId args)) ;;; ret tt) ;;;
              when (truthy (blackUserId args) && (0 <? stakeBlack))
                (ensureTx (the (blackUserId args)) refund stakeBlack
                          (Some (r_lichessGameId args)) ;;; ret tt) ;;;
              escrow_update (r_matchId args) (with_status refunded)
          | W =>
              if negb (truthy (winnerUserId args)) then throw WINNER_REQUIRED
              else
                let winner := the (winnerUserId args) in
                let winnerIsWhite :=
                  bool_decide (winnerUserId args = whiteUserId args) in
                let winnerOwnStake :=
                  if winnerIsWhite then stakeWhite else stakeBlack in
                let loserStake :=
                  if winnerIsWhite then stakeBlack else stakeWhite in
                when (0 <? winnerOwnStake)
                  (ensureTx winner refund winnerOwnStake
                            (Some (r_lichessGameId args)) ;;; ret tt) ;;;
                when (0 <? loserStake)
                  (ensureTx winner gain loserStake
                            (Some (r_lichessGameId args)) ;;; ret tt) ;;;
                let loser :=
                  if winnerIsWhite then blackUserId args else whiteUserId args in
                when (truthy loser)
                  (ensureTx (the loser) stake_release 0
                            (Some (r_lichessGameId args)) ;;; ret tt) ;;;
                escrow_update (r_matchId args) (with_status resolved)
          | L => ret tt
          end
  end.

(** [resolveMatch(args)] *)
Definition resolveMatch (args : ResolveArgs) (db : Db) : (Error + unit) * Db :=
  transaction (resolveMatch_body args) db.

(** ** The server (src/chesscoin-backend/src/pkce.ts, the part after the
    PKCE helpers): registries, event handlers and timer callbacks *)

(** The pending challenge of a wager.  The timer handle [timeout] is not
    a field here: [clearTimeout] can only prevent a later run of the timer
    callback, and the callbacks are functions of the server state that may
    be run at any point. *)
Record PendingChallenge := mkPending {
  pc_matchId : string;
  aUserId : string;
  bUserId : string;
  pc_stake : Z;
  pc_time : Z;
  pc_inc : Z;
  pc_rated : bool;
  started : bool
}.

Record Server := mkServer {
  db : Db;
  pendingStakeByUser : gmap string string;      (* userId -> matchId *)
  pendingChallenges : gmap string PendingChallenge (* matchId -> data *)
}.

Definition set_db (d : Db) (s : Server) : Server :=
  mkServer d (pendingStakeByUser s) (pendingChallenges s).
Definition set_pendingStake (f : gmap string string → gmap string string)
    (s : Server) : Server :=
  mkServer (db s) (f (pendingStakeByUser s)) (pendingChallenges s).
Definition set_pendingChallenges
    (f : gmap string PendingChallenge → gmap string PendingChallenge)
    (s : Server) : Server :=
  mkServer (db s) (pendingStakeByUser s) (f (pendingChallenges s)).

(** The game summary returned by [fetchGameSummary]; a missing player object
    reads as a player without name and id. *)
Record Player := mkPlayer {
  p_name : option string;   (* players.<color>.user.name *)
  p_userId : option string  (* players.<color>.userId *)
}.

Record Summary := mkSummary {
  players : option (Player * Player);  (* white, black *)
  winner : option Color;
  sum_status : option string
}.

(** [a ?? b] *)
Definition nullish {A} (a b : option A) : option A :=
  match a with
  | Some x => Some x
  | None => b
  end.

(** [a || b] on [string | null] values *)
Definition or_else (a : option string) (b : string) : string :=
  if truthy a then the a else b.

(** [String.prototype.toLowerCase] on ASCII letters; other characters are
    left as they are. *)
Definition lower_ascii (c : ascii) : ascii :=
  let n := nat_of_ascii c in
  if (Nat.leb 65 n && Nat.leb n 90)%bool then ascii_of_nat (n + 32) else c.

Fixpoint toLowerCase (s : string) : string :=
  match s with
  | EmptyString => EmptyString
  | String c r => String (lower_ascii c) (toLowerCase r)
  end.

Definition user_findUnique (userId : string) (d : Db) : option User :=
  List.find (λ u, String.eqb (u_id u) userId) (user d).

(** [db.user.findFirst({ where: { lichessUsername: { equals, mode: 'insensitive' } } })] *)
Definition user_findByLichess (name : string) (d : Db) : option User :=
  List.find (λ u, match lichessUsername u with
                  | Some n => String.eqb (toLowerCase n) (toLowerCase name)
                  | None => false
                  end) (user d).

(** The colour of the current user in the finished game. *)
Definition detectColor (me : option User) (sum : Summary) : option bool :=
  match me, players sum with
  | Some u, Some (pw, pb) =>
      if truthy (lichessUsername u) then
        let un := toLowerCase (the (lichessUsername u)) in
        let w := toLowerCase (the (nullish (p_name pw) (p_userId pw))) in
        let b := toLowerCase (the (nullish (p_name pb) (p_userId pb))) in
        if String.eqb w un then Some true
        else if String.eqb b un then Some false
        else None
      else None
  | _, _ => None
  end.

Definition is_win (sum : Summary) (isWhite : option bool) : bool :=
  match winner sum, isWhite with
  | Some white, Some true => true
  | Some black, Some false => true
  | _, _ => false
  end.

Definition is_draw (sum : Summary) : bool :=
  bool_decide (sum_status sum = Some "draw").

(** The W / D / L result for the current user, or null. *)
Definition finishResult (sum : Summary) (isWhite : option bool)
    : option Result :=
  if is_draw sum then Some D
  else
    match winner sum, isWhite with
    | Some _, Some _ => if is_win sum isWhite then Some W else Some L
    | _, _ => None
    end.

Definition opponentName (sum : Summary) (isWhite : option bool)
    : option string :=
  match isWhite, players sum with
  | Some true, Some (_, pb) => nullish (p_name pb) (p_userId pb)
  | Some false, Some (pw, _) => nullish (p_name pw) (p_userId pw)
  | _, _ => None
  end.

(** [rewardFromSummary], and the same expression inlined as [delta] in the
    casual branch of the finish handler. *)
Definition rewardFromSummary (sum : Summary) (isWhite : option bool) : Z :=
  if is_draw sum then 3
  else
    match winner sum with
    | None => 1
    | Some _ => if is_win sum isWhite then 8 else 1
    end.

Definition match_findByGid (gid : string) (ms : gmap string Match)
    : option (string * Match) :=
  List.find (λ kv : string * Match,
               bool_decide (lichessGameId kv.2 = Some gid))
            (map_to_list ms).

Definition with_result (r : option Result) (m : Match) : Match :=
  match r with
  | Some _ =>
      mkMatch (lichessGameId m) (whiteId m) (blackId m) (stakeCC m) r
  | None => m
  end.

(** [db.match.upsert({ where: { lichessGameId }, update: { result },
    create: { ... } })]; [newId] is the id given to a created row, and
    [stakeCC] of a created row is the column default 0. *)
Definition match_upsert (newId gid : string) (r : option Result)
    (w b : option string) (d : Db) : Error + (string * Match) * Db :=
  match match_findByGid gid (matches d) with
  | Some (id, m) =>
      inr ((id, with_result r m), set_matches (insert id (with_result r m)) d)
  | None =>
      match matches d !! newId with
      | Some _ => inl UniqueConstraint
      | None =>
          let m := mkMatch (Some gid) w b 0 r in
          inr ((newId, m), set_matches (insert newId m) d)
      end
  end.

(** [db.match.update({ where: { id }, data: { lichessGameId } })] *)
Definition match_update_link (id gid : string) : Tx unit :=
  λ d,
    match matches d !! id with
    | None => inl RecordNotFound
    | Some m =>
        match_check_update id
          (mkMatch (Some gid) (whiteId m) (blackId m) (stakeCC m) (result m)) d
    end.

Definition mark_started (p : PendingChallenge) : PendingChallenge :=
  mkPending (pc_matchId p) (aUserId p) (bUserId p) (pc_stake p) (pc_time p)
            (pc_inc p) (pc_rated p) true.

(** The [gameStart] branch of the stream callback of [ensureStreamFor]. *)
Definition onGameStart (userId gid : string) (s : Server) : Server :=
  if truthy (Some gid) then
    match pendingStakeByUser s !! userId with
    | Some matchId =>
        if truthy (Some matchId) then
          match match_update_link matchId gid (db s) with
          | inl _ => s
          | inr (_, d') =>
              set_pendingChallenges (alter mark_started matchId) (set_db d' s)
          end
        else s
    | None => s
    end
  else s.

(** The casual reward: [db.$transaction([balance.update, txLedger.create])]. *)
Definition casualReward (userId gid : string) (delta : Z) : Tx TxLedger :=
  balance_update userId delta ;;;
  txLedger_create (mkTx userId gain delta (Some gid)).

(** The [gameFinish] branch of the stream callback: [sum] is the summary
    fetched for the game and [newId] the id of the match row that the
    upsert creates when the game is unknown.  Every exception is caught and
    logged; the writes made before it outside a transaction stay. *)
Definition onGameFinish (userId gid : string) (sum : Summary) (newId : string)
    (s : Server) : Server :=
  if truthy (Some gid) then
    let isWhite := detectColor (user_findUnique userId (db s)) sum in
    let res := finishResult sum isWhite in
    let oppName := opponentName sum isWhite in
    let opponentUserId :=
      if truthy oppName
      then u_id <$> user_findByLichess (the oppName) (db s)
      else None in
    let w := match isWhite with
             | Some true => Some userId
             | Some false => if truthy opponentUserId then opponentUserId else None
             | None => None
             end in
    let b := match isWhite with
             | Some false => Some userId
             | Some true => if truthy opponentUserId then opponentUserId else None
             | None => None
             end in
    match match_upsert newId gid res w b (db s) with
    | inl _ => s
    | inr ((id, m), d1) =>
        if 0 <? stakeCC m then
          let winnerId :=
            match res, isWhite with
            | Some W, Some true => Some (or_else (whiteId m) userId)
            | Some W, Some false => Some (or_else (blackId m) userId)
            | _, _ => None
            end in
          match resolveMatch
                  (mkResolveArgs id gid (default abort res) winnerId
                                 (whiteId m) (blackId m)) d1 with
          | (inl _, _) => set_db d1 s
          | (inr _, d2) =>
              let s1 := set_pendingChallenges (delete id) (set_db d2 s) in
              let s2 := set_pendingStake (delete userId) s1 in
              if truthy opponentUserId
              then set_pendingStake (delete (the opponentUserId)) s2
              else s2
          end
        else
          let delta := rewardFromSummary sum isWhite in
          set_db (transaction (casualReward userId gid delta) d1).2 s
    end
  else s.

(** The synthetic game id of a cancellation, [`cancel-${Date.now()}`]. *)
Definition cancelId (now : N) : string := "cancel-" +:+ pretty now.

(** The timer callback of a direct challenge (armed for two minutes by
    [/play/staked/challenge]) for the match [matchId] of [userId] against
    [oppId]; [now] is the clock when it runs. *)
Definition challengeTimeout (matchId userId oppId : string) (now : N)
    (s : Server) : Server :=
  let m := matches (db s) !! matchId in
  if negb (truthy (m ≫= lichessGameId))
     && negb (from_option started false (pendingChallenges s !! matchId))
  then
    match resolveMatch
            (mkResolveArgs matchId (cancelId now) abort None
                           (Some userId) (Some oppId)) (db s) with
    | (inl _, _) => s
    | (inr _, d') =>
        set_pendingChallenges (delete matchId)
          (set_pendingStake (delete oppId)
             (set_pendingStake (delete userId) (set_db d' s)))
    end
  else s.

(** The timer callback of a pair matched by the queue. *)
Definition queueTimeout (matchId aId bId : string) (now : N)
    (s : Server) : Server :=
  let m := matches (db s) !! matchId in
  if negb (truthy (m ≫= lichessGameId)) then
    match resolveMatch
            (mkResolveArgs matchId (cancelId now) abort None
                           (Some aId) (Some bId)) (db s) with
    | (inl _, _) => s
    | (inr _, d') =>
        set_pendingStake (delete bId)
          (set_pendingStake (delete aId) (set_db d' s))
    end
  else s.

(** [db.match.create({ data: { source: 'lichess', stakeCC } })] with the
    generated id [newId]. *)
Definition match_create (newId : string) (stakeN : Z) : Tx unit :=
  λ d,
    match matches d !! newId with
    | Some _ => inl UniqueConstraint
    | None =>
        inr (tt, set_matches (insert newId (mkMatch None None None stakeN None)) d)
    end.

(** Run a database call of a route handler: on an exception the handler
    answers 500 and stops ([None]). *)
Definition step {A} (r : (Error + A) * Db) (s : Server) : option Server :=
  match r with
  | (inl _, _) => None
  | (inr _, d) => Some (set_db d s)
  end.

Definition step_tx {A} (c : Tx A) (s : Server) : option Server :=
  match c (db s) with
  | inl _ => None
  | inr (_, d) => Some (set_db d s)
  end.

(** [/queue/join] from the point where two tickets [a] and [b] have been
    taken from a queue of stake [stakeN]: the match is created, both stakes
    are held, both accounts are registered as pending and [a] challenges
    [b] on the game server ([challengeOk] is the answer of that request,
    [now] the clock of a cancellation).  The result is the state in which
    the handler stops. *)
Definition queueMatched (newId a b : string) (stakeN time inc : Z)
    (rated challengeOk : bool) (now : N) (s : Server) : Server :=
  match step_tx (match_create newId stakeN) s with
  | None => s
  | Some s1 =>
      match step (holdStake (mkHoldArgs newId a white stakeN) (db s1)) s1 with
      | None => s1
      | Some s2 =>
          match step (holdStake (mkHoldArgs newId b black stakeN) (db s2)) s2 with
          | None => s2
          | Some s3 =>
              let s4 :=
                set_pendingStake (insert b newId)
                  (set_pendingStake (insert a newId) s3) in
              if challengeOk then
                set_pendingChallenges
                  (insert newId (mkPending newId a b stakeN time inc rated false))
                  s4
              else
                match step (resolveMatch
                              (mkResolveArgs newId (cancelId now) abort None
                                             (Some a) (Some b)) (db s4)) s4 with
                | None => s4
                | Some s5 =>
                    set_pendingStake (delete b)
                      (set_pendingStake (delete a) s5)
                end
          end
      end
  end.

(** [/play/staked/challenge] from the creation of the match on: only the
    stake of the challenger [userId] is held (as white, provisionally);
    [oppAuth] tells whether the opponent has a linked token and
    [challengeOk] is the answer of the challenge request. *)
Definition challengeCreate (newId userId oppId : string) (stakeN time inc : Z)
    (rated oppAuth challengeOk : bool) (s : Server) : Server :=
  match step_tx (match_create newId stakeN) s with
  | None => s
  | Some s1 =>
      match step (holdStake (mkHoldArgs newId userId white stakeN) (db s1)) s1 with
      | None => s1
      | Some s2 =>
          let s3 :=
            set_pendingStake (insert oppId newId)
              (set_pendingStake (insert userId newId) s2) in
          if oppAuth && challengeOk then
            set_pendingChallenges
              (insert newId
                 (mkPending newId userId oppId stakeN time inc rated false))
              s3
          else s3
      end
  end.

(** ** Accounting measures *)

(** The credit that an escrow row currently holds. *)
Definition held_amount (e : Escrow) : Z :=
  if bool_decide (status e = held) then whiteHold e + blackHold e else 0.

(** The sum of [f] over the rows of a table. *)
Definition map_sum {V} (f : V → Z) (m : gmap string V) : Z :=
  map_fold (λ _ v acc, f v + acc) 0 m.

Definition sum_balances (d : Db) : Z := map_sum (λ v, v) (balance d).

Definition sum_held (d : Db) : Z := map_sum held_amount (escrow d).

(** [sum(all balances) + sum(all currently held escrow)] *)
Definition total_credit (d : Db) : Z := sum_balances d + sum_held d.

Definition has_entry (userId : string) (type : TxType) (ref : string)
    (l : list TxLedger) : bool :=
  existsb (same_key userId type ref) l.

Definition count_entries (userId : string) (type : TxType)
    (l : list TxLedger) : nat :=
  length (filter (λ e, tx_userId e = userId ∧ tx_type e = type) l).

(** No match carries the external game id [gid]. *)
Definition gid_free (gid : string) (ms : gmap string Match) : Prop :=
  ∀ j m, ms !! j = Some m → lichessGameId m ≠ Some gid.

(** The invariant kept by the unique index [Match_lichessGameId_key]. *)
Definition gid_unique (ms : gmap string Match) : Prop :=
  ∀ i j mi mj g,
    ms !! i = Some mi → ms !! j = Some mj →
    lichessGameId mi = Some g → lichessGameId mj = Some g → i = j.

(** * Properties *)

(** ** Table primitives *)

Lemma find_existsb {A} (p : A → bool) (l : list A) :
  List.find p l = None ↔ existsb p l = false.
Proof.
  induction l as [|x l IH]; simpl; [done|].
  destruct (p x); simpl; [split; discriminate | exact IH].
Qed.

Lemma txLedger_findFirst_none u t r d :
  has_entry u t r (txLedger d) = false →
  txLedger_findFirst u t r d = inr (None, d).
Proof.
  intros H. unfold txLedger_findFirst.
  by apply find_existsb in H as ->.
Qed.

Lemma txLedger_create_fresh u t a r d :
  has_entry u t r (txLedger d) = false →
  txLedger_create (mkTx u t a (Some r)) d
  = inr (mkTx u t a (Some r),
         set_txLedger (λ l, l ++ [mkTx u t a (Some r)]) d).
Proof. intros H. unfold txLedger_create, has_entry in *. simpl. by rewrite H. Qed.

Lemma balance_update_spec u a d b :
  balance d !! u = Some b →
  balance_update u a d = inr (tt, set_balance (insert u (b + a)) d).
Proof.
  intros H. unfold balance_update. rewrite H.
  destruct (Z.eqb_spec a 0) as [->|]; [|done].
  rewrite Z.add_0_r. destruct d; unfold set_balance; simpl in *.
  by rewrite insert_id.
Qed.

Lemma has_entry_app u t r l e :
  has_entry u t r (l ++ [e]) = has_entry u t r l || same_key u t r e.
Proof. unfold has_entry. rewrite existsb_app. simpl. by rewrite orb_false_r. Qed.

Lemma same_key_mk u t r u' t' a r' :
  same_key u t r (mkTx u' t' a (Some r'))
  = bool_decide (u' = u ∧ t' = t ∧ r' = r).
Proof.
  unfold same_key. simpl.
  destruct (String.eqb_spec u' u); repeat case_bool_decide;
    simpl; try reflexivity; exfalso; intuition congruence.
Qed.

(** [ensureTx] with a key that has no entry yet records the entry and moves
    the balance. *)
Lemma ensureTx_fresh u t a r d b :
  balance d !! u = Some b →
  has_entry u t r (txLedger d) = false →
  ensureTx u t a (Some r) d
  = inr (mkTx u t a (Some r),
         set_balance (insert u (b + a))
           (set_txLedger (λ l, l ++ [mkTx u t a (Some r)]) d)).
Proof.
  intros Hb Hn. unfold ensureTx, bind.
  assert ((if truthy (Some r) then txLedger_findFirst u t r else ret None) d
          = inr (None, d)) as ->.
  { destruct (truthy (Some r)); [by apply txLedger_findFirst_none | done]. }
  rewrite (txLedger_create_fresh _ _ _ _ _ Hn).
  by rewrite (balance_update_spec u a _ b).
Qed.

(** [ensureTx] with a non-empty [ref] whose key has an entry returns that
    entry and writes nothing. *)
Lemma ensureTx_existing u t a r d e :
  r ≠ "" →
  List.find (same_key u t r) (txLedger d) = Some e →
  ensureTx u t a (Some r) d = inr (e, d).
Proof.
  intros Hr Hf. unfold ensureTx, bind, truthy.
  destruct (String.eqb_spec r ""); [done|]. simpl.
  unfold txLedger_findFirst. by rewrite Hf.
Qed.

Lemma gid_taken_false id gid (ms : gmap string Match) :
  gid_taken id gid ms = false
  ↔ ∀ j m, ms !! j = Some m → j ≠ id → lichessGameId m ≠ Some gid.
Proof.
  unfold gid_taken. split.
  - intros H j m Hj Hne Hg.
    assert (existsb (λ kv : string * Match,
              negb (String.eqb kv.1 id)
              && bool_decide (lichessGameId kv.2 = Some gid))
              (map_to_list ms) = true) as Ht; [|congruence].
    apply existsb_exists. exists (j, m). split.
    + apply list_elem_of_In, elem_of_map_to_list, Hj.
    + simpl. destruct (String.eqb_spec j id); [done|].
      by rewrite bool_decide_eq_true_2.
  - intros H. apply not_true_is_false. intros Ht.
    apply existsb_exists in Ht as [[j m] [Hin Hp]]. simpl in Hp.
    apply list_elem_of_In, elem_of_map_to_list in Hin.
    apply andb_true_iff in Hp as [Hne Hg].
    apply bool_decide_eq_true_1 in Hg.
    destruct (String.eqb_spec j id); [done|].
    by apply (H j m).
Qed.

Definition linked (gid : string) (r : Result) (m : Match) : Match :=
  mkMatch (Some gid) (whiteId m) (blackId m) (stakeCC m) (Some r).

Lemma match_update_link_result_ok id gid r d m :
  matches d !! id = Some m →
  gid_taken id gid (matches d) = false →
  match_update_link_result id gid r d
  = inr (tt, set_matches (insert id (linked gid r m)) d).
Proof.
  intros Hm Hg. unfold match_update_link_result, match_check_update.
  rewrite Hm. simpl. by rewrite Hg.
Qed.

Lemma match_update_link_result_inv id gid r d d' :
  match_update_link_result id gid r d = inr (tt, d') →
  ∃ m, matches d !! id = Some m
       ∧ d' = set_matches (insert id (linked gid r m)) d.
Proof.
  unfold match_update_link_result, match_check_update.
  destruct (matches d !! id) as [m|] eqn:Hm; [|done]. simpl.
  destruct (gid_taken id gid (matches d)); [done|].
  intros [= <-]. by exists m.
Qed.

(** *** Frame: which tables a computation leaves alone *)

Definition keeps {A B} (f : Db → B) (c : Tx A) : Prop :=
  ∀ d a d', c d = inr (a, d') → f d' = f d.

Section Frame.
Context {B : Type} (f : Db → B).

Lemma keeps_ret {A} (a : A) : keeps f (ret a).
Proof. intros d a' d' [= _ <-]. done. Qed.

Lemma keeps_throw {A} e : keeps f (@throw A e).
Proof. intros d a' d'. discriminate. Qed.

Lemma keeps_bind {A C} (c : Tx A) (k : A → Tx C) :
  keeps f c → (∀ a, keeps f (k a)) → keeps f (bind c k).
Proof.
  intros Hc Hk d a d'. unfold bind.
  destruct (c d) as [e|[x d1]] eqn:E; [done|].
  intros H. rewrite (Hk x _ _ _ H). by apply (Hc _ _ _ E).
Qed.

Lemma keeps_when b c : keeps f c → keeps f (when b c).
Proof. destruct b; [done | intros _; apply keeps_ret]. Qed.
End Frame.

Lemma keeps_matches_ensureTx u t a r : keeps matches (ensureTx u t a r).
Proof.
  intros d e d'. unfold ensureTx, bind, ret, txLedger_findFirst,
    txLedger_create, balance_update.
  repeat case_match; intros ?; by simplify_eq/=.
Qed.

Lemma keeps_matches_escrow_update id g : keeps matches (escrow_update id g).
Proof.
  intros d e d'. unfold escrow_update.
  repeat case_match; intros ?; by simplify_eq/=.
Qed.

Lemma keeps_escrow_ensureTx u t a r : keeps escrow (ensureTx u t a r).
Proof.
  intros d e d'. unfold ensureTx, bind, ret, txLedger_findFirst,
    txLedger_create, balance_update.
  repeat case_match; intros ?; by simplify_eq/=.
Qed.

Ltac frame :=
  repeat first
    [ apply keeps_ret | apply keeps_throw
    | apply keeps_matches_ensureTx | apply keeps_matches_escrow_update
    | apply keeps_escrow_ensureTx
    | apply keeps_when
    | apply keeps_bind; [|intros ?]
    | match goal with
      | |- keeps _ (if ?b then _ else _) => destruct b
      | |- keeps _ (match ?x with _ => _ end) => destruct x
      end ].

(** ** [resolveMatch] *)

(** A resolution that goes through leaves the match with a result. *)
Lemma resolveMatch_body_result args d d' :
  resolveMatch_body args d = inr (tt, d') →
  ∃ m, matches d' !! r_matchId args = Some m ∧ is_Some (result m).
Proof.
  unfold resolveMatch_body. unfold bind at 1. unfold match_findUnique.
  destruct (matches d !! r_matchId args) as [m|] eqn:Hm; [|done].
  case_bool_decide as Hr.
  { intros [= <-]. eauto. }
  unfold bind at 1. unfold escrow_findUnique. unfold bind at 1.
  destruct (match_update_link_result _ _ _ d) as [e|[[] d1]] eqn:Hu; [done|].
  apply match_update_link_result_inv in Hu as (m0 & Hm0 & ->).
  intros Hrest.
  assert (matches d' = matches (set_matches
            (insert (r_matchId args)
               (linked (r_lichessGameId args) (r_result args) m0)) d)) as Hk.
  { revert Hrest. generalize (set_matches
            (insert (r_matchId args)
               (linked (r_lichessGameId args) (r_result args) m0)) d).
    intros d1 Hrest. revert Hrest.
    match goal with |- ?c d1 = _ → _ =>
      assert (keeps matches c) as K; [|apply K] end.
    frame. }
  rewrite Hk. simpl. rewrite lookup_insert_eq. eexists. split; [done|].
  simpl. eauto.
Qed.

(** A match that already has a result is left alone. *)
Lemma resolveMatch_already_resolved args d m :
  matches d !! r_matchId args = Some m →
  is_Some (result m) →
  resolveMatch args d = (inr tt, d).
Proof.
  intros Hm Hr. unfold resolveMatch, transaction, resolveMatch_body.
  unfold bind at 1. unfold match_findUnique. rewrite Hm.
  by rewrite bool_decide_eq_true_2.
Qed.

(** *** Example data: two accounts with 100 CC each *)

Definition ex_users : list User :=
  [mkUser "A" (Some "Alice"); mkUser "B" (Some "bob")].

(** A database with the accounts A and B and no match. *)
Definition ex_db0 : Db :=
  mkDb ex_users {[ "A" := 100; "B" := 100 ]} [] ∅ ∅.

(** The same with a match [m1] of stake 20 that nobody has entered yet. *)
Definition ex_db : Db :=
  set_matches (insert "m1" (mkMatch None None None 20 None)) ex_db0.

(** Both stakes of 20 held on [m1]. *)
Definition ex_held : Db :=
  (holdStake (mkHoldArgs "m1" "B" black 20)
     (holdStake (mkHoldArgs "m1" "A" white 20) ex_db).2).2.

(** C3: calling [resolveMatch] a second time with the same arguments leaves
    the database of the first call as it is, ledger and balances included,
    and returns what the first call returned; and on a match that already
    has a recorded result [resolveMatch] is a no-op. *)
Theorem resolveMatch_idempotent :
  (∀ args d,
     let first := resolveMatch args d in
     let second := resolveMatch args first.2 in
     second = first
     ∧ txLedger second.2 = txLedger first.2
     ∧ balance second.2 = balance first.2)
  ∧ (∀ args d m,
       matches d !! r_matchId args = Some m →
       is_Some (result m) →
       resolveMatch args d = (inr tt, d)).
Proof.
  split; [|exact resolveMatch_already_resolved].
  intros args d. simpl.
  assert (resolveMatch args (resolveMatch args d).2 = resolveMatch args d)
    as E; [|by rewrite E].
  unfold resolveMatch at 2 3. unfold transaction.
  destruct (resolveMatch_body args d) as [e|[[] d1]] eqn:Hb; simpl.
  - unfold resolveMatch, transaction. by rewrite Hb.
  - apply resolveMatch_body_result in Hb as (m & Hm & Hr).
    by apply (resolveMatch_already_resolved args d1 m).
Qed.

Lemma resolveMatch_idempotent_witness :
  let d := (resolveMatch
              (mkResolveArgs "m1" "g1" D None (Some "A") (Some "B")) ex_held).2 in
  resolveMatch (mkResolveArgs "m1" "g1" D None (Some "A") (Some "B")) d
  = (inr tt, d).
Proof.
  apply (proj2 resolveMatch_idempotent
           (mkResolveArgs "m1" "g1" D None (Some "A") (Some "B")) _
           (mkMatch (Some "g1") None None 20 (Some D))).
  - vm_compute. reflexivity.
  - simpl. eexists. reflexivity.
Defined.

(** ** [holdStake] *)

Lemma ensureTx_balance_inv u t a r d e d' :
  ensureTx u t a r d = inr (e, d') →
  balance d' = balance d
  ∨ ∃ b, balance d !! u = Some b ∧ balance d' = <[u := b + a]> (balance d).
Proof.
  unfold ensureTx, bind, ret, txLedger_findFirst, txLedger_create,
    balance_update.
  repeat case_match; intros ?; simplify_eq/=; eauto.
Qed.

Lemma keeps_balance_escrow_create id e : keeps balance (escrow_create id e).
Proof.
  intros d x d'. unfold escrow_create.
  repeat case_match; intros ?; by simplify_eq/=.
Qed.

Lemma keeps_balance_escrow_update id g : keeps balance (escrow_update id g).
Proof.
  intros d x d'. unfold escrow_update.
  repeat case_match; intros ?; by simplify_eq/=.
Qed.

(** What a hold that goes through does to the balance of the account. *)
Lemma holdStake_ok_balance args d d' b :
  holdStake args d = (inr tt, d') →
  balance d !! whoUserId args = Some b →
  balance d' = balance d
  ∨ (stake args ≤ b
     ∧ balance d' = <[whoUserId args := b - stake args]> (balance d)).
Proof.
  unfold holdStake. destruct (Z.leb_spec (stake args) 0) as [Hs|Hs].
  { intros [= <-] _. by left. }
  unfold transaction.
  destruct (holdStake_body args d) as [e|[[] d1]] eqn:Hb; [done|].
  intros [= <-] Hbal. revert Hb.
  unfold holdStake_body. unfold bind at 1. unfold balance_findUnique.
  rewrite Hbal. destruct (Z.ltb_spec b (stake args)) as [Hlt|Hge]; [done|].
  unfold bind at 1.
  destruct (ensureTx _ _ _ _ d) as [e|[x d2]] eqn:He; [done|].
  intros Hrest.
  assert (balance d1 = balance d2) as ->.
  { revert Hrest. unfold bind, escrow_findUnique.
    destruct (escrow d2 !! h_matchId args).
    - apply keeps_balance_escrow_update.
    - apply keeps_balance_escrow_create. }
  apply ensureTx_balance_inv in He as [->|(b' & Hb' & ->)]; [by left|].
  right. split; [done|]. rewrite Hbal in Hb'. injection Hb' as <-.
  by rewrite Z.add_opp_r.
Qed.

(** C5: [holdStake] fails with INSUFFICIENT_FUNDS, and leaves the database
    as it was (no ledger entry, no balance change, no escrow change), when
    the balance of the account is below the stake (balances are never
    negative in the data model) or the account has no balance row; and a
    hold that succeeds never leaves the balance of the account negative. *)
Theorem holdStake_insufficient_funds args d :
  (∀ b, balance d !! whoUserId args = Some b → 0 ≤ b → b < stake args →
        holdStake args d = (inl INSUFFICIENT_FUNDS, d))
  ∧ (balance d !! whoUserId args = None → 0 < stake args →
     holdStake args d = (inl INSUFFICIENT_FUNDS, d))
  ∧ (∀ d' b, holdStake args d = (inr tt, d') →
             balance d !! whoUserId args = Some b → 0 ≤ b →
             ∃ b', balance d' !! whoUserId args = Some b' ∧ 0 ≤ b').
Proof.
  split; [|split].
  - intros b Hb H0 Hlt. unfold holdStake.
    destruct (Z.leb_spec (stake args) 0); [lia|].
    unfold transaction, holdStake_body. unfold bind at 1.
    unfold balance_findUnique. rewrite Hb.
    by destruct (Z.ltb_spec b (stake args)); [|lia].
  - intros Hb Hs. unfold holdStake.
    destruct (Z.leb_spec (stake args) 0); [lia|].
    unfold transaction, holdStake_body. unfold bind at 1.
    unfold balance_findUnique. by rewrite Hb.
  - intros d' b Hok Hb H0.
    destruct (holdStake_ok_balance _ _ _ _ Hok Hb) as [->|[Hle ->]].
    + eauto.
    + rewrite lookup_insert_eq. eexists. split; [done|lia].
Qed.

Lemma holdStake_insufficient_funds_witness :
  holdStake (mkHoldArgs "m1" "A" white 101) ex_db
  = (inl INSUFFICIENT_FUNDS, ex_db)
  ∧ holdStake (mkHoldArgs "m1" "Z" white 5) ex_db
    = (inl INSUFFICIENT_FUNDS, ex_db)
  ∧ ∃ b', balance (holdStake (mkHoldArgs "m1" "A" white 20) ex_db).2 !! "A"
          = Some b' ∧ 0 ≤ b'.
Proof.
  split; [|split].
  - apply (proj1 (holdStake_insufficient_funds
                    (mkHoldArgs "m1" "A" white 101) ex_db) 100).
    + vm_compute. reflexivity.
    + lia.
    + simpl. lia.
  - apply (proj1 (proj2 (holdStake_insufficient_funds
                           (mkHoldArgs "m1" "Z" white 5) ex_db))).
    + vm_compute. reflexivity.
    + simpl. lia.
  - apply (proj2 (proj2 (holdStake_insufficient_funds
                           (mkHoldArgs "m1" "A" white 20) ex_db))
             (holdStake (mkHoldArgs "m1" "A" white 20) ex_db).2 100).
    + vm_compute. reflexivity.
    + vm_compute. reflexivity.
    + lia.
Defined.

(** ** [resolveMatch]: the outcomes *)

(** The start of every resolution of a match without result: the match row
    gets the game id and the result, then the escrow decides. *)
Lemma resolveMatch_body_unfold args d m :
  matches d !! r_matchId args = Some m →
  result m = None →
  gid_taken (r_matchId args) (r_lichessGameId args) (matches d) = false →
  resolveMatch_body args d
  = (let esc := escrow d !! r_matchId args in
     let stakeWhite := from_option whiteHold 0 esc in
     let stakeBlack := from_option blackHold 0 esc in
     let gid := r_lichessGameId args in
     (if bool_decide (esc = None) || ((stakeWhite =? 0) && (stakeBlack =? 0))
      then ret tt
      else
        match r_result args with
        | D | abort =>
            when (truthy (whiteUserId args) && (0 <? stakeWhite))
              (ensureTx (the (whiteUserId args)) refund stakeWhite (Some gid)
               ;;; ret tt) ;;;
            when (truthy (blackUserId args) && (0 <? stakeBlack))
              (ensureTx (the (blackUserId args)) refund stakeBlack (Some gid)
               ;;; ret tt) ;;;
            escrow_update (r_matchId args) (with_status refunded)
        | W =>
            if negb (truthy (winnerUserId args)) then throw WINNER_REQUIRED
            else
              let winner := the (winnerUserId args) in
              let winnerIsWhite :=
                bool_decide (winnerUserId args = whiteUserId args) in
              let winnerOwnStake :=
                if winnerIsWhite then stakeWhite else stakeBlack in
              let loserStake :=
                if winnerIsWhite then stakeBlack else stakeWhite in
              when (0 <? winnerOwnStake)
                (ensureTx winner refund winnerOwnStake (Some gid) ;;; ret tt) ;;;
              when (0 <? loserStake)
                (ensureTx winner gain loserStake (Some gid) ;;; ret tt) ;;;
              let loser :=
                if winnerIsWhite then blackUserId args else whiteUserId args in
              when (truthy loser)
                (ensureTx (the loser) stake_release 0 (Some gid) ;;; ret tt) ;;;
              escrow_update (r_matchId args) (with_status resolved)
        | L => ret tt
        end)
       (set_matches
          (insert (r_matchId args)
             (linked (r_lichessGameId args) (r_result args) m)) d)).
Proof.
  intros Hm Hr Hg. unfold resolveMatch_body. unfold bind at 1.
  unfold match_findUnique. rewrite Hm, Hr.
  rewrite bool_decide_eq_false_2 by (intros [? ?]; done).
  unfold bind at 1. unfold escrow_findUnique. unfold bind at 1.
  by rewrite (match_update_link_result_ok _ _ _ _ _ Hm Hg).
Qed.

Lemma holds_not_both_zero (e : Escrow) :
  ¬ (whiteHold e = 0 ∧ blackHold e = 0) →
  (whiteHold e =? 0) && (blackHold e =? 0) = false.
Proof.
  intros H. destruct (Z.eqb_spec (whiteHold e) 0); [|done].
  destruct (Z.eqb_spec (blackHold e) 0); [|done]. tauto.
Qed.

(** C8, as amended: on a match without recorded result whose escrow row
    exists and has a non-zero hold (and whose game id is not linked to
    another match), [resolveMatch] with outcome W and no winner fails with
    WINNER_REQUIRED and aborts the transaction: the database, the match row
    included, is what it was. *)
Theorem resolveMatch_winner_required args d m e :
  r_result args = W →
  truthy (winnerUserId args) = false →
  matches d !! r_matchId args = Some m →
  result m = None →
  gid_taken (r_matchId args) (r_lichessGameId args) (matches d) = false →
  escrow d !! r_matchId args = Some e →
  ¬ (whiteHold e = 0 ∧ blackHold e = 0) →
  resolveMatch args d = (inl WINNER_REQUIRED, d).
Proof.
  intros HW Hw Hm Hr Hg He Hz. unfold resolveMatch, transaction.
  rewrite (resolveMatch_body_unfold _ _ _ Hm Hr Hg). simpl.
  rewrite He, HW, Hw. simpl.
  by rewrite (holds_not_both_zero _ Hz).
Qed.

Lemma resolveMatch_winner_required_witness :
  resolveMatch (mkResolveArgs "m1" "g1" W None (Some "A") (Some "B")) ex_held
  = (inl WINNER_REQUIRED, ex_held).
Proof.
  apply (resolveMatch_winner_required
           (mkResolveArgs "m1" "g1" W None (Some "A") (Some "B")) ex_held
           (mkMatch None None None 20 None) (mkEscrow 20 20 held));
    try (vm_compute; reflexivity).
  simpl. lia.
Defined.

(** C8, counterexample: on a match that has no escrow row, outcome W
    without a winner is accepted: the call returns normally and the result
    W is recorded on the match. *)
Lemma resolveMatch_missing_winner_accepted :
  let args := mkResolveArgs "m1" "g1" W None (Some "A") (Some "B") in
  r_result args = W ∧ winnerUserId args = None
  ∧ (resolveMatch args ex_db).1 = inr tt
  ∧ matches (resolveMatch args ex_db).2 !! "m1"
    = Some (mkMatch (Some "g1") None None 20 (Some W))
  ∧ (resolveMatch args ex_db).2 ≠ ex_db.
Proof.
  repeat split; try (vm_compute; reflexivity).
  intros H. apply (f_equal (λ d, matches d !! "m1")) in H.
  vm_compute in H. discriminate.
Qed.

(** C9, as amended: [resolveMatch] with result L on a match without prior
    result whose game id is not linked to another match records the result
    on the match and does nothing else: no ledger entry, no balance change,
    and the escrow row unchanged, so a held escrow stays held with its
    holds. *)
Theorem resolveMatch_loss_keeps_escrow args d m :
  r_result args = L →
  matches d !! r_matchId args = Some m →
  result m = None →
  gid_taken (r_matchId args) (r_lichessGameId args) (matches d) = false →
  ∃ d', resolveMatch args d = (inr tt, d')
        ∧ matches d' !! r_matchId args
          = Some (linked (r_lichessGameId args) L m)
        ∧ txLedger d' = txLedger d
        ∧ balance d' = balance d
        ∧ escrow d' = escrow d
        ∧ (∀ e, escrow d !! r_matchId args = Some e → status e = held →
                ∃ e', escrow d' !! r_matchId args = Some e'
                      ∧ status e' = held
                      ∧ whiteHold e' = whiteHold e
                      ∧ blackHold e' = blackHold e).
Proof.
  intros HL Hm Hr Hg. unfold resolveMatch, transaction.
  rewrite (resolveMatch_body_unfold _ _ _ Hm Hr Hg). simpl. rewrite HL.
  eexists. split.
  { destruct (_ || _); reflexivity. }
  simpl. rewrite lookup_insert_eq. repeat split; eauto.
Qed.

Lemma resolveMatch_loss_keeps_escrow_witness :
  ∃ d', resolveMatch
          (mkResolveArgs "m1" "g1" L None (Some "A") (Some "B")) ex_held
        = (inr tt, d')
        ∧ txLedger d' = txLedger ex_held
        ∧ balance d' = balance ex_held
        ∧ escrow d' !! "m1" = Some (mkEscrow 20 20 held).
Proof.
  destruct (resolveMatch_loss_keeps_escrow
              (mkResolveArgs "m1" "g1" L None (Some "A") (Some "B")) ex_held
              (mkMatch None None None 20 None))
    as (d' & H1 & _ & H3 & H4 & H5 & _);
    try (vm_compute; reflexivity).
  exists d'. repeat split; try assumption.
  rewrite H5. vm_compute. reflexivity.
Defined.

(** C9, counterexample: the match [m1] has no prior result, and the game
    id [g1] of the call is already linked to another match [m2].  The
    write of the match row is refused by the unique index on the game id:
    the call fails, the transaction is rolled back, and the result of [m1]
    is not set. *)
Lemma resolveMatch_loss_game_id_taken :
  let d := set_matches
             (insert "m2" (mkMatch (Some "g1") None None 0 (Some W)))
             ex_held in
  let r := resolveMatch
             (mkResolveArgs "m1" "g1" L None (Some "A") (Some "B")) d in
  matches d !! "m1" = Some (mkMatch None None None 20 None)
  ∧ r.1 = inl UniqueConstraint
  ∧ r.2 = d
  ∧ matches r.2 !! "m1" ≫= result = None.
Proof. vm_compute. repeat split; reflexivity. Qed.

(** ** [ensureTx] *)

(** C10: duplicate suppression needs a non-null [ref].  With [ref = null]
    [ensureTx] on an account with a balance row always appends a new
    ledger entry and applies the amount to the balance, whatever entries
    the ledger already has, so a second identical call records and pays
    again; with a non-empty [ref] whose key has an entry it returns that
    entry and writes nothing. *)
Theorem ensureTx_null_ref_not_deduplicated u t a d b :
  balance d !! u = Some b →
  (∃ d1, ensureTx u t a None d = inr (mkTx u t a None, d1)
         ∧ txLedger d1 = txLedger d ++ [mkTx u t a None]
         ∧ balance d1 = <[u := b + a]> (balance d)
         ∧ ∃ d2, ensureTx u t a None d1 = inr (mkTx u t a None, d2)
                 ∧ txLedger d2
                   = txLedger d ++ [mkTx u t a None; mkTx u t a None]
                 ∧ balance d2 = <[u := b + a + a]> (balance d))
  ∧ (∀ r e, r ≠ "" →
            List.find (same_key u t r) (txLedger d) = Some e →
            ensureTx u t a (Some r) d = inr (e, d)).
Proof.
  intros Hb. split; [|intros r e; apply ensureTx_existing].
  assert (∀ d0 b0, balance d0 !! u = Some b0 →
            ensureTx u t a None d0
            = inr (mkTx u t a None,
                   set_balance (insert u (b0 + a))
                     (set_txLedger (λ l, l ++ [mkTx u t a None]) d0))) as Hstep.
  { intros d0 b0 H0. unfold ensureTx, bind, ret, txLedger_create. simpl.
    by rewrite (balance_update_spec u a _ b0). }
  eexists. split; [apply (Hstep d b Hb)|]. simpl.
  repeat split.
  eexists. split.
  { apply (Hstep _ (b + a)). simpl. apply lookup_insert_eq. }
  simpl. split.
  - by rewrite <- app_assoc.
  - by rewrite insert_insert_eq.
Qed.

Lemma ensureTx_null_ref_not_deduplicated_witness :
  (∃ d2, ensureTx "A" gain 5 None
           (set_txLedger (λ l, l ++ [mkTx "A" gain 5 None])
              (set_balance (insert "A" 105) ex_db0))
         = inr (mkTx "A" gain 5 None, d2)
         ∧ txLedger d2 = [mkTx "A" gain 5 None; mkTx "A" gain 5 None]
         ∧ balance d2 !! "A" = Some 110)
  ∧ (let d := set_txLedger (λ l, l ++ [mkTx "A" gain 5 (Some "g1")])
                (set_balance (insert "A" 105) ex_db0) in
     ensureTx "A" gain 5 (Some "g1") d = inr (mkTx "A" gain 5 (Some "g1"), d)).
Proof.
  split.
  - assert (balance (set_txLedger (λ l, l ++ [mkTx "A" gain 5 None])
                       (set_balance (insert "A" 105) ex_db0)) !! "A"
            = Some 105) as Hb by (vm_compute; reflexivity).
    destruct (proj1 (ensureTx_null_ref_not_deduplicated "A" gain 5 _ 105 Hb))
      as (d1 & H1 & H2 & H3 & _).
    exists d1. split; [exact H1|]. split; [exact H2|].
    rewrite H3. vm_compute. reflexivity.
  - assert (balance (set_txLedger (λ l, l ++ [mkTx "A" gain 5 (Some "g1")])
                       (set_balance (insert "A" 105) ex_db0)) !! "A"
            = Some 105) as Hb by (vm_compute; reflexivity).
    apply (proj2 (ensureTx_null_ref_not_deduplicated "A" gain 5 _ 105 Hb)
             "g1" (mkTx "A" gain 5 (Some "g1"))).
    + discriminate.
    + vm_compute. reflexivity.
Defined.

(** ** Draw and abort *)

(** The refund entry of a side: nothing for a hold that is not positive. *)
Definition refund_entry (u : string) (hold : Z) (gid : string)
    : list TxLedger :=
  if 0 <? hold then [mkTx u refund hold (Some gid)] else [].

(** One guarded refund of [resolveMatch], on a key without entry. *)
Lemma refund_step u hold gid d bu :
  u ≠ "" →
  0 ≤ hold →
  balance d !! u = Some bu →
  has_entry u refund gid (txLedger d) = false →
  when (truthy (Some u) && (0 <? hold))
       (ensureTx u refund hold (Some gid) ;;; ret tt) d
  = inr (tt, set_balance (insert u (bu + hold))
               (set_txLedger (λ l, l ++ refund_entry u hold gid) d)).
Proof.
  intros Hu Hh Hb Hn. unfold truthy, refund_entry.
  destruct (String.eqb_spec u ""); [done|]. simpl.
  destruct (Z.ltb_spec 0 hold) as [Hp|Hp]; simpl.
  - unfold bind. by rewrite (ensureTx_fresh _ _ _ _ _ _ Hb Hn).
  - assert (hold = 0) as -> by lia. unfold ret. f_equal. f_equal.
    rewrite Z.add_0_r. destruct d; unfold set_balance, set_txLedger; simpl in *.
    by rewrite insert_id, app_nil_r.
Qed.

Lemma has_entry_refund_other u v hold gid l :
  u ≠ v →
  has_entry u refund gid l = false →
  has_entry u refund gid (l ++ refund_entry v hold gid) = false.
Proof.
  intros Hne H. unfold refund_entry, has_entry in *.
  rewrite existsb_app, H. simpl.
  destruct (0 <? hold); [|done]. simpl.
  rewrite same_key_mk. rewrite bool_decide_eq_false_2; [done|].
  intros (? & _). congruence.
Qed.

(** Both guarded refunds and the status update of the draw / abort branch,
    for two distinct identified sides. *)
Lemma refund_both_run mid gid e a b ba bb d0 :
  a ≠ "" → b ≠ "" → a ≠ b →
  0 ≤ whiteHold e → 0 ≤ blackHold e →
  escrow d0 !! mid = Some e →
  balance d0 !! a = Some ba → balance d0 !! b = Some bb →
  has_entry a refund gid (txLedger d0) = false →
  has_entry b refund gid (txLedger d0) = false →
  bind
    (when (truthy (Some a) && (0 <? whiteHold e))
       (ensureTx a refund (whiteHold e) (Some gid) ;;; ret tt))
    (λ _,
       when (truthy (Some b) && (0 <? blackHold e))
         (ensureTx b refund (blackHold e) (Some gid) ;;; ret tt) ;;;
       escrow_update mid (with_status refunded)) d0
  = inr (tt,
         set_escrow (insert mid (with_status refunded e))
           (set_balance (insert b (bb + blackHold e))
              (set_txLedger (λ l, l ++ refund_entry b (blackHold e) gid)
                 (set_balance (insert a (ba + whiteHold e))
                    (set_txLedger (λ l, l ++ refund_entry a (whiteHold e) gid)
                       d0))))).
Proof.
  intros Hane Hbne Hab Hw Hb He Hba Hbb Hna Hnb. unfold bind at 1.
  rewrite (refund_step a (whiteHold e) _ d0 ba) by done.
  unfold bind at 1.
  rewrite (refund_step b (blackHold e) _ _ bb); try done.
  - unfold escrow_update. simpl. by rewrite He.
  - simpl. by rewrite lookup_insert_ne.
  - simpl. by apply has_entry_refund_other.
Qed.

(** Where a draw or an abort does refund: on a match without recorded
    result (whose game id is not linked to another match) whose escrow has
    non-negative holds, not both zero, and whose two sides are given in the
    call as distinct accounts that have a balance row and no refund entry
    under the key [(account, refund, game id)] yet, [resolveMatch] credits
    each side its hold in full, records one refund entry per positive hold
    under that key, and sets the escrow status to refunded.  Called
    directly with both sides on the holds of A and B (20 each, draw), it
    brings both balances back to 100, with two refund entries. *)
Theorem resolveMatch_draw_abort_refunds :
  (∀ args d m e a b ba bb,
     r_result args = D ∨ r_result args = abort →
     matches d !! r_matchId args = Some m →
     result m = None →
     gid_taken (r_matchId args) (r_lichessGameId args) (matches d) = false →
     escrow d !! r_matchId args = Some e →
     0 ≤ whiteHold e → 0 ≤ blackHold e →
     ¬ (whiteHold e = 0 ∧ blackHold e = 0) →
     whiteUserId args = Some a → blackUserId args = Some b →
     a ≠ "" → b ≠ "" → a ≠ b →
     balance d !! a = Some ba → balance d !! b = Some bb →
     has_entry a refund (r_lichessGameId args) (txLedger d) = false →
     has_entry b refund (r_lichessGameId args) (txLedger d) = false →
     ∃ d', resolveMatch args d = (inr tt, d')
           ∧ txLedger d'
             = txLedger d
               ++ refund_entry a (whiteHold e) (r_lichessGameId args)
               ++ refund_entry b (blackHold e) (r_lichessGameId args)
           ∧ balance d' !! a = Some (ba + whiteHold e)
           ∧ balance d' !! b = Some (bb + blackHold e)
           ∧ (∀ u, u ≠ a → u ≠ b → balance d' !! u = balance d !! u)
           ∧ escrow d' !! r_matchId args = Some (with_status refunded e))
  ∧ (let d' := (resolveMatch
                  (mkResolveArgs "m1" "g1" D None (Some "A") (Some "B"))
                  ex_held).2 in
     balance ex_held !! "A" = Some 80 ∧ balance ex_held !! "B" = Some 80
     ∧ balance d' !! "A" = Some 100 ∧ balance d' !! "B" = Some 100
     ∧ status <$> escrow d' !! "m1" = Some refunded
     ∧ filter (λ x, tx_type x = refund) (txLedger d')
       = [mkTx "A" refund 20 (Some "g1"); mkTx "B" refund 20 (Some "g1")]).
Proof.
  split; [|vm_compute; repeat split; reflexivity].
  intros args d m e a b ba bb Hres Hm Hr Hg He Hw Hb Hz Ha Hbk Hane Hbne Hab
    Hba Hbb Hna Hnb.
  unfold resolveMatch, transaction.
  rewrite (resolveMatch_body_unfold _ _ _ Hm Hr Hg). simpl.
  rewrite He. simpl. rewrite (holds_not_both_zero _ Hz).
  set (d0 := set_matches _ d).
  assert (Hrun := refund_both_run (r_matchId args) (r_lichessGameId args)
                    e a b ba bb d0 Hane Hbne Hab Hw Hb He Hba Hbb Hna Hnb).
  rewrite Ha, Hbk. simpl. simpl in Hrun.
  eexists. split.
  { destruct Hres as [-> | ->]; rewrite Hrun; reflexivity. }
  simpl. repeat split.
  - by rewrite <- app_assoc.
  - rewrite lookup_insert_ne by done. apply lookup_insert_eq.
  - apply lookup_insert_eq.
  - intros u Hua Hub. by rewrite !lookup_insert_ne.
  - apply lookup_insert_eq.
Qed.

Lemma resolveMatch_draw_abort_refunds_witness :
  ∃ d', resolveMatch
          (mkResolveArgs "m1" "cancel-7" abort None (Some "A") (Some "B"))
          ex_held = (inr tt, d')
        ∧ balance d' !! "A" = Some (80 + 20)
        ∧ balance d' !! "B" = Some (80 + 20)
        ∧ escrow d' !! "m1" = Some (mkEscrow 20 20 refunded).
Proof.
  destruct (proj1 resolveMatch_draw_abort_refunds
              (mkResolveArgs "m1" "cancel-7" abort None (Some "A") (Some "B"))
              ex_held (mkMatch None None None 20 None) (mkEscrow 20 20 held)
              "A" "B" 80 80)
    as (d' & H1 & _ & H3 & H4 & _ & H6);
    try (vm_compute; reflexivity); try (simpl; lia); try done.
  - by right.
  - exists d'. by repeat split.
Defined.

(** A and B have 20 held each on [m1]; the wager is resolved as abort with
    no side identified (what the finish handler passes for a staked match,
    whose row has no players).  The call returns normally and the escrow
    becomes refunded, but no refund entry is written and both accounts stay
    at 80: neither hold is refunded. *)
Lemma resolveMatch_abort_unidentified_side_not_refunded :
  let r := resolveMatch (mkResolveArgs "m1" "g1" abort None None None) ex_held in
  escrow ex_held !! "m1" = Some (mkEscrow 20 20 held)
  ∧ balance ex_held !! "A" = Some 80
  ∧ balance ex_held !! "B" = Some 80
  ∧ r.1 = inr tt
  ∧ escrow r.2 !! "m1" = Some (mkEscrow 20 20 refunded)
  ∧ balance r.2 !! "A" = Some 80
  ∧ balance r.2 !! "B" = Some 80
  ∧ filter (λ x, tx_type x = refund) (txLedger r.2) = [].
Proof. vm_compute. repeat split; reflexivity. Qed.

(** ** Holds that go through *)

Definition hold_entry (u mid : string) (st : Z) : TxLedger :=
  mkTx u stake_hold (- st) (Some mid).

Definition side_hold (c side : Color) (st : Z) : Z :=
  if bool_decide (c = side) then st else 0.

(** The debit of a hold on a key without entry. *)
Lemma holdStake_debit mid u c st d bu :
  0 < st → balance d !! u = Some bu → st ≤ bu →
  has_entry u stake_hold mid (txLedger d) = false →
  holdStake (mkHoldArgs mid u c st) d
  = let d1 := set_balance (insert u (bu - st))
                (set_txLedger (λ l, l ++ [hold_entry u mid st]) d) in
    match
      match escrow d !! mid with
      | None =>
          escrow_create mid
            (mkEscrow (side_hold c white st) (side_hold c black st) held) d1
      | Some e =>
          escrow_update mid
            (with_holds (whiteHold e + side_hold c white st)
                        (blackHold e + side_hold c black st)) d1
      end
    with
    | inl err => (inl err, d)
    | inr (_, d') => (inr tt, d')
    end.
Proof.
  intros Hs Hb Hle Hn. unfold holdStake. simpl.
  destruct (Z.leb_spec st 0); [lia|].
  unfold transaction, holdStake_body. simpl. unfold bind at 1.
  unfold balance_findUnique. rewrite Hb.
  destruct (Z.ltb_spec bu st); [lia|].
  unfold bind at 1. rewrite (ensureTx_fresh _ _ _ _ _ _ Hb Hn).
  rewrite Z.add_opp_r. unfold bind, escrow_findUnique, hold_entry, side_hold.
  simpl.
  destruct (escrow d !! mid) as [e|]; simpl.
  - destruct (escrow_update _ _ _) as [?|[[] ?]]; reflexivity.
  - destruct (escrow_create _ _ _) as [?|[[] ?]]; reflexivity.
Qed.

(** The first hold on a match: the escrow row is created. *)
Lemma holdStake_run_create mid u c st d bu m :
  0 < st → balance d !! u = Some bu → st ≤ bu →
  has_entry u stake_hold mid (txLedger d) = false →
  escrow d !! mid = None →
  matches d !! mid = Some m →
  holdStake (mkHoldArgs mid u c st) d
  = (inr tt,
     set_escrow
       (insert mid (mkEscrow (side_hold c white st) (side_hold c black st) held))
       (set_balance (insert u (bu - st))
          (set_txLedger (λ l, l ++ [hold_entry u mid st]) d))).
Proof.
  intros Hs Hb Hle Hn He Hm.
  rewrite (holdStake_debit _ _ _ _ _ _ Hs Hb Hle Hn).
  unfold escrow_create. simpl. by rewrite He, Hm.
Qed.

(** A later hold on the same match: the holds of the escrow row grow. *)
Lemma holdStake_run_update mid u c st d bu e :
  0 < st → balance d !! u = Some bu → st ≤ bu →
  has_entry u stake_hold mid (txLedger d) = false →
  escrow d !! mid = Some e →
  holdStake (mkHoldArgs mid u c st) d
  = (inr tt,
     set_escrow
       (insert mid (with_holds (whiteHold e + side_hold c white st)
                               (blackHold e + side_hold c black st) e))
       (set_balance (insert u (bu - st))
          (set_txLedger (λ l, l ++ [hold_entry u mid st]) d))).
Proof.
  intros Hs Hb Hle Hn He.
  rewrite (holdStake_debit _ _ _ _ _ _ Hs Hb Hle Hn).
  unfold escrow_update. simpl. by rewrite He.
Qed.

(** ** Creating a wager *)

Lemma gid_taken_insert_free id gid x (ms : gmap string Match) :
  gid_free gid ms → gid_taken id gid (<[id:=x]> ms) = false.
Proof.
  intros H. apply gid_taken_false. intros j m Hj Hne.
  rewrite lookup_insert_ne in Hj by done. by apply (H j m).
Qed.

Lemma has_entry_app_other u t r l u' t' a r' :
  ¬ (u' = u ∧ t' = t ∧ r' = r) →
  has_entry u t r (l ++ [mkTx u' t' a (Some r')]) = has_entry u t r l.
Proof.
  intros H. rewrite has_entry_app, same_key_mk.
  rewrite bool_decide_eq_false_2 by done. apply orb_false_r.
Qed.

(** A new match of stake [st] without players, game id or result. *)
Definition new_match (st : Z) : Match := mkMatch None None None st None.

(** The database after the queue has created the match [mid] and held the
    stake [st] of both players. *)
Definition db_paired (mid a b : string) (st ba bb : Z) (d : Db) : Db :=
  set_escrow (insert mid (mkEscrow st st held))
    (set_balance (insert b (bb - st))
       (set_txLedger (λ l, l ++ [hold_entry b mid st])
          (set_escrow (insert mid (mkEscrow st 0 held))
             (set_balance (insert a (ba - st))
                (set_txLedger (λ l, l ++ [hold_entry a mid st])
                   (set_matches (insert mid (new_match st)) d)))))).

Section Creation.
Context (s : Server) (mid : string) (st : Z).
Hypothesis fresh_match : matches (db s) !! mid = None.
Hypothesis fresh_escrow : escrow (db s) !! mid = None.
Hypothesis stake_pos : 0 < st.

Lemma queueMatched_run a b time inc rated now ba bb :
  a ≠ b →
  balance (db s) !! a = Some ba → st ≤ ba →
  balance (db s) !! b = Some bb → st ≤ bb →
  has_entry a stake_hold mid (txLedger (db s)) = false →
  has_entry b stake_hold mid (txLedger (db s)) = false →
  queueMatched mid a b st time inc rated true now s
  = mkServer (db_paired mid a b st ba bb (db s))
      (<[b:=mid]> (<[a:=mid]> (pendingStakeByUser s)))
      (<[mid:=mkPending mid a b st time inc rated false]>
         (pendingChallenges s)).
Proof.
  intros Hab Hba Hlea Hbb Hleb Hna Hnb.
  unfold queueMatched, step_tx, match_create. rewrite fresh_match. simpl.
  rewrite (holdStake_run_create mid a white st _ ba (new_match st));
    try done; [|apply lookup_insert_eq].
  simpl.
  rewrite (holdStake_run_update mid b black st _ bb (mkEscrow st 0 held));
    try done; simpl.
  - unfold side_hold. simpl. rewrite Z.add_0_r. reflexivity.
  - by rewrite lookup_insert_ne.
  - unfold hold_entry. rewrite has_entry_app_other; [done|].
    intros (? & _). congruence.
  - apply lookup_insert_eq.
Qed.

Lemma challengeCreate_run u o time inc rated bu :
  balance (db s) !! u = Some bu → st ≤ bu →
  has_entry u stake_hold mid (txLedger (db s)) = false →
  challengeCreate mid u o st time inc rated true true s
  = mkServer
      (set_escrow (insert mid (mkEscrow st 0 held))
         (set_balance (insert u (bu - st))
            (set_txLedger (λ l, l ++ [hold_entry u mid st])
               (set_matches (insert mid (new_match st)) (db s)))))
      (<[o:=mid]> (<[u:=mid]> (pendingStakeByUser s)))
      (<[mid:=mkPending mid u o st time inc rated false]>
         (pendingChallenges s)).
Proof.
  intros Hb Hle Hn.
  unfold challengeCreate, step_tx, match_create. rewrite fresh_match. simpl.
  rewrite (holdStake_run_create mid u white st _ bu (new_match st));
    try done. apply lookup_insert_eq.
Qed.
End Creation.

(** ** Timeouts *)

Lemma balance_restored (bal : gmap string Z) a b ba bb st :
  bal !! a = Some ba → bal !! b = Some bb →
  <[b:=bb - st + st]> (<[a:=ba - st + st]> (<[b:=bb - st]> (<[a:=ba - st]> bal)))
  = bal.
Proof.
  intros Ha Hb. apply map_eq. intros k.
  rewrite !lookup_insert. repeat case_decide; subst; rewrite ?Ha, ?Hb;
    f_equal; lia.
Qed.

(** The queue timer without a start signal: both players get their stake
    back. *)
Lemma queueTimeout_run s mid a b st ba bb now P C :
  a ≠ "" → b ≠ "" → a ≠ b → 0 < st →
  balance (db s) !! a = Some ba → balance (db s) !! b = Some bb →
  gid_free (cancelId now) (matches (db s)) →
  has_entry a refund (cancelId now) (txLedger (db s)) = false →
  has_entry b refund (cancelId now) (txLedger (db s)) = false →
  let s2 := queueTimeout mid a b now
              (mkServer (db_paired mid a b st ba bb (db s)) P C) in
  balance (db s2) = balance (db s)
  ∧ matches (db s2) !! mid = Some (linked (cancelId now) abort (new_match st))
  ∧ escrow (db s2) !! mid = Some (mkEscrow st st refunded)
  ∧ txLedger (db s2)
    = txLedger (db s)
      ++ [hold_entry a mid st; hold_entry b mid st;
          mkTx a refund st (Some (cancelId now));
          mkTx b refund st (Some (cancelId now))]
  ∧ pendingStakeByUser s2 = delete b (delete a P).
Proof.
  intros Hane Hbne Hab Hst Hba Hbb Hfree Hna Hnb.
  unfold queueTimeout. simpl. rewrite lookup_insert_eq. simpl.
  unfold resolveMatch, transaction.
  rewrite (resolveMatch_body_unfold _ _ (new_match st));
    [|apply lookup_insert_eq|done|by apply gid_taken_insert_free].
  simpl. rewrite lookup_insert_eq. simpl.
  assert ((st =? 0) = false) as -> by (apply Z.eqb_neq; lia). simpl.
  set (d0 := set_matches _ _).
  assert (Hrun := refund_both_run mid (cancelId now) (mkEscrow st st held)
                    a b (ba - st) (bb - st) d0 Hane Hbne Hab).
  simpl in Hrun. rewrite Hrun; clear Hrun; try lia.
  - simpl. unfold refund_entry.
    assert ((0 <? st) = true) as -> by (apply Z.ltb_lt; lia).
    repeat split.
    + by apply balance_restored.
    + apply lookup_insert_eq.
    + rewrite insert_insert_eq. apply lookup_insert_eq.
    + by rewrite <- !app_assoc.
  - apply lookup_insert_eq.
  - rewrite lookup_insert_ne by done. apply lookup_insert_eq.
  - apply lookup_insert_eq.
  - unfold hold_entry.
    rewrite !has_entry_app_other; [done| |]; intros (_ & ? & _); done.
  - unfold hold_entry.
    rewrite !has_entry_app_other; [done| |]; intros (_ & ? & _); done.
Qed.

(** The challenge timer without a start signal: the challenger, the only
    side with a hold, gets the stake back. *)
Lemma challengeTimeout_run s mid u o st bu now P C p :
  u ≠ "" → 0 < st →
  balance (db s) !! u = Some bu →
  gid_free (cancelId now) (matches (db s)) →
  has_entry u refund (cancelId now) (txLedger (db s)) = false →
  C !! mid = Some p → started p = false →
  let d1 := set_escrow (insert mid (mkEscrow st 0 held))
              (set_balance (insert u (bu - st))
                 (set_txLedger (λ l, l ++ [hold_entry u mid st])
                    (set_matches (insert mid (new_match st)) (db s)))) in
  let s2 := challengeTimeout mid u o now (mkServer d1 P C) in
  balance (db s2) = balance (db s)
  ∧ matches (db s2) !! mid = Some (linked (cancelId now) abort (new_match st))
  ∧ escrow (db s2) !! mid = Some (mkEscrow st 0 refunded)
  ∧ txLedger (db s2)
    = txLedger (db s)
      ++ [hold_entry u mid st; mkTx u refund st (Some (cancelId now))]
  ∧ pendingStakeByUser s2 = delete o (delete u P)
  ∧ pendingChallenges s2 = delete mid C.
Proof.
  intros Hune Hst Hbu Hfree Hnu HC Hp d1 s2.
  assert (s2 = mkServer
                 (set_escrow (insert mid (mkEscrow st 0 refunded))
                    (set_balance (insert u (bu - st + st))
                       (set_txLedger
                          (λ l, l ++ [mkTx u refund st (Some (cancelId now))])
                          (set_matches
                             (insert mid
                                (linked (cancelId now) abort (new_match st)))
                             d1))))
                 (delete o (delete u P)) (delete mid C)) as ->.
  { subst s2 d1. unfold challengeTimeout. simpl.
    rewrite lookup_insert_eq, HC. simpl. rewrite Hp. simpl.
    unfold resolveMatch, transaction.
    rewrite (resolveMatch_body_unfold _ _ (new_match st));
      [|apply lookup_insert_eq|done|by apply gid_taken_insert_free].
    simpl. rewrite lookup_insert_eq. simpl.
    assert ((st =? 0) = false) as -> by (apply Z.eqb_neq; lia). simpl.
    set (d0 := set_matches _ _).
    unfold bind at 1.
    assert (Hstep := refund_step u st (cancelId now) d0 (bu - st) Hune).
    simpl in Hstep. rewrite Hstep; clear Hstep; try lia.
    - unfold bind at 1. rewrite andb_false_r. simpl.
      unfold escrow_update. simpl. rewrite lookup_insert_eq. simpl.
      unfold refund_entry.
      by assert ((0 <? st) = true) as -> by (apply Z.ltb_lt; lia).
    - apply lookup_insert_eq.
    - unfold hold_entry.
      rewrite has_entry_app_other; [done|]. intros (_ & ? & _); done. }
  subst d1. simpl. repeat split.
  - rewrite insert_insert_eq.
    replace (bu - st + st) with bu by lia. by apply insert_id.
  - apply lookup_insert_eq.
  - rewrite insert_insert_eq. apply lookup_insert_eq.
  - by rewrite <- !app_assoc.
Qed.

(** A start signal that attaches the game id disarms both timer callbacks. *)
Lemma timeout_after_start s userId gid matchId m :
  pendingStakeByUser s !! userId = Some matchId →
  matchId ≠ "" → gid ≠ "" →
  matches (db s) !! matchId = Some m →
  gid_taken matchId gid (matches (db s)) = false →
  let s' := onGameStart userId gid s in
  (matches (db s') !! matchId ≫= lichessGameId = Some gid)
  ∧ pendingChallenges s' !! matchId
    = mark_started <$> pendingChallenges s !! matchId
  ∧ ∀ u o now,
      challengeTimeout matchId u o now s' = s'
      ∧ queueTimeout matchId u o now s' = s'.
Proof.
  intros Hp Hm Hg Hmatch Hfree.
  assert (truthy (Some gid) = true) as Htg.
  { unfold truthy. by destruct (String.eqb_spec gid ""). }
  assert (truthy (Some matchId) = true) as Htm.
  { unfold truthy. by destruct (String.eqb_spec matchId ""). }
  unfold onGameStart. rewrite Htg, Hp, Htm.
  unfold match_update_link, match_check_update. rewrite Hmatch. simpl.
  rewrite Hfree. simpl. split; [|split].
  - by rewrite lookup_insert_eq.
  - by rewrite lookup_alter_eq.
  - intros u o now. unfold challengeTimeout, queueTimeout. simpl.
    rewrite lookup_insert_eq. simpl.
    change (negb (gid =? "")%string) with (truthy (Some gid)).
    by rewrite Htg.
Qed.

(** Where the timers do what they are armed for, the synthetic game id
    [cancel-<clock>] of the cancellation being carried by no match and by
    no refund entry of the players so far.  (1) A pair matched by the queue
    whose timer fires without a start signal: both players have the balance
    they had before the wager, the match has the terminal result abort and
    the escrow is refunded.  (2) The same for a direct challenge, where only
    the challenger has a hold.  (3) After a start signal for a pending
    match that attaches the game id (no other match carrying it), the
    pending challenge of the match is marked started, its other fields
    being kept, and both timer callbacks leave the whole server state as it
    is: no refund. *)
Theorem timeout_correctness :
  (∀ s mid a b st time inc rated now0 now ba bb,
     matches (db s) !! mid = None → escrow (db s) !! mid = None →
     0 < st → a ≠ "" → b ≠ "" → a ≠ b →
     balance (db s) !! a = Some ba → st ≤ ba →
     balance (db s) !! b = Some bb → st ≤ bb →
     has_entry a stake_hold mid (txLedger (db s)) = false →
     has_entry b stake_hold mid (txLedger (db s)) = false →
     gid_free (cancelId now) (matches (db s)) →
     has_entry a refund (cancelId now) (txLedger (db s)) = false →
     has_entry b refund (cancelId now) (txLedger (db s)) = false →
     let s1 := queueMatched mid a b st time inc rated true now0 s in
     let s2 := queueTimeout mid a b now s1 in
     balance (db s1) !! a = Some (ba - st)
     ∧ balance (db s1) !! b = Some (bb - st)
     ∧ balance (db s2) = balance (db s)
     ∧ matches (db s2) !! mid ≫= result = Some abort
     ∧ status <$> escrow (db s2) !! mid = Some refunded
     ∧ txLedger (db s2)
       = txLedger (db s)
         ++ [hold_entry a mid st; hold_entry b mid st;
             mkTx a refund st (Some (cancelId now));
             mkTx b refund st (Some (cancelId now))])
  ∧ (∀ s mid u o st time inc rated now bu,
       matches (db s) !! mid = None → escrow (db s) !! mid = None →
       0 < st → u ≠ "" →
       balance (db s) !! u = Some bu → st ≤ bu →
       has_entry u stake_hold mid (txLedger (db s)) = false →
       gid_free (cancelId now) (matches (db s)) →
       has_entry u refund (cancelId now) (txLedger (db s)) = false →
       let s1 := challengeCreate mid u o st time inc rated true true s in
       let s2 := challengeTimeout mid u o now s1 in
       balance (db s1) !! u = Some (bu - st)
       ∧ balance (db s2) = balance (db s)
       ∧ matches (db s2) !! mid ≫= result = Some abort
       ∧ status <$> escrow (db s2) !! mid = Some refunded
       ∧ txLedger (db s2)
         = txLedger (db s)
           ++ [hold_entry u mid st; mkTx u refund st (Some (cancelId now))]
       ∧ pendingChallenges s2 !! mid = None)
  ∧ (∀ s userId gid matchId m,
       pendingStakeByUser s !! userId = Some matchId →
       matchId ≠ "" → gid ≠ "" →
       matches (db s) !! matchId = Some m →
       gid_taken matchId gid (matches (db s)) = false →
       let s' := onGameStart userId gid s in
       (matches (db s') !! matchId ≫= lichessGameId = Some gid)
       ∧ pendingChallenges s' !! matchId
         = mark_started <$> pendingChallenges s !! matchId
       ∧ (∀ pc, pendingChallenges s !! matchId = Some pc →
            pendingChallenges s' !! matchId
            = Some (mkPending (pc_matchId pc) (aUserId pc) (bUserId pc)
                      (pc_stake pc) (pc_time pc) (pc_inc pc) (pc_rated pc)
                      true))
       ∧ ∀ u o now,
           challengeTimeout matchId u o now s' = s'
           ∧ queueTimeout matchId u o now s' = s').
Proof.
  split; [|split]; cycle 2.
  { intros s userId gid matchId m Hp Hm Hg Hmatch Hfree.
    destruct (timeout_after_start s userId gid matchId m Hp Hm Hg Hmatch Hfree)
      as (H1 & H2 & H3).
    cbv zeta. split; [exact H1|]. split; [exact H2|]. split; [|exact H3].
    intros pc Hpc. rewrite H2, Hpc. reflexivity. }
  - intros s mid a b st time inc rated now0 now ba bb Hm He Hst Hane Hbne Hab
      Hba Hlea Hbb Hleb Hha Hhb Hfree Hra Hrb. simpl.
    rewrite (queueMatched_run s mid st Hm He Hst a b time inc rated now0 ba bb)
      by done.
    destruct (queueTimeout_run s mid a b st ba bb now
                (<[b:=mid]> (<[a:=mid]> (pendingStakeByUser s)))
                (<[mid:=mkPending mid a b st time inc rated false]>
                   (pendingChallenges s)))
      as (H1 & H2 & H3 & H4 & _); try done.
    rewrite H1, H2, H3, H4. simpl.
    rewrite lookup_insert_eq. rewrite lookup_insert_ne by done.
    rewrite lookup_insert_eq. done.
  - intros s mid u o st time inc rated now bu Hm He Hst Hune Hbu Hle Hh Hfree
      Hr. simpl.
    rewrite (challengeCreate_run s mid st Hm He Hst u o time inc rated bu)
      by done.
    destruct (challengeTimeout_run s mid u o st bu now
                (<[o:=mid]> (<[u:=mid]> (pendingStakeByUser s)))
                (<[mid:=mkPending mid u o st time inc rated false]>
                   (pendingChallenges s))
                (mkPending mid u o st time inc rated false))
      as (H1 & H2 & H3 & H4 & _ & H6); try done.
    { apply lookup_insert_eq. }
    rewrite H1, H2, H3, H4, H6. simpl.
    rewrite !lookup_insert_eq, lookup_delete_eq. done.
Qed.

Lemma gid_free_empty gid : gid_free gid (∅ : gmap string Match).
Proof. intros j m H. by rewrite lookup_empty in H. Qed.

Lemma timeout_correctness_witness :
  (let s := mkServer ex_db0 ∅ ∅ in
   let s1 := queueMatched "m1" "A" "B" 20 3 0 false true 0%N s in
   let s2 := queueTimeout "m1" "A" "B" 1700000000000%N s1 in
   balance (db s1) !! "A" = Some (100 - 20)
   ∧ balance (db s2) = balance (db s)
   ∧ status <$> escrow (db s2) !! "m1" = Some refunded)
  ∧ (let s := mkServer ex_db0 ∅ ∅ in
     let s1 := challengeCreate "m1" "A" "B" 20 3 0 false true true s in
     let s2 := challengeTimeout "m1" "A" "B" 1700000000000%N s1 in
     balance (db s2) = balance (db s)
     ∧ matches (db s2) !! "m1" ≫= result = Some abort)
  ∧ (let s1 := queueMatched "m1" "A" "B" 20 3 0 false true 0%N
                 (mkServer ex_db0 ∅ ∅) in
     let s' := onGameStart "A" "g1" s1 in
     queueTimeout "m1" "A" "B" 1700000000000%N s' = s').
Proof.
  split; [|split].
  - destruct (proj1 timeout_correctness (mkServer ex_db0 ∅ ∅)
                "m1" "A" "B" 20 3 0 false 0%N 1700000000000%N 100 100)
      as (H1 & _ & H3 & _ & H5 & _);
      try (vm_compute; reflexivity); try done; try apply gid_free_empty.
  - destruct (proj1 (proj2 timeout_correctness) (mkServer ex_db0 ∅ ∅)
                "m1" "A" "B" 20 3 0 false 1700000000000%N 100)
      as (_ & H2 & H3 & _);
      try (vm_compute; reflexivity); try done; try apply gid_free_empty.
  - destruct (proj2 (proj2 timeout_correctness)
                (queueMatched "m1" "A" "B" 20 3 0 false true 0%N
                   (mkServer ex_db0 ∅ ∅))
                "A" "g1" "m1" (new_match 20))
      as (_ & _ & _ & H3); try (vm_compute; reflexivity); try done;
      apply (H3 "A" "B" 1700000000000%N).
Defined.

(** Four accounts with 100 CC each. *)
Definition ex_db4 : Db :=
  mkDb (ex_users ++ [mkUser "C" (Some "carol"); mkUser "D" (Some "dave")])
       {[ "A" := 100; "B" := 100; "C" := 100; "D" := 100 ]} [] ∅ ∅.

(** C7, on the failing input: two pairs matched by the queue, A with B on
    [m1] and C with D on [m2], each with a stake of 20; no start signal
    arrives, and the two timers fire within the same millisecond.  The
    first callback cancels [m1] under the game id [cancel-7] and refunds A
    and B.  The second callback builds the same id for [m2]: the write of
    the match row is refused by the unique index on the game id,
    [resolveMatch] throws, the callback only logs, and it changes nothing.
    C and D stay debited, the escrow of [m2] stays held, the match has no
    result and both stay registered as pending; the timer has fired and
    will not fire again. *)
Theorem timeout_same_clock_not_refunded :
  let s0 := mkServer ex_db4 ∅ ∅ in
  let s1 := queueMatched "m1" "A" "B" 20 3 0 false true 0%N s0 in
  let s2 := queueMatched "m2" "C" "D" 20 3 0 false true 0%N s1 in
  let s3 := queueTimeout "m1" "A" "B" 7%N s2 in
  let s4 := queueTimeout "m2" "C" "D" 7%N s3 in
  matches (db s2) !! "m1" ≫= lichessGameId = None
  ∧ matches (db s2) !! "m2" ≫= lichessGameId = None
  ∧ balance (db s3) !! "A" = Some 100
  ∧ balance (db s3) !! "B" = Some 100
  ∧ status <$> escrow (db s3) !! "m1" = Some refunded
  ∧ (resolveMatch (mkResolveArgs "m2" (cancelId 7) abort None (Some "C")
                                 (Some "D")) (db s3)).1
    = inl UniqueConstraint
  ∧ s4 = s3
  ∧ balance (db s4) !! "C" = Some 80
  ∧ balance (db s4) !! "D" = Some 80
  ∧ escrow (db s4) !! "m2" = Some (mkEscrow 20 20 held)
  ∧ matches (db s4) !! "m2" ≫= result = None
  ∧ pendingStakeByUser s4 !! "C" = Some "m2"
  ∧ pendingStakeByUser s4 !! "D" = Some "m2".
Proof. vm_compute. repeat split; reflexivity. Qed.

(** ** The finish signal *)

Lemma match_findByGid_Some gid (ms : gmap string Match) id m :
  match_findByGid gid ms = Some (id, m) →
  ms !! id = Some m ∧ lichessGameId m = Some gid.
Proof.
  unfold match_findByGid. intros H. apply find_some in H as [Hin Hp].
  apply list_elem_of_In, elem_of_map_to_list in Hin.
  by apply bool_decide_eq_true_1 in Hp.
Qed.









(** What the finish handler reads from the summary and the user table. *)
Definition finish_color (userId : string) (sum : Summary) (d : Db)
    : option bool :=
  detectColor (user_findUnique userId d) sum.



(** A summary of a finished game: Alice (account A) had white against bob
    (account B) and white won. *)
Definition ex_sum_white_wins : Summary :=
  mkSummary (Some (mkPlayer (Some "alice") None, mkPlayer (Some "Bob") None))
            (Some white) (Some "mate").

(** The same game aborted: no winner. *)
Definition ex_sum_aborted : Summary :=
  mkSummary (Some (mkPlayer (Some "alice") None, mkPlayer (Some "Bob") None))
            None (Some "aborted").



(** ** The staked scenario *)

(** Called directly with the winner and both sides, [resolveMatch] settles
    the scenario as the documentation of the function says: A at 120, B at
    80, escrow resolved, one gain entry for A, one zero release for B. *)
Lemma resolveMatch_win_direct :
  let r := resolveMatch
             (mkResolveArgs "m1" "g1" W (Some "A") (Some "A") (Some "B"))
             ex_held in
  r.1 = inr tt
  ∧ balance r.2 !! "A" = Some 120 ∧ balance r.2 !! "B" = Some 80
  ∧ status <$> escrow r.2 !! "m1" = Some resolved
  ∧ filter (λ x, tx_type x = gain) (txLedger r.2)
    = [mkTx "A" gain 20 (Some "g1")]
  ∧ filter (λ x, tx_type x = stake_release) (txLedger r.2)
    = [mkTx "B" stake_release 0 (Some "g1")].
Proof. vm_compute. repeat split; reflexivity. Qed.

(** Through the finish handler no staked match with a determinate result
    (W, L or D) is ever settled: the upsert writes the result on the match
    row, and [resolveMatch] then returns at its guard on a recorded result.
    Balances, ledger and escrow are what they were. *)
Lemma onGameFinish_staked_result_not_settled s userId gid sum newId id m r :
  gid ≠ "" →
  match_findByGid gid (matches (db s)) = Some (id, m) →
  0 < stakeCC m →
  finishResult sum (finish_color userId sum (db s)) = Some r →
  let s' := onGameFinish userId gid sum newId s in
  balance (db s') = balance (db s)
  ∧ txLedger (db s') = txLedger (db s)
  ∧ escrow (db s') = escrow (db s)
  ∧ matches (db s') !! id ≫= result = Some r.
Proof.
  intros Hg Hfind Hst Hres. simpl. unfold onGameFinish.
  assert (truthy (Some gid) = true) as ->.
  { unfold truthy. by destruct (String.eqb_spec gid ""). }
  fold (finish_color userId sum (db s)). rewrite Hres.
  unfold match_upsert. rewrite Hfind. simpl.
  assert ((0 <? stakeCC m) = true) as -> by (by apply Z.ltb_lt).
  set (args := mkResolveArgs _ _ _ _ _ _).
  set (d1 := set_matches _ (db s)).
  rewrite (resolveMatch_already_resolved args d1
             (mkMatch (lichessGameId m) (whiteId m) (blackId m) (stakeCC m)
                      (Some r))); [| apply lookup_insert_eq | simpl; eauto].
  match goal with
  | |- context [if ?c then set_pendingStake _ ?x else ?x] => destruct c
  end; simpl; by rewrite lookup_insert_eq.
Qed.

(** The server after A and B (100 CC each) were paired by the queue with a
    stake of 20 and the game [g1] has started on both streams. *)
Definition ex_started : Server :=
  onGameStart "B" "g1"
    (onGameStart "A" "g1"
       (queueMatched "m1" "A" "B" 20 3 0 false true 0%N
          (mkServer ex_db0 ∅ ∅))).

(** C2, on the failing input: A and B entered a wager of 20 each through
    the queue, the game started, and the finish signal reports that A won.
    The upsert of the handler records the result W on the match before
    [resolveMatch] runs, so [resolveMatch] takes the match for resolved and
    returns at once: A and B stay at 80, the escrow stays held, and there
    is no gain entry and no release entry.  The finish signal of the loser
    moves no credit either. *)
Theorem finish_signal_win_not_settled :
  let s3 := onGameFinish "A" "g1" ex_sum_white_wins "m2" ex_started in
  let s4 := onGameFinish "B" "g1" ex_sum_white_wins "m3" s3 in
  finishResult ex_sum_white_wins
    (finish_color "A" ex_sum_white_wins (db ex_started)) = Some W
  ∧ balance (db ex_started) !! "A" = Some 80
  ∧ balance (db ex_started) !! "B" = Some 80
  ∧ escrow (db ex_started) !! "m1" = Some (mkEscrow 20 20 held)
  ∧ matches (db s3) !! "m1" ≫= result = Some W
  ∧ balance (db s3) !! "A" = Some 80
  ∧ balance (db s3) !! "B" = Some 80
  ∧ escrow (db s3) !! "m1" = Some (mkEscrow 20 20 held)
  ∧ count_entries "A" gain (txLedger (db s3)) = 0%nat
  ∧ count_entries "B" stake_release (txLedger (db s3)) = 0%nat
  ∧ balance (db s4) = balance (db s3)
  ∧ escrow (db s4) = escrow (db s3)
  ∧ txLedger (db s4) = txLedger (db s3).
Proof. vm_compute. repeat split; reflexivity. Qed.

(** The game of [ex_started] ended in a draw. *)
Definition ex_sum_draw : Summary :=
  mkSummary (Some (mkPlayer (Some "alice") None, mkPlayer (Some "Bob") None))
            None (Some "draw").

(** C4, on the failing inputs.  (1) The draw scenario: A and B entered a
    wager of 20 each through the queue, the game started, and the finish
    signal reports a draw on both streams.  The upsert of the handler
    records the result D before [resolveMatch] runs, which then returns at
    its guard on a recorded result: both balances stay at 80, the escrow
    stays held with both holds, and no refund entry is written.  (2)
    [resolveMatch] itself, with outcome abort and no side identified, on
    the two holds of 20: the call returns normally and sets the escrow to
    refunded, yet no refund entry is written and both balances stay at
    80.  Neither run refunds a hold. *)
Theorem draw_abort_holds_not_refunded :
  (let s3 := onGameFinish "A" "g1" ex_sum_draw "m2" ex_started in
   let s4 := onGameFinish "B" "g1" ex_sum_draw "m3" s3 in
   finishResult ex_sum_draw (finish_color "A" ex_sum_draw (db ex_started))
     = Some D
   ∧ balance (db ex_started) !! "A" = Some 80
   ∧ balance (db ex_started) !! "B" = Some 80
   ∧ escrow (db ex_started) !! "m1" = Some (mkEscrow 20 20 held)
   ∧ matches (db s4) !! "m1" ≫= result = Some D
   ∧ balance (db s4) !! "A" = Some 80
   ∧ balance (db s4) !! "B" = Some 80
   ∧ escrow (db s4) !! "m1" = Some (mkEscrow 20 20 held)
   ∧ count_entries "A" refund (txLedger (db s4)) = 0%nat
   ∧ count_entries "B" refund (txLedger (db s4)) = 0%nat)
  ∧ (let r := resolveMatch (mkResolveArgs "m1" "g1" abort None None None)
                ex_held in
     escrow ex_held !! "m1" = Some (mkEscrow 20 20 held)
     ∧ r.1 = inr tt
     ∧ escrow r.2 !! "m1" = Some (mkEscrow 20 20 refunded)
     ∧ balance r.2 !! "A" = Some 80
     ∧ balance r.2 !! "B" = Some 80
     ∧ count_entries "A" refund (txLedger r.2) = 0%nat
     ∧ count_entries "B" refund (txLedger r.2) = 0%nat).
Proof. vm_compute. repeat split; reflexivity. Qed.

(** ** Conservation *)

Section MapSum.
Context {V : Type} (f : V → Z).

Lemma map_sum_insert_None (m : gmap string V) i x :
  m !! i = None → map_sum f (<[i:=x]> m) = f x + map_sum f m.
Proof.
  intros H. unfold map_sum. rewrite map_fold_insert_L; [done| |done].
  intros. lia.
Qed.

Lemma map_sum_delete (m : gmap string V) i x :
  m !! i = Some x → map_sum f m = f x + map_sum f (delete i m).
Proof.
  intros H. unfold map_sum. rewrite (map_fold_delete_L _ _ i x m); [done| |done].
  intros. lia.
Qed.

Lemma map_sum_insert_Some (m : gmap string V) i x y :
  m !! i = Some x → map_sum f (<[i:=y]> m) = map_sum f m - f x + f y.
Proof.
  intros H. rewrite <- insert_delete_eq.
  rewrite map_sum_insert_None by apply lookup_delete_eq.
  rewrite (map_sum_delete m i x H). lia.
Qed.
End MapSum.

Lemma side_hold_sum c st : side_hold c white st + side_hold c black st = st.
Proof. by destruct c; unfold side_hold; simpl; lia. Qed.

(** A hold that goes through conserves the total credit, provided the
    account has no hold entry for this match yet and the escrow of the match
    is absent or still held. *)
Lemma holdStake_conserves args d d' :
  holdStake args d = (inr tt, d') →
  has_entry (whoUserId args) stake_hold (h_matchId args) (txLedger d) = false →
  (∀ e, escrow d !! h_matchId args = Some e → status e = held) →
  total_credit d' = total_credit d.
Proof.
  destruct args as [mid u c st]. simpl. intros Hok Hn Hheld.
  destruct (Z.leb_spec st 0) as [Hs|Hs].
  { unfold holdStake in Hok. simpl in Hok.
    destruct (Z.leb_spec st 0); [|lia]. by injection Hok as <-. }
  destruct (balance d !! u) as [bu|] eqn:Hb; cycle 1.
  { unfold holdStake, transaction, holdStake_body in Hok. simpl in Hok.
    destruct (Z.leb_spec st 0); [lia|].
    unfold bind at 1 in Hok. unfold balance_findUnique in Hok.
    by rewrite Hb in Hok. }
  destruct (Z.lt_ge_cases bu st) as [Hlt|Hge].
  { unfold holdStake, transaction, holdStake_body in Hok. simpl in Hok.
    destruct (Z.leb_spec st 0); [lia|].
    unfold bind at 1 in Hok. unfold balance_findUnique in Hok.
    rewrite Hb in Hok. by destruct (Z.ltb_spec bu st); [|lia]. }
  rewrite (holdStake_debit mid u c st d bu Hs Hb Hge Hn) in Hok.
  unfold total_credit, sum_balances, sum_held.
  destruct (escrow d !! mid) as [e|] eqn:He.
  - unfold escrow_update in Hok. simpl in Hok. rewrite He in Hok.
    injection Hok as <-. simpl.
    rewrite (map_sum_insert_Some _ _ _ bu) by done.
    rewrite (map_sum_insert_Some _ _ _ e) by done.
    unfold held_amount. simpl. rewrite (Hheld e eq_refl). simpl.
    pose proof (side_hold_sum c st). lia.
  - unfold escrow_create in Hok. simpl in Hok. rewrite He in Hok.
    destruct (matches d !! mid); [|done].
    injection Hok as <-. simpl.
    rewrite (map_sum_insert_Some _ _ _ bu) by done.
    rewrite map_sum_insert_None by done.
    unfold held_amount. simpl.
    pose proof (side_hold_sum c st). lia.
Qed.

(** A draw or an abort with both sides identified conserves the total
    credit when the escrow was held: what leaves the escrow reaches the two
    balances. *)
Lemma resolveMatch_draw_abort_conserves args d m e a b ba bb :
  r_result args = D ∨ r_result args = abort →
  matches d !! r_matchId args = Some m →
  result m = None →
  gid_taken (r_matchId args) (r_lichessGameId args) (matches d) = false →
  escrow d !! r_matchId args = Some e →
  status e = held →
  0 ≤ whiteHold e → 0 ≤ blackHold e →
  ¬ (whiteHold e = 0 ∧ blackHold e = 0) →
  whiteUserId args = Some a → blackUserId args = Some b →
  a ≠ "" → b ≠ "" → a ≠ b →
  balance d !! a = Some ba → balance d !! b = Some bb →
  has_entry a refund (r_lichessGameId args) (txLedger d) = false →
  has_entry b refund (r_lichessGameId args) (txLedger d) = false →
  (resolveMatch args d).1 = inr tt
  ∧ total_credit (resolveMatch args d).2 = total_credit d.
Proof.
  intros Hres Hm Hr Hg He Hheld Hw Hb Hz Ha Hbk Hane Hbne Hab Hba Hbb Hna Hnb.
  unfold resolveMatch, transaction.
  rewrite (resolveMatch_body_unfold _ _ _ Hm Hr Hg). simpl.
  rewrite He. simpl. rewrite (holds_not_both_zero _ Hz).
  set (d0 := set_matches _ d).
  assert (Hrun := refund_both_run (r_matchId args) (r_lichessGameId args)
                    e a b ba bb d0 Hane Hbne Hab Hw Hb He Hba Hbb Hna Hnb).
  rewrite Ha, Hbk. simpl. simpl in Hrun.
  assert (∀ (c : Tx unit) d1,
            c d0 = inr (tt, d1) →
            (match c d0 with
             | inl e0 => (inl e0, d)
             | inr (x, db') => (inr x, db')
             end).1 = inr tt
            ∧ total_credit
                (match c d0 with
                 | inl e0 => (inl e0, d)
                 | inr (x, db') => (inr x, db')
                 end).2 = total_credit d1) as Hc.
  { intros c d1 ->. done. }
  assert (total_credit
            (set_escrow (insert (r_matchId args) (with_status refunded e))
               (set_balance (insert b (bb + blackHold e))
                  (set_txLedger
                     (λ l, l ++ refund_entry b (blackHold e)
                                  (r_lichessGameId args))
                     (set_balance (insert a (ba + whiteHold e))
                        (set_txLedger
                           (λ l, l ++ refund_entry a (whiteHold e)
                                        (r_lichessGameId args)) d0)))))
          = total_credit d) as Htot.
  { unfold total_credit, sum_balances, sum_held. simpl.
    rewrite (map_sum_insert_Some _ _ _ bb)
      by (by rewrite lookup_insert_ne).
    rewrite (map_sum_insert_Some _ _ _ ba) by done.
    rewrite (map_sum_insert_Some _ _ _ e) by done.
    unfold held_amount. simpl. rewrite Hheld. simpl. lia. }
  destruct Hres as [-> | ->];
    (destruct (Hc _ _ Hrun) as [H1 H2]; split; [exact H1|];
     rewrite H2; exact Htot).
Qed.

(** C1, on the failing input: A (100 CC, B has 100 as well) holds 20 on
    [m1], then the wager is resolved as abort with no side identified.
    [total_credit] is 200 before and after the hold and 180 after the
    resolution: the escrow is marked refunded without any refund, so 20 CC
    are destroyed. *)
Theorem conservation_broken_by_abort :
  let d1 := (holdStake (mkHoldArgs "m1" "A" white 20) ex_db).2 in
  let r := resolveMatch (mkResolveArgs "m1" "g1" abort None None None) d1 in
  total_credit ex_db = 200
  ∧ total_credit d1 = 200
  ∧ r.1 = inr tt
  ∧ total_credit r.2 = 180.
Proof. vm_compute. repeat split; reflexivity. Qed.

(** The same loss through the handlers: a direct challenge of A against B
    with stake 20, the game starts and is aborted; the finish handler
    resolves the match as abort with the sides of the match row, which are
    null. *)
Lemma conservation_broken_by_aborted_game :
  let s0 := mkServer ex_db0 ∅ ∅ in
  let s1 := challengeCreate "m1" "A" "B" 20 3 0 false true true s0 in
  let s2 := onGameStart "A" "g1" s1 in
  let s3 := onGameFinish "A" "g1" ex_sum_aborted "m2" s2 in
  total_credit (db s0) = 200
  ∧ total_credit (db s2) = 200
  ∧ balance (db s3) !! "A" = Some 80
  ∧ escrow (db s3) !! "m1" = Some (mkEscrow 20 0 refunded)
  ∧ total_credit (db s3) = 180.
Proof. vm_compute. repeat split; reflexivity. Qed.

(** ** A decisive result, resolved directly *)

(** The entry of a guarded credit: nothing for an amount that is not
    positive. *)
Definition credit_entry (u : string) (t : TxType) (amount : Z) (gid : string)
    : list TxLedger :=
  if 0 <? amount then [mkTx u t amount (Some gid)] else [].

Lemma credit_step u t amount gid d bu :
  0 ≤ amount →
  balance d !! u = Some bu →
  has_entry u t gid (txLedger d) = false →
  when (0 <? amount) (ensureTx u t amount (Some gid) ;;; ret tt) d
  = inr (tt, set_balance (insert u (bu + amount))
               (set_txLedger (λ l, l ++ credit_entry u t amount gid) d)).
Proof.
  intros Hh Hb Hn. unfold credit_entry.
  destruct (Z.ltb_spec 0 amount) as [Hp|Hp]; simpl.
  - unfold bind. by rewrite (ensureTx_fresh _ _ _ _ _ _ Hb Hn).
  - assert (amount = 0) as -> by lia. unfold ret. f_equal. f_equal.
    rewrite Z.add_0_r. destruct d; unfold set_balance, set_txLedger; simpl in *.
    by rewrite insert_id, app_nil_r.
Qed.

Lemma has_entry_credit_other u t gid l u' t' amount :
  ¬ (u' = u ∧ t' = t) →
  has_entry u t gid (l ++ credit_entry u' t' amount gid) = has_entry u t gid l.
Proof.
  intros H. unfold credit_entry. destruct (0 <? amount).
  - apply has_entry_app_other. tauto.
  - by rewrite app_nil_r.
Qed.

(** With the winner [w] and the loser [l] identified as the two sides,
    [ws] the hold of the winner's side and [ls] the hold of the loser's
    side, [resolveMatch] with outcome W gives the winner both holds (the own
    one as a refund, the other one as a gain), writes a zero release for the
    loser, sets the escrow to resolved, and conserves the total credit when
    the escrow was held. *)
Lemma resolveMatch_win_settles args d m e w l ws ls bw bl :
  r_result args = W →
  winnerUserId args = Some w →
  (whiteUserId args = Some w ∧ blackUserId args = Some l
   ∧ ws = whiteHold e ∧ ls = blackHold e)
  ∨ (whiteUserId args = Some l ∧ blackUserId args = Some w
     ∧ ws = blackHold e ∧ ls = whiteHold e) →
  w ≠ "" → l ≠ "" → w ≠ l →
  matches d !! r_matchId args = Some m →
  result m = None →
  gid_taken (r_matchId args) (r_lichessGameId args) (matches d) = false →
  escrow d !! r_matchId args = Some e →
  0 ≤ whiteHold e → 0 ≤ blackHold e →
  ¬ (whiteHold e = 0 ∧ blackHold e = 0) →
  balance d !! w = Some bw → balance d !! l = Some bl →
  has_entry w refund (r_lichessGameId args) (txLedger d) = false →
  has_entry w gain (r_lichessGameId args) (txLedger d) = false →
  has_entry l stake_release (r_lichessGameId args) (txLedger d) = false →
  ∃ d', resolveMatch args d = (inr tt, d')
        ∧ balance d' !! w = Some (bw + ws + ls)
        ∧ balance d' !! l = Some bl
        ∧ escrow d' !! r_matchId args = Some (with_status resolved e)
        ∧ txLedger d'
          = txLedger d
            ++ credit_entry w refund ws (r_lichessGameId args)
            ++ credit_entry w gain ls (r_lichessGameId args)
            ++ [mkTx l stake_release 0 (Some (r_lichessGameId args))]
        ∧ (status e = held → total_credit d' = total_credit d).
Proof.
  intros HW Hwin Hsides Hwne Hlne Hwl Hm Hr Hg He Hwh Hbh Hz Hbw Hbl
    Hn1 Hn2 Hn3.
  unfold resolveMatch, transaction.
  rewrite (resolveMatch_body_unfold _ _ _ Hm Hr Hg). simpl.
  rewrite He, HW, Hwin. simpl. rewrite (holds_not_both_zero _ Hz).
  assert (negb (w =? "")%string = true) as ->.
  { by destruct (String.eqb_spec w ""). }
  simpl. set (gid := r_lichessGameId args). set (d0 := set_matches _ d).
  assert (0 ≤ ws ∧ 0 ≤ ls ∧ ws + ls = whiteHold e + blackHold e) as (H0w & H0l & Hsum).
  { destruct Hsides as [(_ & _ & -> & ->)|(_ & _ & -> & ->)]; lia. }
  assert (bind (when (0 <? ws) (ensureTx w refund ws (Some gid) ;;; ret tt))
            (λ _,
               when (0 <? ls) (ensureTx w gain ls (Some gid) ;;; ret tt) ;;;
               when (truthy (Some l))
                 (ensureTx l stake_release 0 (Some gid) ;;; ret tt) ;;;
               escrow_update (r_matchId args) (with_status resolved)) d0
          = inr (tt,
                 set_escrow (insert (r_matchId args) (with_status resolved e))
                   (set_balance (insert l (bl + 0))
                      (set_txLedger
                         (λ x, x ++ [mkTx l stake_release 0 (Some gid)])
                         (set_balance (insert w (bw + ws + ls))
                            (set_txLedger (λ x, x ++ credit_entry w gain ls gid)
                               (set_balance (insert w (bw + ws))
                                  (set_txLedger
                                     (λ x, x ++ credit_entry w refund ws gid)
                                     d0)))))))) as Hrun.
  { unfold bind at 1. rewrite (credit_step w refund ws gid d0 bw) by done.
    unfold bind at 1.
    rewrite (credit_step w gain ls gid _ (bw + ws)); try done; cycle 1.
    { apply lookup_insert_eq. }
    { simpl. rewrite has_entry_credit_other; [done|]. intros [_ ?]; done. }
    unfold bind at 1. unfold truthy.
    destruct (String.eqb_spec l ""); [done|]. simpl. unfold bind at 1.
    rewrite (ensureTx_fresh l stake_release 0 gid _ bl); cycle 1.
    { simpl. by rewrite !lookup_insert_ne. }
    { simpl. rewrite !has_entry_credit_other; [done| |]; intros [? _]; done. }
    unfold escrow_update. simpl. by rewrite He. }
  assert (∀ side,
            (side = whiteUserId args ∨ side = blackUserId args) →
            (if bool_decide (Some w = whiteUserId args)
             then whiteHold e else blackHold e) = ws
            ∧ (if bool_decide (Some w = whiteUserId args)
               then blackHold e else whiteHold e) = ls
            ∧ (if bool_decide (Some w = whiteUserId args)
               then blackUserId args else whiteUserId args) = Some l)
    as Hpick.
  { intros _ _. destruct Hsides as [(-> & -> & -> & ->)|(-> & -> & -> & ->)].
    - by rewrite bool_decide_eq_true_2.
    - rewrite bool_decide_eq_false_2; [done|]. congruence. }
  destruct (Hpick (whiteUserId args) (or_introl eq_refl)) as (-> & -> & ->).
  change (the (Some l)) with l.
  rewrite Hrun. eexists. split; [reflexivity|]. simpl.
  repeat split.
  - rewrite lookup_insert_ne by done. apply lookup_insert_eq.
  - rewrite Z.add_0_r. apply lookup_insert_eq.
  - apply lookup_insert_eq.
  - by rewrite <- !app_assoc.
  - intros Hheld. unfold total_credit, sum_balances, sum_held. simpl.
    rewrite (map_sum_insert_Some _ _ _ bl)
      by (by rewrite !lookup_insert_ne).
    rewrite (map_sum_insert_Some _ _ _ (bw + ws)) by apply lookup_insert_eq.
    rewrite (map_sum_insert_Some _ _ _ bw) by done.
    rewrite (map_sum_insert_Some _ _ _ e) by done.
    unfold held_amount. simpl. rewrite Hheld. simpl. lia.
Qed.

(** A second hold of the same account on the same match is not debited
    (the ledger key exists) but still raises the hold of the escrow: 20 CC
    are created. *)
Lemma conservation_broken_by_double_hold :
  let d1 := (holdStake (mkHoldArgs "m1" "A" white 20) ex_db).2 in
  let r := holdStake (mkHoldArgs "m1" "A" white 20) d1 in
  total_credit d1 = 200
  ∧ r.1 = inr tt
  ∧ balance r.2 !! "A" = Some 80
  ∧ escrow r.2 !! "m1" = Some (mkEscrow 40 0 held)
  ∧ total_credit r.2 = 220.
Proof. vm_compute. repeat split; reflexivity. Qed.

(** * Further properties of the wallet and of the handlers *)

(** ** [resolveMatch]: missing match, match without stake *)

(** [resolveMatch] on an unknown match throws MATCH_NOT_FOUND and writes
    nothing; on a match without recorded result that has no escrow row, or
    an escrow row whose two holds are zero, it is pure bookkeeping whatever
    the outcome and the winner are: the match row gets the game id and the
    result, and ledger, balances and escrow stay as they are. *)
Theorem resolveMatch_without_stake args d :
  (matches d !! r_matchId args = None →
   resolveMatch args d = (inl MATCH_NOT_FOUND, d))
  ∧ (∀ m,
       matches d !! r_matchId args = Some m →
       result m = None →
       gid_taken (r_matchId args) (r_lichessGameId args) (matches d) = false →
       (escrow d !! r_matchId args = None
        ∨ ∃ e, escrow d !! r_matchId args = Some e
               ∧ whiteHold e = 0 ∧ blackHold e = 0) →
       resolveMatch args d
       = (inr tt,
          set_matches
            (insert (r_matchId args)
               (linked (r_lichessGameId args) (r_result args) m)) d)).
Proof.
  split.
  - intros Hm. unfold resolveMatch, transaction, resolveMatch_body.
    unfold bind at 1. unfold match_findUnique. by rewrite Hm.
  - intros m Hm Hr Hg Hesc. unfold resolveMatch, transaction.
    rewrite (resolveMatch_body_unfold _ _ _ Hm Hr Hg). simpl.
    destruct Hesc as [-> | (e & -> & Hw & Hb)]; simpl; [done|].
    by rewrite Hw, Hb.
Qed.

Lemma resolveMatch_without_stake_witness :
  resolveMatch (mkResolveArgs "zz" "g1" D None None None) ex_db
  = (inl MATCH_NOT_FOUND, ex_db)
  ∧ resolveMatch (mkResolveArgs "m1" "g1" D None (Some "A") (Some "B")) ex_db
    = (inr tt,
       set_matches
         (insert "m1" (linked "g1" D (mkMatch None None None 20 None))) ex_db).
Proof.
  split.
  - apply (proj1 (resolveMatch_without_stake
                    (mkResolveArgs "zz" "g1" D None None None) ex_db)).
    vm_compute. reflexivity.
  - apply (proj2 (resolveMatch_without_stake
                    (mkResolveArgs "m1" "g1" D None (Some "A") (Some "B"))
                    ex_db) (mkMatch None None None 20 None));
      try (vm_compute; reflexivity).
    left. vm_compute. reflexivity.
Defined.

(** ** [holdStake]: a repeated hold *)

(** A hold by an account that already has a hold entry for the match (the
    match id being a non-empty string) is not debited again: [ensureTx]
    returns the existing entry.  The balance and the ledger stay as they
    are, yet the hold of the escrow row is raised by the stake once more. *)
Theorem holdStake_repeated_not_debited mid u c st d bu e0 e :
  mid ≠ "" →
  0 < st →
  balance d !! u = Some bu → st ≤ bu →
  List.find (same_key u stake_hold mid) (txLedger d) = Some e0 →
  escrow d !! mid = Some e →
  holdStake (mkHoldArgs mid u c st) d
  = (inr tt,
     set_escrow
       (insert mid (with_holds (whiteHold e + side_hold c white st)
                               (blackHold e + side_hold c black st) e)) d).
Proof.
  intros Hmid Hst Hb Hle Hf He. unfold holdStake. simpl.
  destruct (Z.leb_spec st 0); [lia|].
  unfold transaction, holdStake_body. simpl. unfold bind at 1.
  unfold balance_findUnique. rewrite Hb.
  destruct (Z.ltb_spec bu st); [lia|].
  unfold bind at 1. rewrite (ensureTx_existing _ _ _ _ _ _ Hmid Hf).
  unfold bind, escrow_findUnique, escrow_update. rewrite He. simpl.
  by rewrite He.
Qed.

Lemma holdStake_repeated_not_debited_witness :
  let d1 := (holdStake (mkHoldArgs "m1" "A" white 20) ex_db).2 in
  holdStake (mkHoldArgs "m1" "A" white 20) d1
  = (inr tt, set_escrow (insert "m1" (mkEscrow 40 0 held)) d1).
Proof.
  apply (holdStake_repeated_not_debited "m1" "A" white 20 _ 80
           (hold_entry "A" "m1" 20) (mkEscrow 20 0 held)).
  - discriminate.
  - lia.
  - vm_compute. reflexivity.
  - lia.
  - vm_compute. reflexivity.
  - vm_compute. reflexivity.
Defined.

(** ** What no step ever does *)

(** Every ledger entry of [d] is in [d'], at its place: [d'] only has
    entries appended. *)
Definition ledger_extends (d d' : Db) : Prop :=
  ∃ l, txLedger d' = txLedger d ++ l.

(** No balance is negative. *)
Definition nonneg_balances (d : Db) : Prop :=
  ∀ u b, balance d !! u = Some b → 0 ≤ b.

(** Every balance row is still there and has not gone down. *)
Definition balances_grow (d d' : Db) : Prop :=
  ∀ u b, balance d !! u = Some b → ∃ b', balance d' !! u = Some b' ∧ b ≤ b'.

(** An escrow that is no longer held belongs to a match with a recorded
    result. *)
Definition settled_has_result (d : Db) : Prop :=
  ∀ id e, escrow d !! id = Some e → status e ≠ held →
          ∃ m, matches d !! id = Some m ∧ is_Some (result m).

(** Every escrow row is still there, and a row that was settled has the
    status it had. *)
Definition settled_kept (d d' : Db) : Prop :=
  ∀ id e, escrow d !! id = Some e →
          ∃ e', escrow d' !! id = Some e'
                ∧ (status e ≠ held → status e' = status e).

(** What every step of the engine guarantees. *)
Definition step_ok (d d' : Db) : Prop :=
  ledger_extends d d'
  ∧ (nonneg_balances d → nonneg_balances d')
  ∧ (settled_has_result d → settled_has_result d' ∧ settled_kept d d').

#[global] Instance ledger_extends_refl : Reflexive ledger_extends.
Proof. intros d. exists []. by rewrite app_nil_r. Qed.

#[global] Instance ledger_extends_trans : Transitive ledger_extends.
Proof.
  intros d1 d2 d3 [l1 H1] [l2 H2]. exists (l1 ++ l2).
  by rewrite H2, H1, app_assoc.
Qed.

#[global] Instance balances_grow_refl : Reflexive balances_grow.
Proof. intros d u b H. eauto with lia. Qed.

#[global] Instance balances_grow_trans : Transitive balances_grow.
Proof.
  intros d1 d2 d3 H1 H2 u b Hb.
  destruct (H1 u b Hb) as (b' & Hb' & ?).
  destruct (H2 u b' Hb') as (b'' & Hb'' & ?). eauto with lia.
Qed.

#[global] Instance settled_kept_refl : Reflexive settled_kept.
Proof. intros d id e H. eauto. Qed.

#[global] Instance settled_kept_trans : Transitive settled_kept.
Proof.
  intros d1 d2 d3 H1 H2 id e He.
  destruct (H1 id e He) as (e' & He' & Hs').
  destruct (H2 id e' He') as (e'' & He'' & Hs'').
  exists e''. split; [done|]. intros Hne.
  rewrite <- (Hs' Hne). apply Hs''. by rewrite (Hs' Hne).
Qed.

#[global] Instance step_ok_refl : Reflexive step_ok.
Proof. intros d. repeat split; try done. Qed.

#[global] Instance step_ok_trans : Transitive step_ok.
Proof.
  intros d1 d2 d3 (L1 & N1 & S1) (L2 & N2 & S2). split; [|split].
  - by transitivity d2.
  - auto.
  - intros H. destruct (S1 H) as [I2 K1]. destruct (S2 I2) as [I3 K2].
    split; [done|]. by transitivity d2.
Qed.

Lemma balances_grow_nonneg d d' :
  balances_grow d d' →
  (∀ u, is_Some (balance d' !! u) → is_Some (balance d !! u)) →
  nonneg_balances d → nonneg_balances d'.
Proof.
  intros Hg Hdom Hn u b' Hb'.
  destruct (Hdom u (ex_intro _ b' Hb')) as [b Hb].
  destruct (Hg u b Hb) as (b'' & Hb'' & ?).
  rewrite Hb' in Hb''. injection Hb'' as <-. specialize (Hn u b Hb). lia.
Qed.

(** *** Computations of a transaction *)

Section Respects.
Context (R : Db → Db → Prop) `{!Reflexive R} `{!Transitive R}.

Definition respects {A} (c : Tx A) : Prop :=
  ∀ d a d', c d = inr (a, d') → R d d'.

Lemma respects_ret {A} (a : A) : respects (ret a).
Proof. intros d a' d' [= _ <-]. reflexivity. Qed.

Lemma respects_read {A} (f : Db → A) : respects (λ d, inr (f d, d)).
Proof. intros d a' d' [= _ <-]. reflexivity. Qed.

Lemma respects_throw {A} e : respects (@throw A e).
Proof. intros d a' d'. discriminate. Qed.

Lemma respects_bind {A C} (c : Tx A) (k : A → Tx C) :
  respects c → (∀ a, respects (k a)) → respects (bind c k).
Proof.
  intros Hc Hk d a d'. unfold bind.
  destruct (c d) as [e|[x d1]] eqn:E; [done|].
  intros H. transitivity d1; [by apply (Hc _ _ _ E) | by apply (Hk x _ _ _ H)].
Qed.

Lemma respects_when b c : (b = true → respects c) → respects (when b c).
Proof. destruct b; [auto | intros _; apply respects_ret]. Qed.

Lemma respects_transaction {A} (c : Tx A) d :
  respects c → R d (transaction c d).2.
Proof.
  intros Hc. unfold transaction.
  destruct (c d) as [e|[x d1]] eqn:E; simpl; [reflexivity|].
  by apply (Hc _ _ _ E).
Qed.
End Respects.

(** Ledger and sign of the balances together. *)
Definition ledger_nonneg (d d' : Db) : Prop :=
  ledger_extends d d' ∧ (nonneg_balances d → nonneg_balances d').

#[global] Instance ledger_nonneg_refl : Reflexive ledger_nonneg.
Proof. intros d. split; [reflexivity | done]. Qed.

#[global] Instance ledger_nonneg_trans : Transitive ledger_nonneg.
Proof.
  intros d1 d2 d3 [L1 N1] [L2 N2]. split; [by transitivity d2 | auto].
Qed.

Lemma ledger_nonneg_same d d' :
  txLedger d' = txLedger d → balance d' = balance d → ledger_nonneg d d'.
Proof.
  intros Hl Hb. split.
  - exists []. by rewrite app_nil_r.
  - unfold nonneg_balances. by rewrite Hb.
Qed.

(** What [ensureTx] can do to the database: nothing, or one entry appended
    and the amount added to the balance of the account. *)
Lemma ensureTx_inv u t a r d e d' :
  ensureTx u t a r d = inr (e, d') →
  d' = d
  ∨ ∃ b, balance d !! u = Some b
         ∧ d' = set_balance (insert u (b + a))
                  (set_txLedger (λ l, l ++ [mkTx u t a r]) d).
Proof.
  unfold ensureTx, bind.
  destruct (match r with
            | Some r0 =>
                if truthy r then txLedger_findFirst u t r0 else ret None
            | None => ret None
            end d) as [?|[[e0|] d0]] eqn:E; [done| |].
  - intros [= <- <-]. left.
    destruct r; [destruct (truthy _)|]; unfold txLedger_findFirst, ret in E;
      by simplify_eq.
  - assert (d0 = d) as ->.
    { destruct r; [destruct (truthy _)|]; unfold txLedger_findFirst, ret in E;
        by simplify_eq. }
    destruct (txLedger_create _ d) as [?|[c d1]] eqn:Ec; [done|].
    assert (d1 = set_txLedger (λ l, l ++ [mkTx u t a r]) d) as ->.
    { unfold txLedger_create in Ec. simpl in Ec.
      repeat case_match; by simplify_eq. }
    destruct (balance d !! u) as [b|] eqn:Hb.
    + rewrite (balance_update_spec u a _ b) by done.
      intros [= <- <-]. right. eauto.
    + unfold balance_update. simpl. by rewrite Hb.
Qed.

Lemma ensureTx_ledger_nonneg u t a r :
  0 ≤ a → respects ledger_nonneg (ensureTx u t a r).
Proof.
  intros Ha d e d' H.
  apply ensureTx_inv in H as [->|(b & Hb & ->)]; [reflexivity|].
  split.
  - by eexists.
  - intros Hn v bv. simpl. rewrite lookup_insert. case_decide.
    + intros [= <-]. specialize (Hn u b Hb). lia.
    + apply Hn.
Qed.

Lemma respects_credit b u t x r :
  (b = true → 0 ≤ x) →
  respects ledger_nonneg (when b (ensureTx u t x r ;;; ret tt)).
Proof.
  intros H. apply respects_when; [apply _..|]. intros Hb.
  apply respects_bind; [apply _ | by apply ensureTx_ledger_nonneg; auto |].
  intros _. apply respects_ret, _.
Qed.

Lemma respects_keeps (R : Db → Db → Prop) {A} (c : Tx A) :
  (∀ d d', txLedger d' = txLedger d → balance d' = balance d → R d d') →
  keeps txLedger c → keeps balance c → respects R c.
Proof. intros HR Hl Hb d a d' H. apply HR; eauto. Qed.

Lemma keeps_match_update_link_result {B} (f : Db → B) id gid r :
  (∀ g d, f (set_matches g d) = f d) →
  keeps f (match_update_link_result id gid r).
Proof.
  intros Hf d x d'. unfold match_update_link_result, match_check_update.
  repeat case_match; intros ?; simplify_eq/=; by rewrite ?Hf.
Qed.

Lemma keeps_escrow_update {B} (f : Db → B) id g :
  (∀ h d, f (set_escrow h d) = f d) → keeps f (escrow_update id g).
Proof.
  intros Hf d x d'. unfold escrow_update.
  repeat case_match; intros ?; simplify_eq/=; by rewrite ?Hf.
Qed.

Lemma keeps_escrow_create {B} (f : Db → B) id e :
  (∀ h d, f (set_escrow h d) = f d) → keeps f (escrow_create id e).
Proof.
  intros Hf d x d'. unfold escrow_create.
  repeat case_match; intros ?; simplify_eq/=; by rewrite ?Hf.
Qed.

Lemma guard_nonneg (b : bool) x : b && (0 <? x) = true → 0 ≤ x.
Proof. intros [_ H]%andb_true_iff. apply Z.ltb_lt in H. lia. Qed.

Lemma guard_pos x : (0 <? x) = true → 0 ≤ x.
Proof. intros H. apply Z.ltb_lt in H. lia. Qed.

Lemma resolveMatch_body_ledger_nonneg args :
  respects ledger_nonneg (resolveMatch_body args).
Proof.
  unfold resolveMatch_body.
  apply respects_bind; [apply _ | apply respects_read, _ |].
  intros [m|]; [|apply respects_throw].
  destruct (bool_decide _); [apply respects_ret, _|].
  apply respects_bind; [apply _ | apply respects_read, _ |].
  intros esc. cbv zeta.
  apply respects_bind; [apply _ | |].
  { apply respects_keeps; [apply ledger_nonneg_same | |];
      by apply keeps_match_update_link_result. }
  intros _. destruct (_ || _); [apply respects_ret, _|].
  assert (∀ st, respects ledger_nonneg
                  (escrow_update (r_matchId args) (with_status st))) as Hupd.
  { intros st. apply respects_keeps; [apply ledger_nonneg_same | |];
      by apply keeps_escrow_update. }
  destruct (r_result args).
  - destruct (negb _); [apply respects_throw|].
    repeat (apply respects_bind; [apply _ | | intros _]);
      try apply Hupd; apply respects_credit; try apply guard_pos; done.
  - apply respects_ret, _.
  - repeat (apply respects_bind; [apply _ | | intros _]);
      try apply Hupd; apply respects_credit; apply guard_nonneg.
  - repeat (apply respects_bind; [apply _ | | intros _]);
      try apply Hupd; apply respects_credit; apply guard_nonneg.
Qed.

(** What a hold does to the database: nothing, or a debit of the stake (or
    none, when the hold entry exists) followed by the creation of the escrow
    row as held or by a raise of its holds. *)
Lemma holdStake_inv args d :
  let d' := (holdStake args d).2 in
  d' = d
  ∨ ∃ d1,
      (d1 = d
       ∨ ∃ b, balance d !! whoUserId args = Some b ∧ stake args ≤ b
              ∧ d1 = set_balance (insert (whoUserId args) (b - stake args))
                       (set_txLedger
                          (λ l, l ++ [hold_entry (whoUserId args)
                                        (h_matchId args) (stake args)]) d))
      ∧ ((escrow d !! h_matchId args = None
          ∧ is_Some (matches d !! h_matchId args)
          ∧ ∃ w b, d' = set_escrow
                          (insert (h_matchId args) (mkEscrow w b held)) d1)
         ∨ ∃ e w b, escrow d !! h_matchId args = Some e
                    ∧ d' = set_escrow
                             (insert (h_matchId args) (with_holds w b e)) d1).
Proof.
  simpl. unfold holdStake. destruct (stake args <=? 0); [by left|].
  unfold transaction.
  destruct (holdStake_body args d) as [err|[[] d']] eqn:E; [by left|].
  right. simpl. revert E. unfold holdStake_body. unfold bind at 1.
  unfold balance_findUnique.
  destruct (balance d !! whoUserId args) as [bu|] eqn:Hb; [|done].
  destruct (Z.ltb_spec bu (stake args)); [done|].
  unfold bind at 1.
  destruct (ensureTx _ _ _ _ d) as [?|[x d1]] eqn:He; [done|].
  intros Hrest. exists d1. split.
  { apply ensureTx_inv in He as [->|(b & Hb' & ->)]; [by left|].
    right. exists b. rewrite Hb in Hb'. injection Hb' as <-.
    by rewrite Z.add_opp_r. }
  assert (escrow d1 = escrow d ∧ matches d1 = matches d) as [Hesc Hms].
  { split; [by apply (keeps_escrow_ensureTx _ _ _ _ _ _ _ He)
           | by apply (keeps_matches_ensureTx _ _ _ _ _ _ _ He)]. }
  revert Hrest. unfold bind, escrow_findUnique. rewrite Hesc.
  destruct (escrow d !! h_matchId args) as [e|] eqn:Hed.
  - unfold escrow_update. rewrite Hesc, Hed. intros [= <-]. right. eauto.
  - unfold escrow_create. rewrite Hesc, Hed, Hms.
    destruct (matches d !! h_matchId args); [|done].
    intros [= <-]. left. eauto.
Qed.

Lemma settled_has_result_same d d' :
  escrow d' = escrow d → matches d' = matches d →
  settled_has_result d → settled_has_result d'.
Proof. unfold settled_has_result. by intros -> ->. Qed.

Lemma settled_kept_same d d' : escrow d' = escrow d → settled_kept d d'.
Proof. intros H id e He. rewrite H. eauto. Qed.

(** [holdStake] is a sound step. *)
Lemma holdStake_step_ok args d : step_ok d (holdStake args d).2.
Proof.
  destruct (holdStake_inv args d) as [->|(d1 & H1 & H2)]; [reflexivity|].
  assert (step_ok d d1) as S1.
  { destruct H1 as [->|(b & Hb & Hle & ->)]; [reflexivity|].
    split; [by eexists|]. split.
    - intros Hn v bv. simpl. rewrite lookup_insert. case_decide.
      + intros [= <-]. lia.
      + apply Hn.
    - intros HI. split; [by apply (settled_has_result_same d)|].
      by apply settled_kept_same. }
  assert (escrow d1 = escrow d ∧ matches d1 = matches d) as [Hesc Hms].
  { destruct H1 as [->|(b & _ & _ & ->)]; done. }
  transitivity d1; [done|].
  assert (txLedger (holdStake args d).2 = txLedger d1
          ∧ balance (holdStake args d).2 = balance d1
          ∧ matches (holdStake args d).2 = matches d1) as (Hl & Hb & Hm).
  { destruct H2 as [(_ & _ & w & b & ->)|(e & w & b & _ & ->)]; done. }
  split; [exists []; by rewrite app_nil_r|]. split.
  { unfold nonneg_balances. by rewrite Hb. }
  intros HI.
  destruct H2 as [(Hnone & _ & w & b & ->)|(e & w & b & He & ->)]; simpl.
  - rewrite <- Hesc in Hnone. split.
    + intros id e. simpl. rewrite lookup_insert. case_decide.
      * intros [= <-]. done.
      * apply HI.
    + intros id e He. simpl. rewrite lookup_insert_ne; [eauto|].
      intros <-. congruence.
  - rewrite <- Hesc in He. split.
    + intros id e'. simpl. rewrite lookup_insert. case_decide.
      * intros [= <-]. subst. apply (HI _ e He).
      * apply HI.
    + intros id e' He'. simpl. rewrite lookup_insert. case_decide.
      * subst. rewrite He in He'. injection He' as <-. eauto.
      * eauto.
Qed.

(** *** [resolveMatch] and the escrow rows *)

(** The settlement of the match [id] leaves the matches and the other
    escrow rows alone and does not delete the row of [id]. *)
Definition settles_only (id : string) (d d' : Db) : Prop :=
  matches d' = matches d
  ∧ (∀ j, j ≠ id → escrow d' !! j = escrow d !! j)
  ∧ (is_Some (escrow d !! id) → is_Some (escrow d' !! id)).

#[global] Instance settles_only_refl id : Reflexive (settles_only id).
Proof. intros d. by repeat split. Qed.

#[global] Instance settles_only_trans id : Transitive (settles_only id).
Proof.
  intros d1 d2 d3 (M1 & O1 & E1) (M2 & O2 & E2). split; [|split].
  - by rewrite M2.
  - intros j Hj. by rewrite O2, O1.
  - auto.
Qed.

Lemma ensureTx_settles_only id u t a r :
  respects (settles_only id) (ensureTx u t a r).
Proof.
  intros d e d' H.
  split; [by apply (keeps_matches_ensureTx _ _ _ _ _ _ _ H)|].
  rewrite (keeps_escrow_ensureTx _ _ _ _ _ _ _ H). done.
Qed.

Lemma escrow_update_settles_only id g :
  respects (settles_only id) (escrow_update id g).
Proof.
  intros d x d'. unfold escrow_update.
  destruct (escrow d !! id) eqn:He; [|done]. intros [= _ <-].
  split; [done|]. simpl. split.
  - intros j Hj. by rewrite lookup_insert_ne.
  - intros _. rewrite lookup_insert_eq. eauto.
Qed.

Lemma resolveMatch_settled args d :
  settled_has_result d →
  settled_has_result (resolveMatch args d).2
  ∧ settled_kept d (resolveMatch args d).2.
Proof.
  intros HI. unfold resolveMatch, transaction.
  destruct (resolveMatch_body args d) as [err|[[] d']] eqn:E; simpl;
    [by split|].
  revert E. unfold resolveMatch_body. unfold bind at 1. unfold match_findUnique.
  destruct (matches d !! r_matchId args) as [m|] eqn:Hm; [|done].
  case_bool_decide as Hr.
  { intros [= <-]. by split. }
  unfold bind at 1. unfold escrow_findUnique. unfold bind at 1.
  destruct (match_update_link_result _ _ _ d) as [e|[[] d1]] eqn:Hu; [done|].
  apply match_update_link_result_inv in Hu as (m0 & Hm0 & ->).
  rewrite Hm in Hm0. injection Hm0 as <-.
  set (d0 := set_matches _ d). intros Hrest.
  assert (settles_only (r_matchId args) d0 d') as (HM & HO & HE).
  { revert Hrest.
    match goal with |- ?c d0 = _ → _ =>
      assert (respects (settles_only (r_matchId args)) c) as K; [|apply K] end.
    assert (∀ b u t x,
              respects (settles_only (r_matchId args))
                (when b (ensureTx u t x (Some (r_lichessGameId args))
                         ;;; ret tt))) as Hc.
    { intros. apply respects_when; [apply _..|]. intros _.
      apply respects_bind; [apply _ | apply ensureTx_settles_only |].
      intros _. apply respects_ret, _. }
    destruct (_ || _); [apply respects_ret, _|].
    destruct (r_result args).
    - destruct (negb _); [apply respects_throw|].
      repeat (apply respects_bind; [apply _ | | intros _]);
        try apply Hc; apply escrow_update_settles_only.
    - apply respects_ret, _.
    - repeat (apply respects_bind; [apply _ | | intros _]);
        try apply Hc; apply escrow_update_settles_only.
    - repeat (apply respects_bind; [apply _ | | intros _]);
        try apply Hc; apply escrow_update_settles_only. }
  subst d0. simpl in *. split.
  - intros id e He Hs. rewrite HM.
    destruct (decide (id = r_matchId args)) as [->|Hne].
    + rewrite lookup_insert_eq. eexists. split; [done|]. simpl. eauto.
    + rewrite lookup_insert_ne by done. rewrite (HO id Hne) in He.
      by apply (HI id e).
  - intros id e He.
    destruct (decide (id = r_matchId args)) as [->|Hne].
    + destruct HE as [e' He']; [eauto|]. exists e'. split; [done|].
      intros Hs. destruct (HI _ e He Hs) as (m' & Hm' & Hres).
      rewrite Hm in Hm'. injection Hm' as <-. done.
    + rewrite (HO id Hne). eauto.
Qed.

(** [resolveMatch] is a sound step. *)
Lemma resolveMatch_step_ok args d : step_ok d (resolveMatch args d).2.
Proof.
  destruct (respects_transaction ledger_nonneg (resolveMatch_body args) d
              (resolveMatch_body_ledger_nonneg args)) as [HL HN].
  split; [exact HL|]. split; [exact HN|]. apply resolveMatch_settled.
Qed.

(** *** The writes of the handlers *)

(** A write that leaves ledger, balances and escrow alone and clears the
    result of no match. *)
Lemma step_ok_matches d d' :
  txLedger d' = txLedger d → balance d' = balance d → escrow d' = escrow d →
  (∀ j m, matches d !! j = Some m → is_Some (result m) →
          ∃ m', matches d' !! j = Some m' ∧ is_Some (result m')) →
  step_ok d d'.
Proof.
  intros Hl Hb He Hm. split; [exists []; by rewrite app_nil_r|]. split.
  - unfold nonneg_balances. by rewrite Hb.
  - intros HI. split; [|by apply settled_kept_same].
    intros id e. rewrite He. intros Hid Hs.
    destruct (HI id e Hid Hs) as (m & Hmm & Hr). eauto.
Qed.

Lemma match_upsert_step_ok newId gid r w b d x d' :
  match_upsert newId gid r w b d = inr (x, d') → step_ok d d'.
Proof.
  unfold match_upsert.
  destruct (match_findByGid gid (matches d)) as [[id m]|] eqn:E.
  - intros [= _ <-]. apply match_findByGid_Some in E as [Hm _].
    apply step_ok_matches; try done. intros j mj Hj Hr. simpl.
    rewrite lookup_insert. case_decide; [|eauto]. subst.
    rewrite Hm in Hj. injection Hj as <-. eexists. split; [done|].
    destruct r; simpl; eauto.
  - destruct (matches d !! newId) eqn:Hn; [done|]. intros [= _ <-].
    apply step_ok_matches; try done. intros j mj Hj Hr. simpl.
    rewrite lookup_insert_ne; [eauto|]. intros <-. congruence.
Qed.

Lemma match_update_link_step_ok id gid d x d' :
  match_update_link id gid d = inr (x, d') → step_ok d d'.
Proof.
  unfold match_update_link, match_check_update.
  destruct (matches d !! id) as [m|] eqn:Hm; [|done]. simpl.
  destruct (gid_taken id gid (matches d)); [done|]. intros [= _ <-].
  apply step_ok_matches; try done. intros j mj Hj Hr. simpl.
  rewrite lookup_insert. case_decide; [|eauto]. subst.
  rewrite Hm in Hj. injection Hj as <-. eauto.
Qed.

Lemma match_create_step_ok newId st d x d' :
  match_create newId st d = inr (x, d') → step_ok d d'.
Proof.
  unfold match_create. destruct (matches d !! newId) eqn:Hn; [done|].
  intros [= _ <-]. apply step_ok_matches; try done. intros j mj Hj Hr. simpl.
  rewrite lookup_insert_ne; [eauto|]. intros <-. congruence.
Qed.

Lemma rewardFromSummary_pos sum isWhite : 0 < rewardFromSummary sum isWhite.
Proof. unfold rewardFromSummary. repeat case_match; lia. Qed.

Lemma casualReward_step_ok u gid delta d :
  0 ≤ delta → step_ok d (transaction (casualReward u gid delta) d).2.
Proof.
  intros Hd. unfold transaction.
  destruct (casualReward u gid delta d) as [e|[x d']] eqn:E; [reflexivity|].
  simpl. revert E. unfold casualReward, bind.
  destruct (balance d !! u) as [b|] eqn:Hb; cycle 1.
  { unfold balance_update. by rewrite Hb. }
  rewrite (balance_update_spec u delta d b Hb).
  unfold txLedger_create. simpl. destruct (existsb _ _); [done|].
  intros [= _ <-]. split; [by eexists|]. split.
  - intros Hn v bv. simpl. rewrite lookup_insert. case_decide.
    + intros [= <-]. specialize (Hn u b Hb). lia.
    + apply Hn.
  - intros HI. split; [by apply (settled_has_result_same d)|].
    by apply settled_kept_same.
Qed.

(** *** The handlers are sound steps *)

Lemma onGameStart_step_ok u gid s : step_ok (db s) (db (onGameStart u gid s)).
Proof.
  unfold onGameStart. destruct (truthy (Some gid)); [|reflexivity].
  destruct (pendingStakeByUser s !! u) as [mid|]; [|reflexivity].
  destruct (truthy (Some mid)); [|reflexivity].
  destruct (match_update_link mid gid (db s)) as [e|[x d']] eqn:E;
    [reflexivity|].
  simpl. by apply (match_update_link_step_ok _ _ _ _ _ E).
Qed.

Lemma onGameFinish_step_ok u gid sum newId s :
  step_ok (db s) (db (onGameFinish u gid sum newId s)).
Proof.
  unfold onGameFinish. destruct (truthy (Some gid)); [|reflexivity].
  destruct (match_upsert _ _ _ _ _ (db s)) as [e|[[id m] d1]] eqn:E;
    [reflexivity|].
  apply match_upsert_step_ok in E.
  destruct (0 <? stakeCC m).
  - match goal with
    | |- context [resolveMatch ?a d1] =>
        pose proof (resolveMatch_step_ok a d1) as HR;
        destruct (resolveMatch a d1) as [[err|[]] d2]
    end; simpl in *; [done|].
    assert (step_ok (db s) d2) as Hs by (by transitivity d1).
    by destruct (truthy _).
  - simpl. transitivity d1; [done|].
    apply casualReward_step_ok. pose proof (rewardFromSummary_pos sum
      (detectColor (user_findUnique u (db s)) sum)). lia.
Qed.

Lemma challengeTimeout_step_ok mid u o now s :
  step_ok (db s) (db (challengeTimeout mid u o now s)).
Proof.
  unfold challengeTimeout. destruct (_ && _); [|reflexivity].
  match goal with
  | |- context [resolveMatch ?a (db s)] =>
      pose proof (resolveMatch_step_ok a (db s)) as HR;
      destruct (resolveMatch a (db s)) as [[err|[]] d2]
  end; simpl in *; [reflexivity | done].
Qed.

Lemma queueTimeout_step_ok mid a b now s :
  step_ok (db s) (db (queueTimeout mid a b now s)).
Proof.
  unfold queueTimeout. destruct (negb _); [|reflexivity].
  match goal with
  | |- context [resolveMatch ?a (db s)] =>
      pose proof (resolveMatch_step_ok a (db s)) as HR;
      destruct (resolveMatch a (db s)) as [[err|[]] d2]
  end; simpl in *; [reflexivity | done].
Qed.

Lemma step_step_ok {A} (r : (Error + A) * Db) s s' :
  step r s = Some s' → db s' = r.2.
Proof. destruct r as [[e|a] d]; simpl; [done|]. by intros [= <-]. Qed.

Lemma step_tx_step_ok {A} (c : Tx A) s s' :
  step_tx c s = Some s' → ∃ x, c (db s) = inr (x, db s').
Proof.
  unfold step_tx. destruct (c (db s)) as [e|[x d]]; [done|].
  intros [= <-]. eauto.
Qed.

Lemma queueMatched_step_ok newId a b st time inc rated ok now s :
  step_ok (db s) (db (queueMatched newId a b st time inc rated ok now s)).
Proof.
  unfold queueMatched.
  destruct (step_tx _ s) as [s1|] eqn:E1; [|reflexivity].
  apply step_tx_step_ok in E1 as [x E1]. apply match_create_step_ok in E1.
  destruct (step _ s1) as [s2|] eqn:E2; [|done].
  apply step_step_ok in E2.
  assert (step_ok (db s) (db s2)) as H2.
  { transitivity (db s1); [done|]. rewrite E2. apply holdStake_step_ok. }
  destruct (step _ s2) as [s3|] eqn:E3; [|done].
  apply step_step_ok in E3.
  assert (step_ok (db s) (db s3)) as H3.
  { transitivity (db s2); [done|]. rewrite E3. apply holdStake_step_ok. }
  destruct ok; [done|].
  match goal with
  | |- context [step ?r ?s4] => destruct (step r s4) as [s5|] eqn:E5
  end; [|done].
  apply step_step_ok in E5. simpl. rewrite E5. simpl.
  transitivity (db s3); [done|]. apply resolveMatch_step_ok.
Qed.

Lemma challengeCreate_step_ok newId u o st time inc rated oa ok s :
  step_ok (db s) (db (challengeCreate newId u o st time inc rated oa ok s)).
Proof.
  unfold challengeCreate.
  destruct (step_tx _ s) as [s1|] eqn:E1; [|reflexivity].
  apply step_tx_step_ok in E1 as [x E1]. apply match_create_step_ok in E1.
  destruct (step _ s1) as [s2|] eqn:E2; [|done].
  apply step_step_ok in E2.
  assert (step_ok (db s) (db s2)) as H2.
  { transitivity (db s1); [done|]. rewrite E2. apply holdStake_step_ok. }
  by destruct (_ && _).
Qed.

(** * Matchmaking and direct play
    (src/chesscoin-backend/src/pkce.ts: [mmKey], [/queue/join],
    [/queue/leave], [/play/staked]) *)

(** The fields [time], [increment] and [rated] of a request body reach the
    routes unvalidated: they can be any value, a string or [null] as well
    as a number.  A value is given here by what the routes observe of it:
    [js_show] is its rendering in a template string ([`${v}`]), [js_truthy]
    its truthiness, and [js_num] its numeric value where it is used as a
    number.  The number 1e21 is [mkJs "1e+21" true (10 ^ 21)], the string
    ['3+0'] is a value with the rendering ["3+0"]. *)
Record JsVal := mkJs {
  js_show : string;
  js_truthy : bool;
  js_num : Z
}.

(** The literals [0], [1], [3] and [false] of the routes. *)
Definition js_0 : JsVal := mkJs "0" false 0.
Definition js_1 : JsVal := mkJs "1" true 1.
Definition js_3 : JsVal := mkJs "3" true 3.
Definition js_false : JsVal := mkJs "false" false 0.

(** A ticket of the in-memory matchmaking queues. *)
Record Ticket := mkTicket {
  t_userId : string;
  t_username : string;
  t_stake : JsVal;
  t_time : JsVal;
  t_inc : JsVal;
  t_rated : JsVal;
  t_ts : N
}.

(** [mmKey(time, inc, stake, rated)]: the template string
    [`${time}+${inc}+${stake}+${rated ? 1 : 0}`]. *)
Definition mmKey (time inc stake rated : JsVal) : string :=
  js_show time +:+ "+" +:+ js_show inc +:+ "+" +:+ js_show stake +:+ "+"
  +:+ (if js_truthy rated then "1" else "0").

(** The application state: the server state of the handlers, the queues
    [mmQueues] and the table [LichessAuth] (user id to access token), which
    the routes only read. *)
Record App := mkApp {
  server : Server;
  mmQueues : gmap string (list Ticket);
  lichessAuth : gmap string string
}.

(** The database of the application state. *)
Definition the_db (a : App) : Db := db (server a).

Definition set_server (f : Server → Server) (a : App) : App :=
  mkApp (f (server a)) (mmQueues a) (lichessAuth a).
Definition set_mmQueues
    (f : gmap string (list Ticket) → gmap string (list Ticket)) (a : App)
    : App :=
  mkApp (server a) (f (mmQueues a)) (lichessAuth a).

(** The fields of the request body that [/queue/join] reads; an absent
    field ([None]) takes the default of the destructuring.  The field
    [stake] goes through [Number(stake || 0)]: when present it is given as
    that number, an integer. *)
Record JoinBody := mkJoinBody {
  b_stake : option JsVal;
  b_time : option JsVal;
  b_increment : option JsVal;
  b_rated : option JsVal
}.

(** The answers of the routes. *)
Inductive Response :=
  | BadRequest     (* 400 *)
  | ServerError    (* 500 *)
  | Queued         (* { ok, queued } *)
  | Matched        (* { ok, matched } *)
  | Launched       (* { ok, launch } *)
  | LeftQueue.     (* { ok, left } *)

(** The answer of the game server to the challenge request: accepted
    ([r.ok]), refused, or no answer (the request throws). *)
Inductive Answer := Accepted | Refused | NoAnswer.

(** [/queue/join] once two tickets [ta] and [tb] have been taken from the
    queue: as [queueMatched], and with the two token lookups
    [(await db.lichessAuth.findUnique(...))!.accessToken], which throw on a
    missing row. *)
Definition queuePair (newId : string) (ta tb : Ticket) (stakeN time inc : Z)
    (rated : bool) (answer : Answer) (now : N) (a : App) : Response * App :=
  let s := server a in
  let au := t_userId ta in
  let bu := t_userId tb in
  match step_tx (match_create newId stakeN) s with
  | None => (ServerError, a)
  | Some s1 =>
      match step (holdStake (mkHoldArgs newId au white stakeN) (db s1)) s1 with
      | None => (ServerError, set_server (λ _, s1) a)
      | Some s2 =>
          match step (holdStake (mkHoldArgs newId bu black stakeN) (db s2)) s2
          with
          | None => (ServerError, set_server (λ _, s2) a)
          | Some s3 =>
              let s4 :=
                set_pendingStake (insert bu newId)
                  (set_pendingStake (insert au newId) s3) in
              match lichessAuth a !! au, lichessAuth a !! bu, answer with
              | Some _, Some _, Accepted =>
                  (Matched,
                   set_server
                     (λ _, set_pendingChallenges
                             (insert newId
                                (mkPending newId au bu stakeN time inc rated
                                           false)) s4) a)
              | Some _, Some _, Refused =>
                  match step (resolveMatch
                                (mkResolveArgs newId (cancelId now) abort None
                                               (Some au) (Some bu)) (db s4))
                             s4 with
                  | None => (ServerError, set_server (λ _, s4) a)
                  | Some s5 =>
                      (ServerError,
                       set_server
                         (λ _, set_pendingStake (delete bu)
                                 (set_pendingStake (delete au) s5)) a)
                  end
              | _, _, _ => (ServerError, set_server (λ _, s4) a)
              end
          end
      end
  end.

(** [Math.max(1, Number(stake || 0))] *)
Definition stakeOf (body : JoinBody) : JsVal :=
  let stake := default js_0 (b_stake body) in
  if 1 <=? js_num stake then stake else js_1.

(** [/queue/join]: [newId] is the id of the match row created on a pairing,
    [answer] the answer to the challenge request and [now] the clock.  The
    pairing holds the stake of the request that completes the pair, and
    its time, increment and rated flag go into the pending challenge (where
    no handler reads them back). *)
Definition queueJoin (userId : string) (body : JoinBody) (newId : string)
    (answer : Answer) (now : N) (a : App) : Response * App :=
  let stakeN := stakeOf body in
  let time := default js_3 (b_time body) in
  let increment := default js_0 (b_increment body) in
  let rated := default js_false (b_rated body) in
  if js_num stakeN =? 0 then (BadRequest, a)
  else
    let me := user_findUnique userId (db (server a)) in
    if negb (truthy (me ≫= lichessUsername)) then (BadRequest, a)
    else
      match lichessAuth a !! userId with
      | None => (BadRequest, a)
      | Some _ =>
          let key := mmKey time increment stakeN rated in
          let q := default [] (mmQueues a !! key) in
          if existsb (λ t, String.eqb (t_userId t) userId) q
          then (Queued, a)
          else
            let q1 :=
              q ++ [mkTicket userId (the (me ≫= lichessUsername)) stakeN time
                             increment rated now] in
            match q1 with
            | ta :: tb :: q2 =>
                queuePair newId ta tb (js_num stakeN) (js_num time)
                  (js_num increment) (js_truthy rated) answer now
                  (set_mmQueues (insert key q2) a)
            | _ => (Queued, set_mmQueues (insert key q1) a)
            end
      end.

(** [q.splice(q.findIndex(t => t.userId === userId), 1)] when the index is
    not negative. *)
Fixpoint splice_user (userId : string) (q : list Ticket) : list Ticket :=
  match q with
  | [] => []
  | t :: r =>
      if String.eqb (t_userId t) userId then r
      else t :: splice_user userId r
  end.

(** [/queue/leave] *)
Definition queueLeave (userId : string) (a : App) : Response * App :=
  (LeftQueue, set_mmQueues (fmap (splice_user userId)) a).

(** [/play/staked]: [stake] is the field of the body, [seekOk] tells whether
    [createSeek] got its answer 200. *)
Definition playStaked (userId : string) (stake : option Z) (newId : string)
    (seekOk : bool) (a : App) : Response * App :=
  let stake := Z.max 0 (default 0 stake) in
  if stake =? 0 then (BadRequest, a)
  else
    match lichessAuth a !! userId with
    | None => (BadRequest, a)
    | Some _ =>
        match step_tx (match_create newId stake) (server a) with
        | None => (ServerError, a)
        | Some s1 =>
            match step (holdStake (mkHoldArgs newId userId white stake)
                          (db s1)) s1 with
            | None => (ServerError, set_server (λ _, s1) a)
            | Some s2 =>
                let s3 := set_pendingStake (insert userId newId) s2 in
                (if seekOk then Launched else ServerError,
                 set_server (λ _, s3) a)
            end
        end
    end.

(** ** Joining and leaving a queue *)

Definition is_user (userId : string) (t : Ticket) : bool :=
  String.eqb (t_userId t) userId.

(** The tickets of a queue agree with its key, carry a stake of at least 1
    and belong to accounts with a linked token; one ticket at most waits
    in a queue. *)
Definition queues_ok (a : App) : Prop :=
  ∀ key q, mmQueues a !! key = Some q →
    (length q ≤ 1)%nat
    ∧ ∀ t, t ∈ q →
        mmKey (t_time t) (t_inc t) (t_stake t) (t_rated t) = key
        ∧ 1 ≤ js_num (t_stake t)
        ∧ is_Some (lichessAuth a !! t_userId t).

Definition answered (ans : Answer) : bool :=
  match ans with
  | Accepted => true
  | _ => false
  end.

(** With both tokens and an answer of the game server, the pairing of the
    route is [queueMatched]. *)
Lemma queuePair_queueMatched newId ta tb st time inc rated ans now a :
  is_Some (lichessAuth a !! t_userId ta) →
  is_Some (lichessAuth a !! t_userId tb) →
  ans ≠ NoAnswer →
  (queuePair newId ta tb st time inc rated ans now a).2
  = set_server
      (λ _, queueMatched newId (t_userId ta) (t_userId tb) st time inc rated
              (answered ans) now (server a)) a.
Proof.
  intros [x Hx] [y Hy] Hans. unfold queuePair, queueMatched.
  destruct (step_tx _ (server a)) as [s1|]; [|by destruct a].
  destruct (step _ s1) as [s2|]; [|done].
  destruct (step _ s2) as [s3|]; [|done].
  rewrite Hx, Hy. destruct ans; [done| |done]. simpl.
  match goal with |- context [step ?r ?s4] => destruct (step r s4) end; done.
Qed.

Lemma existsb_is_user_false u (q : list Ticket) :
  existsb (is_user u) q = false → ∀ t, t ∈ q → t_userId t ≠ u.
Proof.
  intros H t Ht Heq.
  assert (existsb (is_user u) q = true); [|congruence].
  apply existsb_exists. exists t. split; [by apply list_elem_of_In|].
  unfold is_user. by apply String.eqb_eq.
Qed.

(** A join that is answered "queued" is idempotent: the same request again,
    whatever the clock, is answered "queued" and leaves the state of the
    first one. *)
Theorem queueJoin_queued_idempotent u body newId ans now newId' ans' now' a a' :
  queueJoin u body newId ans now a = (Queued, a') →
  queueJoin u body newId' ans' now' a' = (Queued, a').
Proof.
  unfold queueJoin. cbv zeta.
  destruct (js_num (stakeOf body) =? 0) eqn:Hs; [done|].
  destruct (negb (truthy _)) eqn:Hu; [done|].
  destruct (lichessAuth a !! u) as [tok|] eqn:Ht; [|done].
  set (key := mmKey _ _ _ _).
  change (existsb (λ t, String.eqb (t_userId t) u)) with (existsb (is_user u)).
  destruct (existsb (is_user u) (default [] (mmQueues a !! key))) eqn:Hex.
  { intros [= <-]. rewrite ?Hs, ?Hu, ?Ht. by rewrite ?Hex. }
  destruct (default [] (mmQueues a !! key)) as [|t0 q] eqn:Hq; simpl.
  - intros [= <-]. simpl. rewrite ?Hs, ?Hu, ?Ht.
    rewrite lookup_insert_eq. unfold is_user. simpl.
    by rewrite String.eqb_refl.
  - destruct (q ++ _) eqn:Hq1.
    { by destruct q. }
    unfold queuePair. repeat case_match; done.
Qed.

(** A request body with the stake 20 and no other field. *)
Definition ex_body : JoinBody :=
  mkJoinBody (Some (mkJs "20" true 20)) None None None.

(** The ticket of the account A for that request. *)
Definition ex_ticket : Ticket :=
  mkTicket "A" "Alice" (mkJs "20" true 20) js_3 js_0 js_false 7%N.

Lemma queueJoin_queued_idempotent_witness :
  let a := mkApp (mkServer ex_db0 ∅ ∅) ∅ {[ "A" := "tokA"; "B" := "tokB" ]} in
  queueJoin "A" ex_body "m2" Refused 9%N
    (queueJoin "A" ex_body "m1" Accepted 7%N a).2
  = (Queued, (queueJoin "A" ex_body "m1" Accepted 7%N a).2).
Proof.
  apply (queueJoin_queued_idempotent "A" ex_body
           "m1" Accepted 7%N "m2" Refused 9%N
           (mkApp (mkServer ex_db0 ∅ ∅) ∅ {[ "A" := "tokA"; "B" := "tokB" ]})).
  vm_compute. reflexivity.
Defined.

Lemma stakeOf_ge_1 body : 1 ≤ js_num (stakeOf body).
Proof.
  unfold stakeOf. cbv zeta.
  destruct (Z.leb_spec 1 (js_num (default js_0 (b_stake body)))); [done|].
  simpl. lia.
Qed.

(** A hold by an account whose balance is below the stake fails and leaves
    the database as it is. *)
Lemma holdStake_short mid u c st d b :
  0 < st → balance d !! u = Some b → b < st →
  holdStake (mkHoldArgs mid u c st) d = (inl INSUFFICIENT_FUNDS, d).
Proof.
  intros Hst Hb Hlt. unfold holdStake. simpl.
  destruct (Z.leb_spec st 0); [lia|].
  unfold transaction, holdStake_body. simpl. unfold bind at 1.
  unfold balance_findUnique. rewrite Hb.
  by destruct (Z.ltb_spec b st); [|lia].
Qed.

(** The pairing when both players can pay and the game server accepts the
    challenge. *)
Lemma queuePair_run newId ta tb st time inc rated now a ba bb :
  is_Some (lichessAuth a !! t_userId ta) →
  is_Some (lichessAuth a !! t_userId tb) →
  t_userId ta ≠ t_userId tb →
  0 < st →
  matches (the_db a) !! newId = None → escrow (the_db a) !! newId = None →
  balance (the_db a) !! t_userId ta = Some ba → st ≤ ba →
  balance (the_db a) !! t_userId tb = Some bb → st ≤ bb →
  has_entry (t_userId ta) stake_hold newId (txLedger (the_db a)) = false →
  has_entry (t_userId tb) stake_hold newId (txLedger (the_db a)) = false →
  queuePair newId ta tb st time inc rated Accepted now a
  = (Matched,
     mkApp
       (mkServer
          (db_paired newId (t_userId ta) (t_userId tb) st ba bb (the_db a))
          (<[t_userId tb:=newId]>
             (<[t_userId ta:=newId]> (pendingStakeByUser (server a))))
          (<[newId:=mkPending newId (t_userId ta) (t_userId tb) st time inc
                      rated false]> (pendingChallenges (server a))))
       (mmQueues a) (lichessAuth a)).
Proof.
  intros [x Hx] [y Hy] Hab Hst Hm He Hba Hlea Hbb Hleb Hna Hnb.
  unfold the_db in *. unfold queuePair. cbv zeta.
  unfold step_tx, match_create. rewrite Hm. simpl.
  rewrite (holdStake_run_create newId (t_userId ta) white st _ ba
             (new_match st)); try done; [|apply lookup_insert_eq].
  simpl.
  rewrite (holdStake_run_update newId (t_userId tb) black st _ bb
             (mkEscrow st 0 held)); try done; simpl.
  - rewrite Hx, Hy. unfold side_hold. simpl. rewrite Z.add_0_r. reflexivity.
  - by rewrite lookup_insert_ne.
  - unfold hold_entry. rewrite has_entry_app_other; [done|].
    intros (? & _). congruence.
  - apply lookup_insert_eq.
Qed.

(** A join into a queue where another account waits alone pairs the two,
    the ticket that waited being the first player and the joiner the
    second.  When both have a linked token, both can pay the stake of the
    request, the match id is fresh and the game server accepts the
    challenge, the answer is "matched": the match is created with the
    stake, that stake is debited from both and held in a new escrow row
    (white for the player who waited, black for the joiner), both are
    registered as pending, the pending challenge is registered as not
    started, and the queue is left empty. *)
Theorem queueJoin_pairs_waiting u body newId now a ta ba bb :
  let stakeN := stakeOf body in
  let time := default js_3 (b_time body) in
  let inc := default js_0 (b_increment body) in
  let rated := default js_false (b_rated body) in
  let key := mmKey time inc stakeN rated in
  truthy (user_findUnique u (the_db a) ≫= lichessUsername) = true →
  is_Some (lichessAuth a !! u) →
  is_Some (lichessAuth a !! t_userId ta) →
  mmQueues a !! key = Some [ta] →
  t_userId ta ≠ u →
  matches (the_db a) !! newId = None → escrow (the_db a) !! newId = None →
  balance (the_db a) !! t_userId ta = Some ba → js_num stakeN ≤ ba →
  balance (the_db a) !! u = Some bb → js_num stakeN ≤ bb →
  has_entry (t_userId ta) stake_hold newId (txLedger (the_db a)) = false →
  has_entry u stake_hold newId (txLedger (the_db a)) = false →
  queueJoin u body newId Accepted now a
  = (Matched,
     mkApp
       (mkServer
          (db_paired newId (t_userId ta) u (js_num stakeN) ba bb (the_db a))
          (<[u:=newId]>
             (<[t_userId ta:=newId]> (pendingStakeByUser (server a))))
          (<[newId:=mkPending newId (t_userId ta) u (js_num stakeN)
                      (js_num time) (js_num inc) (js_truthy rated) false]>
             (pendingChallenges (server a))))
       (<[key:=[]]> (mmQueues a)) (lichessAuth a)).
Proof.
  intros stakeN time inc rated key Hname [tok Htok] Hta Hq Hne Hm He Hba Hlea
    Hbb Hleb Hna Hnb.
  assert (1 ≤ js_num stakeN) as Hst by apply stakeOf_ge_1.
  unfold queueJoin. cbv zeta. fold stakeN time inc rated key.
  assert ((js_num stakeN =? 0) = false) as -> by (apply Z.eqb_neq; lia).
  unfold the_db in Hname. rewrite Hname, Htok, Hq. simpl.
  destruct (String.eqb_spec (t_userId ta) u); [done|]. simpl.
  rewrite (queuePair_run _ _ _ _ _ _ _ _ _ ba bb); try done; try lia.
Qed.

Lemma queueJoin_pairs_waiting_witness :
  let a := mkApp (mkServer ex_db0 ∅ ∅) {[ "3+0+20+0" := [ex_ticket] ]}
             {[ "A" := "tokA"; "B" := "tokB" ]} in
  queueJoin "B" ex_body "m1" Accepted 8%N a
  = (Matched,
     mkApp
       (mkServer (db_paired "m1" "A" "B" 20 100 100 ex_db0)
          (<[ "B" := "m1" ]> (<[ "A" := "m1" ]> ∅))
          (<[ "m1" := mkPending "m1" "A" "B" 20 3 0 false false ]> ∅))
       (<[ "3+0+20+0" := [] ]> {[ "3+0+20+0" := [ex_ticket] ]})
       {[ "A" := "tokA"; "B" := "tokB" ]}).
Proof.
  intros a.
  pose proof (queueJoin_pairs_waiting "B" ex_body "m1" 8%N a ex_ticket
                100 100) as H.
  cbv zeta in H. apply H; clear H;
    try (vm_compute; reflexivity); try (vm_compute; eauto; fail);
    try discriminate.
Defined.

(** The same join when the joiner cannot pay: the stake of the player who
    waited is already debited and held when the hold of the joiner fails.
    The answer is 500, the ticket that waited is gone from the queue,
    neither account is registered as pending and no pending challenge is
    registered, so that nothing is armed to give the held stake back. *)
Theorem queueJoin_joiner_cannot_pay u body newId ans now a ta ba bb :
  let stakeN := stakeOf body in
  let st := js_num stakeN in
  let time := default js_3 (b_time body) in
  let inc := default js_0 (b_increment body) in
  let rated := default js_false (b_rated body) in
  let key := mmKey time inc stakeN rated in
  truthy (user_findUnique u (the_db a) ≫= lichessUsername) = true →
  is_Some (lichessAuth a !! u) →
  mmQueues a !! key = Some [ta] →
  t_userId ta ≠ u →
  matches (the_db a) !! newId = None → escrow (the_db a) !! newId = None →
  balance (the_db a) !! t_userId ta = Some ba → st ≤ ba →
  balance (the_db a) !! u = Some bb → bb < st →
  has_entry (t_userId ta) stake_hold newId (txLedger (the_db a)) = false →
  let r := queueJoin u body newId ans now a in
  r.1 = ServerError
  ∧ mmQueues r.2 = <[key:=[]]> (mmQueues a)
  ∧ balance (the_db r.2) = <[t_userId ta:=ba - st]> (balance (the_db a))
  ∧ escrow (the_db r.2) = <[newId:=mkEscrow st 0 held]> (escrow (the_db a))
  ∧ txLedger (the_db r.2)
    = txLedger (the_db a) ++ [hold_entry (t_userId ta) newId st]
  ∧ pendingStakeByUser (server r.2) = pendingStakeByUser (server a)
  ∧ pendingChallenges (server r.2) = pendingChallenges (server a).
Proof.
  intros stakeN st time inc rated key Hname [tok Htok] Hq Hne Hm He Hba Hlea
    Hbb Hlt Hna.
  assert (1 ≤ st) as Hst by apply stakeOf_ge_1.
  unfold the_db in *. cbv zeta. unfold queueJoin. cbv zeta.
  fold stakeN time inc rated key. fold st.
  assert ((st =? 0) = false) as -> by (apply Z.eqb_neq; lia).
  rewrite Hname, Htok, Hq. simpl.
  destruct (String.eqb_spec (t_userId ta) u); [done|]. simpl.
  unfold queuePair. cbv zeta. simpl.
  unfold step_tx, match_create. rewrite Hm. simpl.
  rewrite (holdStake_run_create newId (t_userId ta) white st _ ba
             (new_match st)); try done; try lia; [|apply lookup_insert_eq].
  simpl.
  rewrite (holdStake_short newId u black st _ bb); try lia.
  - simpl. unfold side_hold. simpl. done.
  - simpl. by rewrite lookup_insert_ne.
Qed.

Lemma queueJoin_joiner_cannot_pay_witness :
  let a := mkApp (mkServer (set_balance (insert "A" 500) ex_db0) ∅ ∅)
             {[ "3+0+200+0" := [ex_ticket] ]}
             {[ "A" := "tokA"; "B" := "tokB" ]} in
  let body := mkJoinBody (Some (mkJs "200" true 200)) None None None in
  let r := queueJoin "B" body "m1" Accepted 8%N a in
  r.1 = ServerError
  ∧ balance (the_db r.2) !! "A" = Some 300
  ∧ balance (the_db r.2) !! "B" = Some 100
  ∧ escrow (the_db r.2) !! "m1" = Some (mkEscrow 200 0 held)
  ∧ pendingChallenges (server r.2) = ∅.
Proof.
  intros a body.
  pose proof (queueJoin_joiner_cannot_pay "B" body "m1" Accepted 8%N a
                ex_ticket 500 100) as H.
  cbv zeta in H. cbv zeta.
  destruct H as (H1 & _ & H3 & H4 & _ & _ & H7);
    try (lazymatch goal with
         | |- _ ∧ _ => fail
         | _ => first [ vm_compute; reflexivity | vm_compute; eauto; fail
                      | discriminate ]
         end).
  rewrite H1, H3, H4, H7. repeat split; vm_compute; reflexivity.
Defined.

Lemma splice_user_absent u q :
  existsb (is_user u) q = false → splice_user u q = q.
Proof.
  induction q as [|t q IH]; simpl; [done|]. unfold is_user at 1.
  destruct (String.eqb (t_userId t) u); simpl; [done|].
  intros H. by rewrite IH.
Qed.

Lemma splice_user_others u q :
  filter (λ t, t_userId t ≠ u) (splice_user u q)
  = filter (λ t, t_userId t ≠ u) q.
Proof.
  induction q as [|t q IH]; simpl; [done|].
  destruct (String.eqb_spec (t_userId t) u) as [Heq|Hne].
  - by rewrite filter_cons_False by (by intros ?).
  - by rewrite !filter_cons_True, IH by done.
Qed.

Lemma splice_user_gone u q :
  NoDup (t_userId <$> q) → ∀ t, t ∈ splice_user u q → t_userId t ≠ u.
Proof.
  induction q as [|t0 q IH]; simpl; [by intros _ t ?%elem_of_nil|].
  intros Hnd. apply NoDup_cons in Hnd as [Hnin Hnd].
  destruct (String.eqb_spec (t_userId t0) u) as [Heq|Hne].
  - intros t Ht Hu. apply Hnin. rewrite Heq, <- Hu.
    by apply list_elem_of_fmap_2.
  - intros t [->|Ht]%elem_of_cons; [done|]. by apply IH.
Qed.

(** [/queue/leave] never touches the database, the registries or the
    tokens, and keeps the tickets of the other accounts in their order.  An
    account that waits in no queue leaves the state unchanged; and when no
    queue holds two tickets of one account, the account waits in no queue
    after it left. *)
Theorem queueLeave_removes u a :
  let a' := (queueLeave u a).2 in
  server a' = server a ∧ lichessAuth a' = lichessAuth a
  ∧ (∀ key q, mmQueues a !! key = Some q →
       ∃ q', mmQueues a' !! key = Some q'
             ∧ filter (λ t, t_userId t ≠ u) q'
               = filter (λ t, t_userId t ≠ u) q)
  ∧ ((∀ key q, mmQueues a !! key = Some q → existsb (is_user u) q = false) →
     a' = a)
  ∧ ((∀ key q, mmQueues a !! key = Some q → NoDup (t_userId <$> q)) →
     ∀ key q' t, mmQueues a' !! key = Some q' → t ∈ q' → t_userId t ≠ u).
Proof.
  simpl. repeat split.
  - intros key q Hq. exists (splice_user u q). rewrite lookup_fmap, Hq.
    split; [done|]. apply splice_user_others.
  - intros Habs. destruct a as [s qs la]. unfold set_mmQueues. simpl in *.
    f_equal. apply map_eq. intros key. rewrite lookup_fmap.
    destruct (qs !! key) as [q|] eqn:Hq; [|done]. simpl.
    by rewrite (splice_user_absent u q (Habs key q Hq)).
  - intros Hnd key q' t. rewrite lookup_fmap.
    destruct (mmQueues a !! key) as [q|] eqn:Hq; [|done].
    intros [= <-]. by apply splice_user_gone, (Hnd key).
Qed.

Lemma queueLeave_removes_witness :
  let a := mkApp (mkServer ex_db0 ∅ ∅)
             {[ "3+0+20+0" := [ex_ticket] ]}
             {[ "A" := "tokA" ]} in
  (queueLeave "B" a).2 = a
  ∧ ∀ key q' t, mmQueues (queueLeave "A" a).2 !! key = Some q' → t ∈ q' →
                t_userId t ≠ "A".
Proof.
  set (a := mkApp (mkServer ex_db0 ∅ ∅)
              {[ "3+0+20+0" := [ex_ticket] ]}
              {[ "A" := "tokA" ]}).
  split.
  - apply (proj1 (proj2 (proj2 (proj2 (queueLeave_removes "B" a))))).
    intros key q Hq. simpl in Hq.
    apply lookup_singleton_Some in Hq as [_ <-]. reflexivity.
  - apply (proj2 (proj2 (proj2 (proj2 (queueLeave_removes "A" a))))).
    intros key q Hq. simpl in Hq.
    apply lookup_singleton_Some in Hq as [_ <-]. simpl.
    apply NoDup_singleton.
Defined.

(** ** Any sequence of requests, signals and timers *)

(** What reaches the engine: the routes, the stream signals, the timer
    callbacks, and direct calls of the two exported wallet functions.  A
    timer callback may run at any time. *)
Inductive Event :=
  | QueueJoin (userId : string) (body : JoinBody) (newId : string)
              (answer : Answer) (now : N)
  | QueueLeave (userId : string)
  | PlayStaked (userId : string) (stake : option Z) (newId : string)
               (seekOk : bool)
  | ChallengeCreate (newId userId oppId : string) (stakeN time inc : Z)
                    (rated oppAuth challengeOk : bool)
  | GameStart (userId gid : string)
  | GameFinish (userId gid : string) (sum : Summary) (newId : string)
  | ChallengeTimeout (matchId userId oppId : string) (now : N)
  | QueueTimeout (matchId aId bId : string) (now : N)
  | HoldStake (args : HoldArgs)
  | ResolveMatch (args : ResolveArgs).

Definition exec (ev : Event) (a : App) : App :=
  match ev with
  | QueueJoin u body newId ans now => (queueJoin u body newId ans now a).2
  | QueueLeave u => (queueLeave u a).2
  | PlayStaked u st newId ok => (playStaked u st newId ok a).2
  | ChallengeCreate newId u o st time inc rated oa ok =>
      set_server (challengeCreate newId u o st time inc rated oa ok) a
  | GameStart u gid => set_server (onGameStart u gid) a
  | GameFinish u gid sum newId => set_server (onGameFinish u gid sum newId) a
  | ChallengeTimeout mid u o now => set_server (challengeTimeout mid u o now) a
  | QueueTimeout mid x y now => set_server (queueTimeout mid x y now) a
  | HoldStake args => set_server (λ s, set_db (holdStake args (db s)).2 s) a
  | ResolveMatch args =>
      set_server (λ s, set_db (resolveMatch args (db s)).2 s) a
  end.

Definition run (evs : list Event) (a : App) : App :=
  foldl (λ acc ev, exec ev acc) a evs.

Lemma queuePair_step_ok newId ta tb st time inc rated ans now a :
  step_ok (the_db a)
    (the_db (queuePair newId ta tb st time inc rated ans now a).2).
Proof.
  unfold queuePair, the_db.
  destruct (step_tx _ (server a)) as [s1|] eqn:E1; [|reflexivity].
  apply step_tx_step_ok in E1 as [x E1]. apply match_create_step_ok in E1.
  destruct (step _ s1) as [s2|] eqn:E2; [|done].
  apply step_step_ok in E2.
  assert (step_ok (db (server a)) (db s2)) as H2.
  { transitivity (db s1); [done|]. rewrite E2. apply holdStake_step_ok. }
  destruct (step _ s2) as [s3|] eqn:E3; [|done].
  apply step_step_ok in E3.
  assert (step_ok (db (server a)) (db s3)) as H3.
  { transitivity (db s2); [done|]. rewrite E3. apply holdStake_step_ok. }
  destruct (lichessAuth a !! t_userId ta); [|done].
  destruct (lichessAuth a !! t_userId tb); [|done].
  destruct ans; [done| |done].
  match goal with
  | |- context [step ?r ?s4] => destruct (step r s4) as [s5|] eqn:E5
  end; [|done].
  apply step_step_ok in E5. simpl. rewrite E5. simpl.
  transitivity (db s3); [done|]. apply resolveMatch_step_ok.
Qed.

Lemma queueJoin_step_ok u body newId ans now a :
  step_ok (the_db a) (the_db (queueJoin u body newId ans now a).2).
Proof.
  unfold queueJoin. cbv zeta.
  destruct (_ =? 0); [reflexivity|].
  destruct (negb _); [reflexivity|].
  destruct (lichessAuth a !! u); [|reflexivity].
  destruct (existsb _ _); [reflexivity|].
  destruct (_ ++ _) as [|ta [|tb q2]]; try reflexivity.
  apply (queuePair_step_ok newId ta tb _ _ _ _ ans now
           (set_mmQueues _ a)).
Qed.

Lemma playStaked_step_ok u st newId ok a :
  step_ok (the_db a) (the_db (playStaked u st newId ok a).2).
Proof.
  unfold playStaked, the_db. cbv zeta.
  destruct (_ =? 0); [reflexivity|].
  destruct (lichessAuth a !! u); [|reflexivity].
  destruct (step_tx _ (server a)) as [s1|] eqn:E1; [|reflexivity].
  apply step_tx_step_ok in E1 as [x E1]. apply match_create_step_ok in E1.
  destruct (step _ s1) as [s2|] eqn:E2; [|done].
  apply step_step_ok in E2. simpl.
  transitivity (db s1); [done|]. rewrite E2. apply holdStake_step_ok.
Qed.

Lemma exec_step_ok ev a : step_ok (the_db a) (the_db (exec ev a)).
Proof.
  destruct ev; simpl.
  - apply queueJoin_step_ok.
  - reflexivity.
  - apply playStaked_step_ok.
  - apply challengeCreate_step_ok.
  - apply onGameStart_step_ok.
  - apply onGameFinish_step_ok.
  - apply challengeTimeout_step_ok.
  - apply queueTimeout_step_ok.
  - apply holdStake_step_ok.
  - apply resolveMatch_step_ok.
Qed.

Lemma run_step_ok evs a : step_ok (the_db a) (the_db (run evs a)).
Proof.
  revert a. induction evs as [|ev evs IH]; intros a; simpl; [reflexivity|].
  transitivity (the_db (exec ev a)); [apply exec_step_ok | apply IH].
Qed.

(** The ledger is append-only: whatever requests, signals, timers and
    wallet calls follow, every entry stays in the ledger, unchanged and at
    its place. *)
Theorem ledger_append_only evs a :
  ∃ l, txLedger (the_db (run evs a)) = txLedger (the_db a) ++ l.
Proof. apply (run_step_ok evs a). Qed.

(** No balance ever becomes negative: if no balance is negative, none is
    after any sequence of requests, signals, timers and wallet calls. *)
Theorem balances_never_negative evs a :
  nonneg_balances (the_db a) → nonneg_balances (the_db (run evs a)).
Proof. apply (run_step_ok evs a). Qed.

(** A settled escrow is final: in a database where every escrow that is no
    longer held belongs to a match with a recorded result, an escrow row
    that is resolved or refunded is never deleted and keeps that status
    through any sequence of requests, signals, timers and wallet calls. *)
Theorem settled_escrow_is_final evs a id e :
  settled_has_result (the_db a) →
  escrow (the_db a) !! id = Some e →
  status e ≠ held →
  ∃ e', escrow (the_db (run evs a)) !! id = Some e' ∧ status e' = status e.
Proof.
  intros HI He Hs.
  destruct (run_step_ok evs a) as (_ & _ & H3).
  destruct (H3 HI) as [_ Hk]. destruct (Hk id e He) as (e' & He' & Hs').
  eauto.
Qed.

Lemma nonneg_balances_check d :
  forallb (λ kv : string * Z, 0 <=? kv.2) (map_to_list (balance d)) = true →
  nonneg_balances d.
Proof.
  intros H u b Hb. rewrite forallb_forall in H.
  specialize (H (u, b)). simpl in H. apply Z.leb_le, H.
  by apply list_elem_of_In, elem_of_map_to_list.
Qed.

Lemma settled_has_result_check d :
  forallb (λ kv : string * Escrow,
             bool_decide (status kv.2 = held)
             || match matches d !! kv.1 with
                | Some m => bool_decide (is_Some (result m))
                | None => false
                end) (map_to_list (escrow d)) = true →
  settled_has_result d.
Proof.
  intros H id e He Hs. rewrite forallb_forall in H.
  assert (In (id, e) (map_to_list (escrow d))) as Hin
    by (by apply list_elem_of_In, elem_of_map_to_list).
  specialize (H (id, e) Hin). simpl in H.
  rewrite bool_decide_eq_false_2 in H by done. simpl in H.
  destruct (matches d !! id) as [m|]; [|done].
  exists m. split; [done|]. by apply bool_decide_eq_true in H.
Qed.

(** A mixed sequence: a pairing through the queue, a start, a finish, a
    timer, a direct hold and a direct resolution. *)
Definition ex_app : App :=
  mkApp (mkServer ex_db0 ∅ ∅) ∅ {[ "A" := "tokA"; "B" := "tokB" ]}.

Definition ex_events : list Event :=
  [ QueueJoin "A" ex_body "m0" Accepted 7%N;
    QueueJoin "B" ex_body "m1" Accepted 8%N;
    GameStart "A" "g1";
    GameFinish "A" "g1" ex_sum_aborted "m2";
    QueueTimeout "m1" "A" "B" 9%N;
    HoldStake (mkHoldArgs "m1" "B" white 200);
    HoldStake (mkHoldArgs "m1" "B" white 30);
    ResolveMatch (mkResolveArgs "m1" "g2" W (Some "B") (Some "A") (Some "B")) ].

Lemma balances_never_negative_witness :
  nonneg_balances (the_db (run ex_events ex_app)).
Proof.
  apply balances_never_negative, nonneg_balances_check.
  vm_compute. reflexivity.
Defined.

Lemma settled_escrow_is_final_witness :
  let a := run (firstn 4 ex_events) ex_app in
  escrow (the_db a) !! "m1" = Some (mkEscrow 20 20 refunded)
  ∧ ∃ e', escrow (the_db (run (skipn 4 ex_events) a)) !! "m1" = Some e'
          ∧ status e' = refunded.
Proof.
  split; [vm_compute; reflexivity|].
  apply (settled_escrow_is_final (skipn 4 ex_events)
           (run (firstn 4 ex_events) ex_app) "m1" (mkEscrow 20 20 refunded)).
  - apply settled_has_result_check. vm_compute. reflexivity.
  - vm_compute. reflexivity.
  - discriminate.
Defined.

(** *** The queues *)

Lemma splice_user_subset u q t : t ∈ splice_user u q → t ∈ q.
Proof.
  induction q as [|t0 q IH]; simpl; [done|].
  destruct (String.eqb (t_userId t0) u).
  - intros H. by apply elem_of_cons; right.
  - intros [->|H]%elem_of_cons; apply elem_of_cons; auto.
Qed.

Lemma splice_user_length u q : (length (splice_user u q) ≤ length q)%nat.
Proof.
  induction q as [|t0 q IH]; simpl; [done|].
  destruct (String.eqb (t_userId t0) u); simpl; lia.
Qed.

Lemma queues_ok_same a a' :
  mmQueues a' = mmQueues a → lichessAuth a' = lichessAuth a →
  queues_ok a → queues_ok a'.
Proof. unfold queues_ok. by intros -> ->. Qed.

Lemma queuePair_queues newId ta tb st time inc rated ans now a :
  mmQueues (queuePair newId ta tb st time inc rated ans now a).2 = mmQueues a
  ∧ lichessAuth (queuePair newId ta tb st time inc rated ans now a).2
    = lichessAuth a.
Proof. unfold queuePair. repeat case_match; done. Qed.

Lemma queueJoin_queues_ok u body newId ans now a :
  queues_ok a → queues_ok (queueJoin u body newId ans now a).2.
Proof.
  intros Hok. unfold queueJoin. cbv zeta.
  destruct (_ =? 0) eqn:Hs0; [done|].
  destruct (negb _); [done|].
  destruct (lichessAuth a !! u) as [tok|] eqn:Htok; [|done].
  set (key := mmKey _ _ _ _).
  destruct (existsb _ _); [done|].
  assert (∀ q2,
            (∀ t, t ∈ q2 →
                  mmKey (t_time t) (t_inc t) (t_stake t) (t_rated t) = key
                  ∧ 1 ≤ js_num (t_stake t)
                  ∧ is_Some (lichessAuth a !! t_userId t)) →
            (length q2 ≤ 1)%nat →
            queues_ok (set_mmQueues (insert key q2) a)) as Hins.
  { intros q2 Hq2 Hlen k q. simpl. rewrite lookup_insert. case_decide.
    - intros [= <-]. by subst.
    - apply Hok. }
  destruct (mmQueues a !! key) as [q|] eqn:Hq; simpl.
  - destruct (Hok key q Hq) as [Hlen Hts].
    destruct q as [|ta [|tb q]]; simpl in *; [| |lia].
    + apply Hins; [|simpl; lia]. intros t ->%list_elem_of_singleton. simpl.
      repeat split; [apply stakeOf_ge_1 | eauto].
    + eapply queues_ok_same; [apply queuePair_queues..|].
      apply Hins; [|simpl; lia]. by intros t ?%elem_of_nil.
  - apply Hins; [|simpl; lia]. intros t ->%list_elem_of_singleton. simpl.
    repeat split; [apply stakeOf_ge_1 | eauto].
Qed.

Lemma exec_queues_ok ev a : queues_ok a → queues_ok (exec ev a).
Proof.
  intros Hok. destruct ev; simpl; try done.
  - by apply queueJoin_queues_ok.
  - intros key q'. simpl. rewrite lookup_fmap.
    destruct (mmQueues a !! key) as [q|] eqn:Hq; [|done]. intros [= <-].
    destruct (Hok key q Hq) as [Hlen Hts]. split.
    + pose proof (splice_user_length userId q). lia.
    + intros t Ht. by apply Hts, (splice_user_subset userId).
  - eapply queues_ok_same; [| |exact Hok];
      unfold playStaked; cbv zeta; repeat case_match; done.
Qed.

(** Matchmaking keeps its queues in order through any sequence of requests,
    signals and timers: when the invariant holds at the start (as it does
    with empty queues), one ticket at most waits in a queue, and a waiting
    ticket carries the terms of the key of its queue, a stake of at least 1
    and an account with a linked token. *)
Theorem queues_stay_ok evs a : queues_ok a → queues_ok (run evs a).
Proof.
  revert a. induction evs as [|ev evs IH]; intros a Hok; simpl; [done|].
  by apply IH, exec_queues_ok.
Qed.

Lemma queues_stay_ok_witness :
  queues_ok ex_app ∧ queues_ok (run ex_events ex_app).
Proof.
  assert (queues_ok ex_app) as H0.
  { intros k q0 H.
    change (mmQueues ex_app) with (∅ : gmap string (list Ticket)) in H.
    by rewrite lookup_empty in H. }
  split; [exact H0|].
  apply (queues_stay_ok ex_events ex_app). exact H0.
Defined.

(** ** Witnesses of the conservation and settlement lemmas *)

Lemma holdStake_conserves_witness :
  total_credit (holdStake (mkHoldArgs "m1" "A" white 20) ex_db).2
  = total_credit ex_db.
Proof.
  apply (holdStake_conserves (mkHoldArgs "m1" "A" white 20) ex_db).
  - vm_compute. reflexivity.
  - vm_compute. reflexivity.
  - intros e He. vm_compute in He. discriminate.
Defined.

Lemma resolveMatch_draw_abort_conserves_witness :
  (resolveMatch (mkResolveArgs "m1" "g1" D None (Some "A") (Some "B"))
     ex_held).1 = inr tt
  ∧ total_credit
      (resolveMatch (mkResolveArgs "m1" "g1" D None (Some "A") (Some "B"))
         ex_held).2 = total_credit ex_held.
Proof.
  apply (resolveMatch_draw_abort_conserves
           (mkResolveArgs "m1" "g1" D None (Some "A") (Some "B")) ex_held
           (mkMatch None None None 20 None) (mkEscrow 20 20 held)
           "A" "B" 80 80);
    try (vm_compute; reflexivity); try (simpl; lia); try done.
  by left.
Defined.

Lemma resolveMatch_win_settles_witness :
  ∃ d', resolveMatch
          (mkResolveArgs "m1" "g1" W (Some "B") (Some "A") (Some "B")) ex_held
        = (inr tt, d')
        ∧ balance d' !! "B" = Some (80 + 20 + 20)
        ∧ balance d' !! "A" = Some 80
        ∧ escrow d' !! "m1" = Some (mkEscrow 20 20 resolved).
Proof.
  destruct (resolveMatch_win_settles
              (mkResolveArgs "m1" "g1" W (Some "B") (Some "A") (Some "B"))
              ex_held (mkMatch None None None 20 None) (mkEscrow 20 20 held)
              "B" "A" 20 20 80 80)
    as (d' & H1 & H2 & H3 & H4 & _);
    try (vm_compute; reflexivity); try (simpl; lia); try done.
  - right. by repeat split.
  - exists d'. by repeat split.
Defined.

Lemma onGameFinish_staked_result_not_settled_witness :
  let s' := onGameFinish "A" "g1" ex_sum_white_wins "m2" ex_started in
  balance (db s') = balance (db ex_started)
  ∧ txLedger (db s') = txLedger (db ex_started)
  ∧ escrow (db s') = escrow (db ex_started)
  ∧ matches (db s') !! "m1" ≫= result = Some W.
Proof.
  apply (onGameFinish_staked_result_not_settled ex_started "A" "g1"
           ex_sum_white_wins "m2" "m1" (mkMatch (Some "g1") None None 20 None) W).
  - discriminate.
  - vm_compute. reflexivity.
  - simpl. lia.
  - vm_compute. reflexivity.
Defined.

(** ** Direct staked play *)

(** [/play/staked] with a stake that is absent or not positive, or for an
    account without linked token, answers 400 and changes nothing.  With a
    positive stake that the account can pay (and a fresh match id) it
    creates the match, debits the stake, holds it as white in a new escrow
    row and registers the account as pending; the total credit is
    conserved, and no pending challenge is registered: no timer will ever
    refund this stake.  That state is reached even when the seek fails and
    the answer is 500. *)
Theorem playStaked_holds u stake newId ok a :
  (Z.max 0 (default 0 stake) = 0 ∨ lichessAuth a !! u = None →
   playStaked u stake newId ok a = (BadRequest, a))
  ∧ (∀ st bu,
       default 0 stake = st → 0 < st →
       is_Some (lichessAuth a !! u) →
       matches (the_db a) !! newId = None →
       escrow (the_db a) !! newId = None →
       balance (the_db a) !! u = Some bu → st ≤ bu →
       has_entry u stake_hold newId (txLedger (the_db a)) = false →
       let r := playStaked u stake newId ok a in
       r.1 = (if ok then Launched else ServerError)
       ∧ balance (the_db r.2) = <[u:=bu - st]> (balance (the_db a))
       ∧ escrow (the_db r.2)
         = <[newId:=mkEscrow st 0 held]> (escrow (the_db a))
       ∧ matches (the_db r.2)
         = <[newId:=new_match st]> (matches (the_db a))
       ∧ txLedger (the_db r.2)
         = txLedger (the_db a) ++ [hold_entry u newId st]
       ∧ pendingStakeByUser (server r.2)
         = <[u:=newId]> (pendingStakeByUser (server a))
       ∧ pendingChallenges (server r.2) = pendingChallenges (server a)
       ∧ total_credit (the_db r.2) = total_credit (the_db a)).
Proof.
  split.
  - intros [H|H]; unfold playStaked; cbv zeta.
    + by rewrite H.
    + destruct (_ =? 0); [done|]. by rewrite H.
  - intros st bu Hst Hpos [tok Htok] Hm He Hb Hle Hn. unfold the_db in *.
    simpl. unfold playStaked. cbv zeta. rewrite Hst.
    assert (0 `max` st = st) as -> by lia.
    assert ((st =? 0) = false) as -> by (apply Z.eqb_neq; lia).
    rewrite Htok. unfold step_tx, match_create. rewrite Hm. simpl.
    rewrite (holdStake_run_create newId u white st _ bu (new_match st));
      try done; [|apply lookup_insert_eq].
    simpl. repeat split; try done.
    unfold total_credit, sum_balances, sum_held. simpl.
    rewrite (map_sum_insert_Some _ _ _ bu) by done.
    rewrite map_sum_insert_None by done.
    unfold held_amount, side_hold. simpl. lia.
Qed.

Lemma playStaked_holds_witness :
  playStaked "A" (Some 0) "m1" true ex_app = (BadRequest, ex_app)
  ∧ (let r := playStaked "A" (Some 20) "m1" false ex_app in
     r.1 = ServerError
     ∧ balance (the_db r.2) = <[ "A" := 100 - 20 ]> (balance (the_db ex_app))
     ∧ pendingChallenges (server r.2) = pendingChallenges (server ex_app)
     ∧ total_credit (the_db r.2) = total_credit (the_db ex_app)).
Proof.
  split.
  - apply (proj1 (playStaked_holds "A" (Some 0) "m1" true ex_app)).
    left. reflexivity.
  - destruct (proj2 (playStaked_holds "A" (Some 20) "m1" false ex_app) 20 100)
      as (H1 & H2 & _ & _ & _ & _ & H7 & H8);
      try (vm_compute; reflexivity); try lia; try done.
Defined.

(** ** A challenge that the game server does not take *)

(** When the opponent has no token or the challenge request fails,
    [/play/staked/challenge] stops after the hold: the stake of the
    challenger stays held, both accounts stay registered as pending, and no
    pending challenge is registered, so that no timer is armed for it. *)
Theorem challengeCreate_failure_keeps_hold s mid u o st time inc rated oa ok bu :
  oa && ok = false →
  matches (db s) !! mid = None → escrow (db s) !! mid = None →
  0 < st →
  balance (db s) !! u = Some bu → st ≤ bu →
  has_entry u stake_hold mid (txLedger (db s)) = false →
  let s' := challengeCreate mid u o st time inc rated oa ok s in
  balance (db s') = <[u:=bu - st]> (balance (db s))
  ∧ escrow (db s') = <[mid:=mkEscrow st 0 held]> (escrow (db s))
  ∧ txLedger (db s') = txLedger (db s) ++ [hold_entry u mid st]
  ∧ pendingStakeByUser s' = <[o:=mid]> (<[u:=mid]> (pendingStakeByUser s))
  ∧ pendingChallenges s' = pendingChallenges s.
Proof.
  intros Hfail Hm He Hst Hb Hle Hn. simpl.
  unfold challengeCreate, step_tx, match_create. rewrite Hm. simpl.
  rewrite (holdStake_run_create mid u white st _ bu (new_match st));
    try done; [|apply lookup_insert_eq].
  simpl. by rewrite Hfail.
Qed.

Lemma challengeCreate_failure_keeps_hold_witness :
  let s' := challengeCreate "m1" "A" "B" 20 3 0 false true false
              (mkServer ex_db0 ∅ ∅) in
  balance (db s') = <[ "A" := 100 - 20 ]> (balance ex_db0)
  ∧ escrow (db s') = <[ "m1" := mkEscrow 20 0 held ]> (escrow ex_db0)
  ∧ txLedger (db s') = txLedger ex_db0 ++ [hold_entry "A" "m1" 20]
  ∧ pendingStakeByUser s' = <[ "B" := "m1" ]> (<[ "A" := "m1" ]> ∅)
  ∧ pendingChallenges s' = ∅.
Proof.
  apply (challengeCreate_failure_keeps_hold (mkServer ex_db0 ∅ ∅)
           "m1" "A" "B" 20 3 0 false true false 100);
    try (vm_compute; reflexivity); try lia; done.
Defined.

(** When the game server refuses the challenge of a pair matched by the
    queue, the wager is cancelled at once: both players have the balance
    they had before, the match has the result abort, the escrow is refunded
    and neither player stays registered as pending. *)
Theorem queueMatched_refused_refunds s mid a b st time inc rated now ba bb :
  matches (db s) !! mid = None → escrow (db s) !! mid = None →
  0 < st → a ≠ "" → b ≠ "" → a ≠ b →
  balance (db s) !! a = Some ba → st ≤ ba →
  balance (db s) !! b = Some bb → st ≤ bb →
  has_entry a stake_hold mid (txLedger (db s)) = false →
  has_entry b stake_hold mid (txLedger (db s)) = false →
  gid_free (cancelId now) (matches (db s)) →
  has_entry a refund (cancelId now) (txLedger (db s)) = false →
  has_entry b refund (cancelId now) (txLedger (db s)) = false →
  let s' := queueMatched mid a b st time inc rated false now s in
  balance (db s') = balance (db s)
  ∧ matches (db s') !! mid ≫= result = Some abort
  ∧ status <$> escrow (db s') !! mid = Some refunded
  ∧ pendingStakeByUser s'
    = delete b (delete a (<[b:=mid]> (<[a:=mid]> (pendingStakeByUser s))))
  ∧ pendingChallenges s' = pendingChallenges s.
Proof.
  intros Hm He Hst Hane Hbne Hab Hba Hlea Hbb Hleb Hha Hhb Hfree Hra Hrb.
  assert (queueMatched mid a b st time inc rated false now s
          = queueTimeout mid a b now
              (mkServer (db_paired mid a b st ba bb (db s))
                 (<[b:=mid]> (<[a:=mid]> (pendingStakeByUser s)))
                 (pendingChallenges s))) as ->.
  { unfold queueMatched, step_tx, match_create. rewrite Hm. simpl.
    rewrite (holdStake_run_create mid a white st _ ba (new_match st));
      try done; [|apply lookup_insert_eq].
    simpl.
    rewrite (holdStake_run_update mid b black st _ bb (mkEscrow st 0 held));
      try done; simpl.
    - unfold side_hold. simpl. rewrite Z.add_0_r.
      unfold queueTimeout, db_paired. simpl. rewrite lookup_insert_eq. simpl.
      unfold step. by destruct (resolveMatch _ _) as [[?|[]] ?].
    - by rewrite lookup_insert_ne.
    - unfold hold_entry. rewrite has_entry_app_other; [done|].
      intros (? & _). congruence.
    - apply lookup_insert_eq. }
  destruct (queueTimeout_run s mid a b st ba bb now
              (<[b:=mid]> (<[a:=mid]> (pendingStakeByUser s)))
              (pendingChallenges s))
    as (H1 & H2 & H3 & _ & H5); try done.
  cbv zeta. rewrite H1, H2, H3, H5. simpl. repeat split.
  unfold queueTimeout. simpl. rewrite lookup_insert_eq. simpl.
  by destruct (resolveMatch _ _) as [[?|[]] ?].
Qed.

Lemma queueMatched_refused_refunds_witness :
  let s := mkServer ex_db0 ∅ ∅ in
  let s' := queueMatched "m1" "A" "B" 20 3 0 false false 7%N s in
  balance (db s') = balance (db s)
  ∧ status <$> escrow (db s') !! "m1" = Some refunded.
Proof.
  destruct (queueMatched_refused_refunds (mkServer ex_db0 ∅ ∅)
              "m1" "A" "B" 20 3 0 false 7%N 100 100)
    as (H1 & _ & H3 & _);
    try (vm_compute; reflexivity); try lia; try done;
    try apply gid_free_empty.
Defined.

(** ** Repeated signals *)

(** A resolution that goes through either found a recorded result and
    changed nothing, or left the game id on the match. *)
Lemma resolveMatch_ok_cases args d d' :
  resolveMatch args d = (inr tt, d') →
  (d' = d ∧ ∃ m, matches d !! r_matchId args = Some m ∧ is_Some (result m))
  ∨ ∃ m', matches d' !! r_matchId args = Some m'
          ∧ lichessGameId m' = Some (r_lichessGameId args).
Proof.
  unfold resolveMatch, transaction.
  destruct (resolveMatch_body args d) as [err|[[] d1]] eqn:E; [done|].
  intros [= <-]. revert E.
  unfold resolveMatch_body. unfold bind at 1. unfold match_findUnique.
  destruct (matches d !! r_matchId args) as [m|] eqn:Hm; [|done].
  case_bool_decide as Hr.
  { intros [= <-]. left. eauto. }
  unfold bind at 1. unfold escrow_findUnique. unfold bind at 1.
  destruct (match_update_link_result _ _ _ d) as [e|[[] d2]] eqn:Hu; [done|].
  apply match_update_link_result_inv in Hu as (m0 & Hm0 & ->).
  intros Hrest. right.
  assert (matches d1 = matches (set_matches
            (insert (r_matchId args)
               (linked (r_lichessGameId args) (r_result args) m0)) d)) as Hk.
  { revert Hrest. generalize (set_matches
            (insert (r_matchId args)
               (linked (r_lichessGameId args) (r_result args) m0)) d).
    intros d2 Hrest. revert Hrest.
    match goal with |- ?c d2 = _ → _ =>
      assert (keeps matches c) as K; [|apply K] end.
    frame. }
  rewrite Hk. simpl. rewrite lookup_insert_eq. by eexists.
Qed.

Lemma truthy_cancelId now : truthy (Some (cancelId now)) = true.
Proof. done. Qed.

(** A timer callback that found a game id on the match, or whose
    cancellation went through, is final: when the same callback runs again,
    at whatever time, the state stays as the first run left it. *)
Theorem timeout_callbacks_idempotent s mid x y now now' :
  truthy (matches (db s) !! mid ≫= lichessGameId) = true
  ∨ (resolveMatch (mkResolveArgs mid (cancelId now) abort None (Some x)
                                 (Some y)) (db s)).1 = inr tt →
  queueTimeout mid x y now' (queueTimeout mid x y now s)
    = queueTimeout mid x y now s
  ∧ challengeTimeout mid x y now' (challengeTimeout mid x y now s)
    = challengeTimeout mid x y now s.
Proof.
  intros [Hlinked|Hok].
  { assert (∀ t, queueTimeout mid x y t s = s) as Hq
      by (intros t; unfold queueTimeout; cbv zeta; by rewrite Hlinked).
    assert (∀ t, challengeTimeout mid x y t s = s) as Hc
      by (intros t; unfold challengeTimeout; cbv zeta; by rewrite Hlinked).
    by rewrite !Hq, !Hc. }
  destruct (resolveMatch _ (db s)) as [[e|[]] d'] eqn:E; [done|]. clear Hok.
  assert (∀ P : gmap string string,
            delete y (delete x (delete y (delete x P))) = delete y (delete x P))
    as Hdel.
  { intros P. apply map_eq. intros j.
    destruct (decide (j = y)) as [->|]; [by rewrite !lookup_delete_eq|].
    rewrite !(lookup_delete_ne _ y) by done.
    destruct (decide (j = x)) as [->|]; [by rewrite !lookup_delete_eq|].
    by rewrite !lookup_delete_ne by done. }
  apply resolveMatch_ok_cases in E as Hc. simpl in Hc. split.
  - unfold queueTimeout at 2 3. cbv zeta.
    destruct (negb (truthy (matches (db s) !! mid ≫= lichessGameId))) eqn:Hg.
    + rewrite E. destruct Hc as [[-> (m & Hm & Hr)]|(m' & Hm' & Hl)].
      * unfold queueTimeout. simpl. rewrite Hg.
        rewrite (resolveMatch_already_resolved _ _ m) by done.
        unfold set_pendingStake, set_db. simpl. by rewrite Hdel.
      * unfold queueTimeout. simpl. rewrite Hm'. simpl. rewrite Hl.
        by rewrite truthy_cancelId.
    + unfold queueTimeout. cbv zeta. by rewrite Hg.
  - unfold challengeTimeout at 2 3. cbv zeta.
    destruct (negb (truthy (matches (db s) !! mid ≫= lichessGameId))
              && negb (from_option started false (pendingChallenges s !! mid)))
      eqn:Hg.
    + rewrite E. destruct Hc as [[-> (m & Hm & Hr)]|(m' & Hm' & Hl)].
      * unfold challengeTimeout. simpl. rewrite lookup_delete_eq. simpl.
        apply andb_true_iff in Hg as [Hg _]. rewrite Hg. simpl.
        rewrite (resolveMatch_already_resolved _ _ m) by done.
        unfold set_pendingChallenges, set_pendingStake, set_db. simpl.
        rewrite Hdel. f_equal. apply map_eq. intros j.
        destruct (decide (j = mid)) as [->|]; [by rewrite !lookup_delete_eq|].
        by rewrite !lookup_delete_ne by done.
      * unfold challengeTimeout. simpl. rewrite Hm'. simpl. rewrite Hl.
        by rewrite truthy_cancelId.
    + unfold challengeTimeout. cbv zeta. by rewrite Hg.
Qed.

Lemma timeout_callbacks_idempotent_witness :
  let s := mkServer ex_held (<[ "B" := "m1" ]> (<[ "A" := "m1" ]> ∅)) ∅ in
  queueTimeout "m1" "A" "B" 9%N (queueTimeout "m1" "A" "B" 7%N s)
    = queueTimeout "m1" "A" "B" 7%N s
  ∧ challengeTimeout "m1" "A" "B" 9%N (challengeTimeout "m1" "A" "B" 7%N s)
    = challengeTimeout "m1" "A" "B" 7%N s.
Proof.
  apply (timeout_callbacks_idempotent
           (mkServer ex_held (<[ "B" := "m1" ]> (<[ "A" := "m1" ]> ∅)) ∅)
           "m1" "A" "B" 7%N 9%N).
  right. vm_compute. reflexivity.
Defined.

Lemma gid_taken_insert_self id gid x (ms : gmap string Match) :
  gid_taken id gid (<[id:=x]> ms) = gid_taken id gid ms.
Proof.
  destruct (gid_taken id gid ms) eqn:H.
  - apply not_false_iff_true. intros H'. rewrite gid_taken_false in H'.
    assert (gid_taken id gid ms = false); [|congruence].
    apply gid_taken_false. intros j m Hj Hne. apply (H' j m); [|done].
    by rewrite lookup_insert_ne.
  - apply gid_taken_false. rewrite gid_taken_false in H. intros j m Hj Hne.
    rewrite lookup_insert_ne in Hj by done. eauto.
Qed.

Lemma onGameStart_cases u gid s :
  onGameStart u gid s = s
  ∨ ∃ mid m,
      gid ≠ "" ∧ pendingStakeByUser s !! u = Some mid ∧ mid ≠ ""
      ∧ matches (db s) !! mid = Some m
      ∧ gid_taken mid gid (matches (db s)) = false
      ∧ onGameStart u gid s
        = mkServer
            (set_matches
               (insert mid (mkMatch (Some gid) (whiteId m) (blackId m)
                                    (stakeCC m) (result m))) (db s))
            (pendingStakeByUser s)
            (alter mark_started mid (pendingChallenges s)).
Proof.
  unfold onGameStart. simpl.
  destruct (String.eqb_spec gid ""); simpl; [by left|].
  destruct (pendingStakeByUser s !! u) as [mid|] eqn:Hp; [|by left].
  simpl. destruct (String.eqb_spec mid ""); simpl; [by left|].
  unfold match_update_link, match_check_update.
  destruct (matches (db s) !! mid) as [m|] eqn:Hm; [|by left]. simpl.
  destruct (gid_taken mid gid (matches (db s))) eqn:Ht; [by left|].
  right. exists mid, m. by destruct s.
Qed.

(** The start handler only links: it moves no credit, touches no escrow and
    no registration of a pending stake, changes neither the stake nor the
    result of any match, and gives a match no other game id than the one
    signalled.  It does nothing at all for an account without pending wager,
    and a start signal delivered twice leaves the state of the first
    delivery. *)
Theorem onGameStart_links_only u gid s :
  let s' := onGameStart u gid s in
  onGameStart u gid s' = s'
  ∧ balance (db s') = balance (db s)
  ∧ txLedger (db s') = txLedger (db s)
  ∧ escrow (db s') = escrow (db s)
  ∧ pendingStakeByUser s' = pendingStakeByUser s
  ∧ (pendingStakeByUser s !! u = None → s' = s)
  ∧ (∀ id m, matches (db s') !! id = Some m →
       ∃ m0, matches (db s) !! id = Some m0
             ∧ result m = result m0 ∧ stakeCC m = stakeCC m0
             ∧ (lichessGameId m = lichessGameId m0
                ∨ lichessGameId m = Some gid)).
Proof.
  cbv zeta.
  destruct (onGameStart_cases u gid s)
    as [E|(mid & m & Hg & Hp & Hmid & Hm & Ht & E)]; rewrite E.
  - rewrite E. repeat split; eauto 10.
  - simpl. repeat split.
    + unfold onGameStart. simpl.
      destruct (String.eqb_spec gid ""); [done|]. simpl. rewrite Hp. simpl.
      destruct (String.eqb_spec mid ""); [done|]. simpl.
      unfold match_update_link, match_check_update. simpl.
      rewrite lookup_insert_eq. simpl.
      rewrite gid_taken_insert_self, Ht. simpl.
      unfold set_pendingChallenges, set_db, set_matches. simpl.
      rewrite insert_insert_eq. f_equal. apply map_eq. intros j.
      destruct (decide (j = mid)) as [->|].
      * rewrite !lookup_alter_eq. by destruct (pendingChallenges s !! mid).
      * by rewrite !lookup_alter_ne.
    + intros Hn. congruence.
    + intros id m1. destruct (decide (id = mid)) as [->|].
      * rewrite lookup_insert_eq. intros [= <-]. exists m. simpl. eauto.
      * rewrite lookup_insert_ne by done. intros Hid. exists m1. eauto.
Qed.

(** ** A staked game without decisive result, through the finish handler *)

(** When the finish signal of a staked game carries no determinate result
    (the game was aborted, or the colour of the account is not known) and
    the match row names no side, as is the case of every row created for a
    wager, the handler resolves the match as abort without any side to
    refund: the escrow becomes refunded while balances and ledger stay as
    they were.  The held stakes are lost to both players. *)
Theorem onGameFinish_staked_abort_forfeits s userId gid sum newId id m e :
  gid ≠ "" →
  gid_unique (matches (db s)) →
  match_findByGid gid (matches (db s)) = Some (id, m) →
  0 < stakeCC m →
  result m = None → whiteId m = None → blackId m = None →
  finishResult sum (finish_color userId sum (db s)) = None →
  escrow (db s) !! id = Some e →
  status e = held →
  ¬ (whiteHold e = 0 ∧ blackHold e = 0) →
  let s' := onGameFinish userId gid sum newId s in
  balance (db s') = balance (db s)
  ∧ txLedger (db s') = txLedger (db s)
  ∧ escrow (db s') = <[id:=with_status refunded e]> (escrow (db s))
  ∧ matches (db s') !! id ≫= result = Some abort
  ∧ total_credit (db s')
    = total_credit (db s) - (whiteHold e + blackHold e).
Proof.
  intros Hg Huniq Hfind Hst Hres Hw Hb Hfin He Hheld Hnz. simpl.
  unfold onGameFinish.
  assert (truthy (Some gid) = true) as ->.
  { unfold truthy. by destruct (String.eqb_spec gid ""). }
  fold (finish_color userId sum (db s)). rewrite Hfin.
  unfold match_upsert. rewrite Hfind. simpl.
  assert ((0 <? stakeCC m) = true) as -> by (by apply Z.ltb_lt).
  apply match_findByGid_Some in Hfind as [Hm Hgm].
  rewrite Hw, Hb.
  assert (set_matches (insert id m) (db s) = db s) as ->.
  { unfold set_matches. rewrite insert_id by done. by destruct (db s). }
  assert (gid_taken id gid (matches (db s)) = false) as Ht.
  { apply gid_taken_false. intros j mj Hj Hne Hgj.
    destruct Hne. by apply (Huniq j id mj m gid). }
  unfold resolveMatch, transaction.
  rewrite (resolveMatch_body_unfold _ _ m); try done.
  simpl. rewrite He. simpl. rewrite holds_not_both_zero by done. simpl.
  unfold bind, ret, escrow_update. simpl. rewrite He. simpl.
  match goal with
  | |- context [if ?c then set_pendingStake _ ?x else ?x] => destruct c
  end; simpl; rewrite lookup_insert_eq; simpl; repeat split;
    unfold total_credit, sum_balances, sum_held; simpl;
    rewrite (map_sum_insert_Some _ _ _ e) by done;
    unfold held_amount; simpl; rewrite Hheld; simpl; lia.
Qed.

Lemma onGameFinish_staked_abort_forfeits_witness :
  let s := onGameStart "A" "g1"
             (challengeCreate "m1" "A" "B" 20 3 0 false true true
                (mkServer ex_db0 ∅ ∅)) in
  let s' := onGameFinish "A" "g1" ex_sum_aborted "m2" s in
  balance (db s') = balance (db s)
  ∧ escrow (db s') = <[ "m1" := mkEscrow 20 0 refunded ]> (escrow (db s))
  ∧ total_credit (db s') = total_credit (db s) - (20 + 0).
Proof.
  destruct (onGameFinish_staked_abort_forfeits
              (onGameStart "A" "g1"
                 (challengeCreate "m1" "A" "B" 20 3 0 false true true
                    (mkServer ex_db0 ∅ ∅)))
              "A" "g1" ex_sum_aborted "m2" "m1"
              (mkMatch (Some "g1") None None 20 None) (mkEscrow 20 0 held))
    as (H1 & _ & H3 & _ & H5);
    try (vm_compute; reflexivity); try (simpl; lia); try done.
  - intros i j mi mj g Hi Hj _ _.
    assert (matches (db (onGameStart "A" "g1"
                 (challengeCreate "m1" "A" "B" 20 3 0 false true true
                    (mkServer ex_db0 ∅ ∅))))
            = {[ "m1" := mkMatch (Some "g1") None None 20 None ]}) as E
      by (vm_compute; reflexivity).
    rewrite E in Hi, Hj.
    apply lookup_singleton_Some in Hi as [<- _].
    by apply lookup_singleton_Some in Hj as [<- _].
Defined.

(** ** What the wallet functions leave alone *)

(** The reach of a wallet operation on the match [id] with ledger reference
    [ref] on behalf of the accounts [S]: the user table and every other
    match and escrow row are as before, only balances of accounts in [S]
    change, and the ledger is extended by entries of accounts in [S] with
    the reference [ref]. *)
Definition touches_only (id ref : string) (S : string → Prop) (d d' : Db)
    : Prop :=
  user d' = user d
  ∧ (∀ j, j ≠ id → matches d' !! j = matches d !! j)
  ∧ (∀ j, j ≠ id → escrow d' !! j = escrow d !! j)
  ∧ (∀ v, ¬ S v → balance d' !! v = balance d !! v)
  ∧ ∃ l, txLedger d' = txLedger d ++ l
         ∧ Forall (λ t, S (tx_userId t) ∧ tx_ref t = Some ref) l.

#[global] Instance touches_only_refl id ref S : Reflexive (touches_only id ref S).
Proof.
  intros d. repeat split; try done. exists []. by rewrite app_nil_r.
Qed.

#[global] Instance touches_only_trans id ref S :
  Transitive (touches_only id ref S).
Proof.
  intros d1 d2 d3 (U1 & M1 & E1 & B1 & l1 & L1 & F1)
    (U2 & M2 & E2 & B2 & l2 & L2 & F2).
  split; [congruence|]. split; [|split; [|split]].
  - intros j Hj. by rewrite M2, M1.
  - intros j Hj. by rewrite E2, E1.
  - intros v Hv. by rewrite B2, B1.
  - exists (l1 ++ l2). split.
    + by rewrite L2, L1, app_assoc.
    + by apply Forall_app.
Qed.

Lemma ensureTx_touches_only id ref (S : string → Prop) u t a :
  S u → respects (touches_only id ref S) (ensureTx u t a (Some ref)).
Proof.
  intros Hu d e d' H.
  apply ensureTx_inv in H as [->|(b & Hb & ->)]; [reflexivity|].
  repeat split; try done.
  - intros v Hv. simpl. rewrite lookup_insert_ne; [done|]. by intros ->.
  - eexists. split; [done|]. by repeat constructor.
Qed.

Lemma when_ensureTx_touches_only id ref (S : string → Prop) b u t a :
  (b = true → S u) →
  respects (touches_only id ref S)
    (when b (ensureTx u t a (Some ref) ;;; ret tt)).
Proof.
  intros H. apply respects_when; [apply _..|]. intros Hb.
  apply respects_bind; [apply _ | by apply ensureTx_touches_only; auto |].
  intros _. apply respects_ret, _.
Qed.

Lemma escrow_update_touches_only id ref S g :
  respects (touches_only id ref S) (escrow_update id g).
Proof.
  intros d x d'. unfold escrow_update.
  destruct (escrow d !! id); [|done]. intros [= _ <-].
  repeat split; try done.
  - intros j Hj. simpl. by rewrite lookup_insert_ne.
  - exists []. by rewrite app_nil_r.
Qed.

Lemma match_update_link_result_touches_only id ref S gid r :
  respects (touches_only id ref S) (match_update_link_result id gid r).
Proof.
  intros d [] d' H.
  apply match_update_link_result_inv in H as (m & Hm & ->).
  repeat split; try done.
  - intros j Hj. simpl. by rewrite lookup_insert_ne.
  - exists []. by rewrite app_nil_r.
Qed.

Lemma truthy_the o : truthy o = true → Some (the o) = o.
Proof. by destruct o. Qed.

(** [resolveMatch] reaches only its own match: the user table and all other
    match and escrow rows are as before, no balance changes but that of the
    winner or of a side it was given, and every ledger entry it writes
    belongs to one of those accounts and refers to the game id of the
    call. *)
Theorem resolveMatch_touches_only args d :
  touches_only (r_matchId args) (r_lichessGameId args)
    (λ v, Some v = winnerUserId args ∨ Some v = whiteUserId args
          ∨ Some v = blackUserId args)
    d (resolveMatch args d).2.
Proof.
  unfold resolveMatch. apply respects_transaction; [apply _|].
  unfold resolveMatch_body.
  apply respects_bind; [apply _ | apply respects_read, _ |].
  intros [m|]; [|apply respects_throw].
  destruct (bool_decide _); [apply respects_ret, _|].
  apply respects_bind; [apply _ | apply respects_read, _ |].
  intros esc. cbv zeta.
  apply respects_bind;
    [apply _ | apply match_update_link_result_touches_only |].
  intros _. destruct (_ || _); [apply respects_ret, _|].
  destruct (r_result args).
  - destruct (negb (truthy (winnerUserId args))) eqn:Hw;
      [apply respects_throw|].
    apply negb_false_iff, truthy_the in Hw.
    repeat (apply respects_bind; [apply _ | | intros _]);
      try apply escrow_update_touches_only;
      apply when_ensureTx_touches_only; try (intros _; by left).
    intros Hl. apply truthy_the in Hl. rewrite Hl.
    case_bool_decide; auto.
  - apply respects_ret, _.
  - repeat (apply respects_bind; [apply _ | | intros _]);
      try apply escrow_update_touches_only;
      apply when_ensureTx_touches_only; intros Hb;
      apply andb_true_iff in Hb as [Hb _]; apply truthy_the in Hb; auto.
  - repeat (apply respects_bind; [apply _ | | intros _]);
      try apply escrow_update_touches_only;
      apply when_ensureTx_touches_only; intros Hb;
      apply andb_true_iff in Hb as [Hb _]; apply truthy_the in Hb; auto.
Qed.

(** [holdStake] reaches only the escrow row of its match and the account it
    debits: no match row changes, no other escrow row and no other balance;
    the ledger gets at most entries of that account referring to the match;
    and the status of the escrow row is the one it had, or held for a row
    that the hold creates. *)
Theorem holdStake_touches_only args d :
  let d' := (holdStake args d).2 in
  touches_only (h_matchId args) (h_matchId args) (λ v, v = whoUserId args) d d'
  ∧ matches d' = matches d
  ∧ (∀ e', escrow d' !! h_matchId args = Some e' →
           status e' = from_option status held (escrow d !! h_matchId args)).
Proof.
  cbv zeta.
  assert (∀ d1,
            d1 = d
            ∨ (∃ b, balance d !! whoUserId args = Some b ∧ stake args ≤ b
                    ∧ d1 = set_balance
                             (insert (whoUserId args) (b - stake args))
                             (set_txLedger
                                (λ l, l ++ [hold_entry (whoUserId args)
                                              (h_matchId args) (stake args)])
                                d)) →
            ∀ e1,
              touches_only (h_matchId args) (h_matchId args)
                (λ v, v = whoUserId args) d
                (set_escrow (insert (h_matchId args) e1) d1)
              ∧ matches (set_escrow (insert (h_matchId args) e1) d1)
                = matches d) as Hstep.
  { intros d1 [->|(b & Hb & Hle & ->)] e1; simpl.
    - repeat split; try done.
      + intros j Hj. simpl. by rewrite lookup_insert_ne.
      + exists []. by rewrite app_nil_r.
    - repeat split; try done.
      + intros j Hj. simpl. by rewrite lookup_insert_ne.
      + intros v Hv. simpl. by rewrite lookup_insert_ne.
      + eexists. split; [done|]. by repeat constructor. }
  destruct (holdStake_inv args d) as [->|(d1 & Hd1 & Hesc)].
  { repeat split; try done; try reflexivity.
    - exists []. by rewrite app_nil_r.
    - intros e' He'. by rewrite He'. }
  destruct Hesc as [(Hn & _ & w & b & ->)|(e & w & b & He & ->)].
  - destruct (Hstep d1 Hd1 (mkEscrow w b held)) as [H1 H2].
    split; [done|]. split; [done|]. intros e'. simpl.
    rewrite lookup_insert_eq, Hn. by intros [= <-].
  - destruct (Hstep d1 Hd1 (with_holds w b e)) as [H1 H2].
    split; [done|]. split; [done|]. intros e'. simpl.
    rewrite lookup_insert_eq, He. by intros [= <-].
Qed.

(** * The PKCE helpers (src/chesscoin-backend/src/pkce.ts, lines 1-14) *)

(** A [Buffer] is a list of bytes.  [buf.toString('base64')] is the
    encoding of RFC 4648 with padding: three bytes give four characters of
    the alphabet below, a last group of one or two bytes gives two or three
    characters followed by [==] or [=]. *)
Definition b64_alphabet : string :=
  "ABCDEFGHIJKLMNOPQRSTUVWXYZabcdefghijklmnopqrstuvwxyz0123456789+/".

Definition b64_char (n : N) : ascii :=
  default "A"%char (String.get (N.to_nat n) b64_alphabet).

Fixpoint base64 (buf : list Byte.byte) : string :=
  match buf with
  | [] => ""
  | [a] =>
      let x := Byte.to_N a in
      String (b64_char (N.shiftr x 2))
        (String (b64_char (N.shiftl (N.land x 3) 4)) "==")
  | [a; b] =>
      let x := Byte.to_N a in
      let y := Byte.to_N b in
      String (b64_char (N.shiftr x 2))
        (String (b64_char (N.lor (N.shiftl (N.land x 3) 4) (N.shiftr y 4)))
           (String (b64_char (N.shiftl (N.land y 15) 2)) "="))
  | a :: b :: c :: rest =>
      let x := Byte.to_N a in
      let y := Byte.to_N b in
      let z := Byte.to_N c in
      String (b64_char (N.shiftr x 2))
        (String (b64_char (N.lor (N.shiftl (N.land x 3) 4) (N.shiftr y 4)))
           (String (b64_char (N.lor (N.shiftl (N.land y 15) 2) (N.shiftr z 6)))
              (String (b64_char (N.land z 63)) (base64 rest))))
  end.

(** [s.replace(/x/g, y)] for single characters [x] and [y]. *)
Fixpoint replace_char (x y : ascii) (s : string) : string :=
  match s with
  | EmptyString => EmptyString
  | String c s' =>
      String (if Ascii.eqb c x then y else c) (replace_char x y s')
  end.

(** [s.replace(/=+$/g, '')]: the run of [=] at the end of the string is
    removed. *)
Fixpoint strip_padding (s : string) : string :=
  match s with
  | EmptyString => EmptyString
  | String c s' =>
      let r := strip_padding s' in
      if Ascii.eqb c "="%char && String.eqb r "" then "" else String c r
  end.

(** [base64url(buf)] *)
Definition base64url (buf : list Byte.byte) : string :=
  strip_padding (replace_char "/" "_" (replace_char "+" "-" (base64 buf))).

(** The unreserved characters that a PKCE code verifier may use, as far as
    this encoding produces them: letters, digits, [-] and [_]. *)
Definition url_safe (c : ascii) : bool :=
  let n := N_of_ascii c in
  ((65 <=? n) && (n <=? 90))%N || ((97 <=? n) && (n <=? 122))%N
  || ((48 <=? n) && (n <=? 57))%N || Ascii.eqb c "-" || Ascii.eqb c "_".

Definition url_char (n : N) : ascii :=
  let c := b64_char n in
  let c1 := if Ascii.eqb c "+" then "-"%char else c in
  if Ascii.eqb c1 "/" then "_"%char else c1.

Lemma url_char_safe n : url_safe (url_char n) = true.
Proof.
  unfold url_char, b64_char.
  destruct (decide (N.to_nat n < 64)%nat) as [H|H].
  - revert H. generalize (N.to_nat n). intros k H.
    do 64 (destruct k as [|k]; [vm_compute; reflexivity|]). lia.
  - assert (String.get (N.to_nat n) b64_alphabet = None) as ->; [|done].
    revert H. generalize (N.to_nat n). intros k H.
    do 64 (destruct k as [|k]; [lia|]). done.
Qed.

Lemma url_safe_not_eq c : url_safe c = true → Ascii.eqb c "=" = false.
Proof.
  destruct (Ascii.eqb_spec c "="%char) as [->|]; [|done]. by vm_compute.
Qed.

Lemma base64url_cons n s :
  strip_padding
    (replace_char "/" "_" (replace_char "+" "-" (String (b64_char n) s)))
  = String (url_char n)
      (strip_padding (replace_char "/" "_" (replace_char "+" "-" s))).
Proof.
  simpl. fold (url_char n).
  by rewrite (url_safe_not_eq _ (url_char_safe n)).
Qed.

Lemma list_ind3 {A} (P : list A → Prop) :
  P [] → (∀ a, P [a]) → (∀ a b, P [a; b]) →
  (∀ a b c l, P l → P (a :: b :: c :: l)) →
  ∀ l, P l.
Proof.
  intros H0 H1 H2 H3. fix IH 1. intros [|a [|b [|c l]]].
  - exact H0.
  - apply H1.
  - apply H2.
  - apply H3, IH.
Qed.

(** The encoding of a buffer of [n] bytes has [ceil(4n/3)] characters, all
    of them letters, digits, [-] or [_]: no [+], [/] or [=] is left.  For
    the 32 random bytes of [generateVerifier] and for the 32 bytes of the
    SHA-256 digest in [challengeFromVerifier] this gives 43 characters, the
    lower end of the range 43-128 quoted in the source. *)
Theorem base64url_length_alphabet (buf : list Byte.byte) :
  String.length (base64url buf) = ((4 * length buf + 2) / 3)%nat
  ∧ forallb url_safe (list_ascii_of_string (base64url buf)) = true
  ∧ (length buf = 32%nat → String.length (base64url buf) = 43%nat).
Proof.
  assert (String.length (base64url buf) = ((4 * length buf + 2) / 3)%nat
          ∧ forallb url_safe (list_ascii_of_string (base64url buf)) = true)
    as [Hlen Hsafe].
  { unfold base64url. induction buf as [|a|a b|a b c l [IH1 IH2]] using list_ind3.
    - done.
    - cbn [base64]. rewrite !base64url_cons. simpl.
      by rewrite !url_char_safe.
    - cbn [base64]. rewrite !base64url_cons. simpl.
      by rewrite !url_char_safe.
    - cbn [base64]. rewrite !base64url_cons.
      cbn [String.length list_ascii_of_string forallb length].
      rewrite !url_char_safe, IH1, IH2. split; [|done].
      replace (4 * S (S (S (length l))) + 2)%nat
        with ((4 * length l + 2) + 4 * 3)%nat by lia.
      rewrite Nat.div_add by done. lia. }
  repeat split; try done. intros H32. by rewrite Hlen, H32.
Qed.

Lemma base64url_length_alphabet_witness :
  String.length (base64url (repeat Byte.xff 32)) = 43%nat
  ∧ forallb url_safe (list_ascii_of_string (base64url (repeat Byte.xff 32)))
    = true.
Proof.
  destruct (base64url_length_alphabet (repeat Byte.xff 32)) as (_ & H2 & H3).
  split; [apply H3; reflexivity | exact H2].
Defined.

(** * The event stream (lichess.ts: src/chesscoin-backend/src/pkce.ts,
    [streamUserEvents]) *)

(** The decoded text of the stream is a list of characters.  The state of
    the reader loop is the buffer [buf] together with the lines handed to
    [JSON.parse] so far; what [JSON.parse] and [onEvent] do with a line is
    outside this model. *)
Definition newline : ascii := "010"%char.

(** [buf.indexOf(c)], with [None] for -1. *)
Fixpoint indexOf (c : ascii) (s : list ascii) : option nat :=
  match s with
  | [] => None
  | x :: s' => if Ascii.eqb x c then Some 0%nat else S <$> indexOf c s'
  end.

(** White space and line terminators among the characters below 256. *)
Definition is_space (c : ascii) : bool :=
  let n := N_of_ascii c in
  ((9 <=? n) && (n <=? 13))%N || (n =? 32)%N || (n =? 160)%N.

Fixpoint trimStart (s : list ascii) : list ascii :=
  match s with
  | [] => []
  | c :: s' => if is_space c then trimStart s' else s
  end.

(** [s.trim()] *)
Definition trim (s : list ascii) : list ascii :=
  reverse (trimStart (reverse (trimStart s))).

(** The inner loop [while ((idx = buf.indexOf('\n')) >= 0) { ... }]; each
    turn removes at least one character of the buffer, so that [fuel] at
    least the length of the buffer lets the loop run to its end. *)
Fixpoint drain (fuel : nat) (buf : list ascii) (out : list (list ascii))
    : list (list ascii) * list ascii :=
  match fuel with
  | O => (out, buf)
  | S fuel' =>
      match indexOf newline buf with
      | None => (out, buf)
      | Some idx =>
          let line := trim (take idx buf) in
          let buf' := drop (S idx) buf in
          drain fuel' buf' (if bool_decide (line = []) then out
                            else out ++ [line])
      end
  end.

(** One turn of the outer loop: [buf += decoder.decode(value)], then the
    inner loop. *)
Definition onChunk (chunk : list ascii) (st : list (list ascii) * list ascii)
    : list (list ascii) * list ascii :=
  let buf := st.2 ++ chunk in
  drain (length buf) buf st.1.

(** For the proofs: the lines of a text read character by character,
    [cur] being the line under way.  [drain] computes the same lines
    ([drain_scan]). *)
Definition emit (line : list ascii) : list (list ascii) :=
  if bool_decide (line = []) then [] else [line].

Fixpoint scan (cur buf : list ascii) : list (list ascii) * list ascii :=
  match buf with
  | [] => ([], cur)
  | c :: buf' =>
      if Ascii.eqb c newline
      then (emit (trim cur) ++ (scan [] buf').1, (scan [] buf').2)
      else scan (cur ++ [c]) buf'
  end.

Lemma indexOf_lt c s idx : indexOf c s = Some idx → (idx < length s)%nat.
Proof.
  revert idx. induction s as [|x s IH]; intros idx; simpl; [done|].
  destruct (Ascii.eqb x c).
  - intros [= <-]. lia.
  - destruct (indexOf c s) as [i|]; [|done]. simpl. intros [= <-].
    specialize (IH i eq_refl). lia.
Qed.

Lemma scan_None cur buf :
  indexOf newline buf = None → scan cur buf = ([], cur ++ buf).
Proof.
  revert cur. induction buf as [|x buf IH]; intros cur; simpl.
  - by rewrite app_nil_r.
  - destruct (Ascii.eqb x newline); [done|].
    destruct (indexOf newline buf); [done|]. intros _.
    rewrite IH by done. by rewrite <- app_assoc.
Qed.

Lemma scan_Some cur buf idx :
  indexOf newline buf = Some idx →
  scan cur buf
  = (emit (trim (cur ++ take idx buf)) ++ (scan [] (drop (S idx) buf)).1,
     (scan [] (drop (S idx) buf)).2).
Proof.
  revert cur idx. induction buf as [|x buf IH]; intros cur idx; simpl; [done|].
  destruct (Ascii.eqb x newline).
  - intros [= <-]. simpl. by rewrite app_nil_r.
  - destruct (indexOf newline buf) as [i|]; [|done]. simpl. intros [= <-].
    rewrite (IH _ i) by done. simpl. by rewrite <- app_assoc.
Qed.

Lemma drain_scan fuel buf out :
  (length buf ≤ fuel)%nat →
  drain fuel buf out = (out ++ (scan [] buf).1, (scan [] buf).2).
Proof.
  revert buf out. induction fuel as [|fuel IH]; intros buf out Hlen.
  - destruct buf; [|simpl in Hlen; lia]. simpl. by rewrite app_nil_r.
  - simpl. destruct (indexOf newline buf) as [idx|] eqn:Hi.
    + rewrite (scan_Some [] buf idx Hi). simpl.
      apply indexOf_lt in Hi.
      rewrite IH by (rewrite length_drop; lia).
      unfold emit. case_bool_decide; simpl; [done|].
      by rewrite <- app_assoc.
    + rewrite scan_None by done. simpl. by rewrite app_nil_r.
Qed.

Lemma scan_app cur x y :
  scan cur (x ++ y)
  = ((scan cur x).1 ++ (scan (scan cur x).2 y).1, (scan (scan cur x).2 y).2).
Proof.
  revert cur. induction x as [|c x IH]; intros cur; simpl.
  - by destruct (scan cur y).
  - destruct (Ascii.eqb c newline); simpl.
    + rewrite (IH []). simpl. by rewrite <- app_assoc.
    + apply IH.
Qed.

Lemma indexOf_app_None c s t :
  indexOf c s = None → indexOf c t = None → indexOf c (s ++ t) = None.
Proof.
  intros Hs Ht. induction s as [|x s IH]; simpl in *; [done|].
  destruct (Ascii.eqb x c); [done|].
  destruct (indexOf c s); [done|]. by rewrite IH.
Qed.

Lemma scan_rest_no_newline cur buf :
  indexOf newline cur = None → indexOf newline (scan cur buf).2 = None.
Proof.
  revert cur. induction buf as [|x buf IH]; intros cur Hc; simpl; [done|].
  destruct (Ascii.eqb x newline) eqn:E; simpl.
  - by apply IH.
  - apply IH. apply indexOf_app_None; [done|]. simpl. by rewrite E.
Qed.

Lemma scan_prefix_no_newline r y :
  indexOf newline r = None → scan [] (r ++ y) = scan r y.
Proof.
  intros Hr. rewrite scan_app, (scan_None [] r Hr). simpl.
  by destruct (scan r y).
Qed.

Lemma onChunk_scan chunk st :
  onChunk chunk st
  = (st.1 ++ (scan [] (st.2 ++ chunk)).1, (scan [] (st.2 ++ chunk)).2).
Proof. unfold onChunk. cbv zeta. by apply drain_scan. Qed.

(** The reader does not depend on how the network cuts the text into
    chunks: reading two chunks one after the other hands over the same
    lines and leaves the same buffer as reading their concatenation, and so
    for any sequence of chunks read from the empty buffer.  After every
    chunk the inner loop has run to its end: no line feed is left in the
    buffer. *)
Theorem stream_chunking_independent :
  (∀ c1 c2 st, onChunk c2 (onChunk c1 st) = onChunk (c1 ++ c2) st)
  ∧ (∀ chunks,
       foldl (λ st c, onChunk c st) ([], []) chunks
       = onChunk (concat chunks) ([], []))
  ∧ (∀ c st, indexOf newline (onChunk c st).2 = None).
Proof.
  assert (∀ c st, indexOf newline (onChunk c st).2 = None) as Hend.
  { intros c st. rewrite onChunk_scan. simpl. by apply scan_rest_no_newline. }
  assert (∀ c1 c2 st, onChunk c2 (onChunk c1 st) = onChunk (c1 ++ c2) st)
    as Htwo.
  { intros c1 c2 st. rewrite !onChunk_scan. simpl.
    rewrite (scan_prefix_no_newline (scan [] (st.2 ++ c1)).2 c2)
      by (by apply scan_rest_no_newline).
    rewrite (app_assoc (st.2)), (scan_app [] (st.2 ++ c1) c2). simpl.
    by rewrite <- app_assoc. }
  repeat split; try done.
  intros chunks.
  assert (∀ st, indexOf newline st.2 = None →
            foldl (λ st c, onChunk c st) st chunks
            = onChunk (concat chunks) st) as Hgen.
  { induction chunks as [|c chunks IH]; intros st Hst; simpl.
    - rewrite onChunk_scan, app_nil_r, scan_None by done. simpl.
      rewrite app_nil_r. by destruct st.
    - rewrite IH by apply Hend. apply Htwo. }
  by apply Hgen.
Qed.

(** * The state of a link request ([/lichess/login] and the checks at the
    head of [/lichess/callback]) *)

(** [pkceStore]: state -> entry.  The state is the token signed by
    [signAccessToken], the verifier the value of [generateVerifier]; both
    are inputs here, as is the verification of the token,
    [verify state now], which gives the subject of a token that is valid at
    the time [now]. *)
Record PkceEntry := mkPkce {
  pk_verifier : string;
  pk_userId : string;
  pk_exp : N
}.

(** [pkceStore.set(state, { verifier, userId, exp: Date.now() + 10 * 60 *
    1000 })] of [/lichess/login] *)
Definition lichessLogin (userId state verifier : string) (now : N)
    (store : gmap string PkceEntry) : gmap string PkceEntry :=
  <[state:=mkPkce verifier userId (now + 10 * 60 * 1000)]> store.

Inductive Rejected := MissingCodeState | InvalidState | StateExpired.

(** [/lichess/callback] up to [pkceStore.delete(state)]: a rejection (each
    one answered with status 400), or the entry with which the token
    exchange goes on. *)
Definition callbackState (verify : string → N → option string)
    (code state : string) (now : N) (store : gmap string PkceEntry)
    : (Rejected + PkceEntry) * gmap string PkceEntry :=
  if negb (truthy (Some code)) || negb (truthy (Some state))
  then (inl MissingCodeState, store)
  else
    match verify state now with
    | None => (inl InvalidState, store)
    | Some userId =>
        match store !! state with
        | None => (inl StateExpired, store)
        | Some entry =>
            if negb (String.eqb (pk_userId entry) userId)
               || (pk_exp entry <? now)%N
            then (inl StateExpired, store)
            else (inr entry, delete state store)
        end
    end.

(** A state serves once.  When the callback accepts a state, the entry it
    goes on with was registered under that state for the account named by
    the token and has not expired; the entry is removed, and every later
    callback with this state is rejected, whatever its code, at whatever
    time, and leaves the store as it is.  A state registered by
    [/lichess/login] is accepted within ten minutes when its token names the
    same account. *)
Theorem callbackState_single_use verify code state now store entry store' :
  callbackState verify code state now store = (inr entry, store') →
  store !! state = Some entry
  ∧ verify state now = Some (pk_userId entry)
  ∧ (now ≤ pk_exp entry)%N
  ∧ store' = delete state store
  ∧ (∀ code' now', ∃ r,
       callbackState verify code' state now' store' = (inl r, store'))
  ∧ (∀ u v t st0,
       code ≠ "" → state ≠ "" →
       (now ≤ t + 600000)%N → verify state now = Some u →
       callbackState verify code state now (lichessLogin u state v t st0)
       = (inr (mkPkce v u (t + 600000)), delete state st0)).
Proof.
  unfold callbackState. intros H.
  destruct (negb (truthy (Some code)) || negb (truthy (Some state)));
    [done|].
  destruct (verify state now) as [u|] eqn:Hv; [|done].
  destruct (store !! state) as [e|] eqn:He; [|done].
  destruct (String.eqb_spec (pk_userId e) u) as [Hu|Hu]; [|done].
  destruct (N.ltb_spec (pk_exp e) now) as [Hx|Hx]; [done|].
  simpl in H. injection H as <- <-. repeat split; try done.
  - by rewrite Hu.
  - intros code' now'.
    destruct (negb (truthy (Some code')) || negb (truthy (Some state)));
      [by eexists|].
    destruct (verify state now'); [|by eexists].
    rewrite lookup_delete_eq. by eexists.
  - intros u' v t st0 Hc Hs Ht [= <-]. unfold lichessLogin. simpl.
    destruct (String.eqb_spec code ""); [done|].
    destruct (String.eqb_spec state ""); [done|]. simpl.
    rewrite lookup_insert_eq. simpl. rewrite String.eqb_refl. simpl.
    destruct (N.ltb_spec (t + 10 * 60 * 1000) now) as [Hlt|Hge]; [lia|].
    by rewrite delete_insert_eq.
Qed.

Lemma callbackState_single_use_witness :
  let verify := λ (tok : string) (now : N),
                  if (now <=? 700000)%N then Some "A" else None in
  let store := lichessLogin "A" "st" "ver" 100000%N ∅ in
  callbackState verify "code" "st" 300000%N store
    = (inr (mkPkce "ver" "A" 700000%N), delete "st" store)
  ∧ ∃ r, callbackState verify "code" "st" 300001%N (delete "st" store)
         = (inl r, delete "st" store).
Proof.
  intros verify store.
  assert (callbackState verify "code" "st" 300000%N store
          = (inr (mkPkce "ver" "A" 700000%N), delete "st" store)) as H
    by (vm_compute; reflexivity).
  split; [exact H|].
  destruct (callbackState_single_use verify "code" "st" 300000%N store _ _ H)
    as (_ & _ & _ & _ & H5 & _).
  apply (H5 "code" 300001%N).
Defined.
